(** * cowidev.jhu.process: the JHU case/death pipeline

    A shallow embedding of [scripts/src/cowidev/jhu/process.py] and the
    properties of its stages.

    Conventions of the embedding.
    - A numeric cell of a data frame is a [cell]: an exact rational, one of
      the IEEE specials [+inf], [-inf], [NaN] that float division produces,
      or the [pd.NA] sentinel.  Arithmetic is exact (no binary rounding,
      no signed zero); [np.round] is round-half-to-even on the exact value.
      Every [Num q] built by an operation holds [q] in lowest terms, so
      that cells are compared with Leibniz equality.
    - A data frame is the list of its rows in row order; a row carries its
      [date] (days since the epoch of the calendar), its [location] and a
      finite map from column names to cells.  Results of group-wise
      operations are written back to the rows they were computed from,
      which is what pandas' index alignment does on a unique index.
    - Data frames live in a store and are passed by reference: a stage
      that assigns through [df.loc] or [df[col] = ...] updates the object
      it was given, a stage that starts with [df.copy()], [merge], [concat],
      [sort_values] or a column selection allocates a new one. *)

From Stdlib Require Import QArith Qround OrderedTypeEx.
From stdpp Require Import gmap strings list sorting.

Local Open Scope Z_scope.

(* ================================================================== *)
(** ** Cells and their arithmetic *)
(* ================================================================== *)

Inductive cell : Type :=
  | Num (q : Q)
  | PInf
  | NInf
  | NaN
  | NA.

Global Instance Q_eq_dec : EqDecision Q.
Proof. solve_decision. Defined.

Global Instance cell_eq_dec : EqDecision cell.
Proof. solve_decision. Defined.

Global Instance cell_inhabited : Inhabited cell := populate NaN.

(** A number in lowest terms. *)
Definition num (q : Q) : cell := Num (Qred q).

Definition zero : cell := Num 0.

(** [pd.isnull] / [pd.notnull]: both [NaN] and [pd.NA] are missing. *)
Definition isnull (c : cell) : bool :=
  match c with
  | NaN | NA => true
  | _ => false
  end.

Definition notnull (c : cell) : bool := negb (isnull c).

Definition Qsign (q : Q) : Z := Z.sgn (Qnum q).

(** Float addition. *)
Definition cadd (a b : cell) : cell :=
  match a, b with
  | NA, _ | _, NA => NA
  | NaN, _ | _, NaN => NaN
  | Num x, Num y => num (x + y)
  | PInf, NInf | NInf, PInf => NaN
  | PInf, _ | _, PInf => PInf
  | NInf, _ | _, NInf => NInf
  end.

(** Float multiplication. *)
Definition cmul (a b : cell) : cell :=
  let inf_times (pos : bool) (q : Q) :=
    match Qsign q with
    | 0 => NaN
    | Zpos _ => if pos then PInf else NInf
    | Zneg _ => if pos then NInf else PInf
    end in
  match a, b with
  | NA, _ | _, NA => NA
  | NaN, _ | _, NaN => NaN
  | Num x, Num y => num (x * y)
  | PInf, PInf | NInf, NInf => PInf
  | PInf, NInf | NInf, PInf => NInf
  | PInf, Num y => inf_times true y
  | NInf, Num y => inf_times false y
  | Num x, PInf => inf_times true x
  | Num x, NInf => inf_times false x
  end.

(** Float division: a zero divisor gives an infinity of the sign of the
    dividend, or [NaN] for [0/0]. *)
Definition cdiv (a b : cell) : cell :=
  match a, b with
  | NA, _ | _, NA => NA
  | NaN, _ | _, NaN => NaN
  | Num x, Num y =>
      match Qsign y with
      | 0 => match Qsign x with
             | 0 => NaN
             | Zpos _ => PInf
             | Zneg _ => NInf
             end
      | _ => num (x / y)
      end
  | Num _, (PInf | NInf) => zero
  | (PInf | NInf), (PInf | NInf) => NaN
  | PInf, Num y => match Qsign y with Zneg _ => NInf | _ => PInf end
  | NInf, Num y => match Qsign y with Zneg _ => PInf | _ => NInf end
  end.

Definition csub (a b : cell) : cell := cadd a (cmul (Num (-1)) b).

(** Round half to even on an exact rational. *)
Definition round_half_even (q : Q) : Z :=
  let n := Qnum q in
  let d := Zpos (Qden q) in
  let f := n / d in
  let r := n mod d in
  match 2 * r ?= d with
  | Lt => f
  | Gt => f + 1
  | Eq => if Z.even f then f else f + 1
  end.

(** [np.round(x, decimals)]. *)
Definition np_round (decimals : nat) (c : cell) : cell :=
  match c with
  | Num q =>
      let s := inject_Z (10 ^ Z.of_nat decimals) in
      num (inject_Z (round_half_even (q * s)) / s)
  | _ => c
  end.

(** Comparisons of a cell with a number; every comparison with a missing
    value is false. *)
Definition cge (c : cell) (t : Q) : bool :=
  match c with
  | Num q => Qle_bool t q
  | PInf => true
  | _ => false
  end.

Definition cgt (c : cell) (t : Q) : bool :=
  match c with
  | Num q => negb (Qle_bool q t)
  | PInf => true
  | _ => false
  end.

Definition clt (c : cell) (t : Q) : bool :=
  match c with
  | Num q => negb (Qle_bool t q)
  | NInf => true
  | _ => false
  end.

Definition ceq (c : cell) (t : Q) : bool :=
  match c with
  | Num q => Qeq_bool q t
  | _ => false
  end.

(** [.replace([np.inf, -np.inf], pd.NA)]. *)
Definition replace_inf (c : cell) : cell :=
  match c with
  | PInf | NInf => NA
  | _ => c
  end.

(** Sum of a series with missing values skipped ([skipna], [min_count=0]). *)
Definition nansum (l : list cell) : cell :=
  foldr cadd zero (filter (λ c, notnull c = true) l).


(* ================================================================== *)
(** ** Data frames *)
(* ================================================================== *)

Record row : Type := Row {
  date : Z;
  location : string;
  vals : gmap string cell
}.

Global Instance row_eq_dec : EqDecision row.
Proof. solve_decision. Defined.

Abbreviation table := (list row).

(** [row[c]]; a column that is absent reads as missing. *)
Definition getc (c : string) (r : row) : cell := default NaN (vals r !! c).

Definition setc (c : string) (v : cell) (r : row) : row :=
  Row (date r) (location r) (<[c := v]> (vals r)).

Definition has_col (c : string) (r : row) : bool := bool_decide (is_Some (vals r !! c)).

(** [df[c]] as a series, in row order. *)
Definition column (c : string) (t : table) : list cell := getc c <$> t.

(** [df[c] = series], the series holding one value per row. *)
Definition set_col (c : string) (vs : list cell) (t : table) : table :=
  zip_with (setc c) vs t.

(** [df[c] = df.apply(f, axis=1)] and other row-wise assignments. *)
Definition map_col (c : string) (f : row → cell) (t : table) : table :=
  (λ r, setc c (f r) r) <$> t.

(** [df.loc[mask, c] = v]. *)
Definition loc_assign (mask : row → bool) (c : string) (v : cell) (t : table) : table :=
  (λ r, if mask r then setc c v r else r) <$> t.

(** [df.drop(columns=cs)]. *)
Definition drop_cols (cs : list string) (t : table) : table :=
  (λ r, Row (date r) (location r) (foldr delete (vals r) cs)) <$> t.

(** The value at a position of a series, missing out of range. *)
Definition nth_cell (l : list cell) (k : nat) : cell := default NaN (l !! k).

(** The rows of one location, in row order: a group of [groupby("location")]. *)
Definition group_of (l : string) (t : table) : table :=
  filter (λ r, location r = l) t.

(** Position of row [i] of [t] inside the group of its location. *)
Definition rank_in_group (t : table) (i : nat) (l : string) : nat :=
  length (group_of l (take i t)).

(** [df.groupby("location")...f...] for a series-valued [f] that keeps the
    length of the group: the value computed for a row of a group lands on
    that row. *)
Definition group_transform (f : table → list cell) (t : table) : list cell :=
  imap (λ i r, nth_cell (f (group_of (location r) t)) (rank_in_group t i (location r))) t.

(** The right-aligned window of width [w] that ends at position [k]. *)
Definition window (w k : nat) (l : list cell) : list cell :=
  drop (S k - w) (take (S k) l).

(** [.rolling(window=w, min_periods=mp, center=False).agg()]: the
    aggregate of the observed values of the window, missing unless at
    least [mp] values are observed. *)
Definition rolling (agg : list cell → cell) (w mp : nat) (l : list cell) : list cell :=
  imap (λ k _, let obs := filter (λ c, notnull c = true) (window w k l) in
               if decide (mp ≤ length obs)%nat then agg obs else NaN) l.

Definition rolling_sum : nat → nat → list cell → list cell :=
  rolling (foldr cadd zero).

Definition rolling_mean : nat → nat → list cell → list cell :=
  rolling (λ obs, cdiv (foldr cadd zero obs) (Num (inject_Z (Z.of_nat (length obs))))).

(** [.pct_change(periods=p, fill_method=None)] on one group:
    [x / x.shift(p) - 1]. *)
Definition pct_change (p : nat) (l : list cell) : list cell :=
  imap (λ k x, if decide (p ≤ k)%nat
               then csub (cdiv x (nth_cell l (k - p))) (Num 1)
               else NaN) l.

(* ================================================================== *)
(** ** Weekly and biweekly growth (pure part) *)
(* ================================================================== *)

Definition cases_colname (prefix : string) : string := prefix +:+ "_cases".
Definition deaths_colname (prefix : string) : string := prefix +:+ "_deaths".
Definition cases_growth_colname (prefix : string) : string := prefix +:+ "_pct_growth_cases".
Definition deaths_growth_colname (prefix : string) : string := prefix +:+ "_pct_growth_deaths".

(** First assignment of [_inject_growth]: the rolling sums. *)
Definition growth_rolling_sums (prefix : string) (periods : nat) (df : table) : table :=
  let sums c := group_transform
                  (λ g, rolling_sum periods (periods - 1) (column c g)) df in
  let cases := sums "new_cases" in
  let deaths := sums "new_deaths" in
  set_col (deaths_colname prefix) deaths (set_col (cases_colname prefix) cases df).

(** The chain [.pct_change(...).round(3).replace([inf, -inf], NA) * 100]. *)
Definition growth_of_pct (pct : cell) : cell :=
  cmul (replace_inf (np_round 3 pct)) (Num 100).

(** Second assignment of [_inject_growth]: the growth columns. *)
Definition growth_pct (prefix : string) (periods : nat) (df : table) : table :=
  let growth c := growth_of_pct <$>
                    group_transform (λ g, pct_change periods (column c g)) df in
  let cases := growth (cases_colname prefix) in
  let deaths := growth (deaths_colname prefix) in
  set_col (deaths_growth_colname prefix) deaths
    (set_col (cases_growth_colname prefix) cases df).

Definition growth_null_cases (prefix : string) (df : table) : table :=
  loc_assign (λ r, isnull (getc "new_cases" r)) (cases_colname prefix) NaN df.

Definition growth_null_deaths (prefix : string) (df : table) : table :=
  loc_assign (λ r, isnull (getc "new_deaths" r)) (deaths_colname prefix) NaN df.


(* ================================================================== *)
(** ** Orders used by [sort_values], [groupby] and [pivot] *)
(* ================================================================== *)

(** Python compares [str] by code point; on UTF-8 bytes this is the
    lexicographic order of [String.compare]. *)
Definition string_le (a b : string) : Prop := String.leb a b = true.

Global Instance string_le_dec a b : Decision (string_le a b).
Proof. unfold string_le. apply _. Defined.

(** Key order of [sort_values(by=["location", "date"])]. *)
Definition row_le (a b : row) : Prop :=
  match String.compare (location a) (location b) with
  | Lt => True
  | Eq => date a ≤ date b
  | Gt => False
  end.

Global Instance row_le_dec a b : Decision (row_le a b).
Proof. unfold row_le. destruct (String.compare _ _); apply _. Defined.

(** Key order of [sort_values(by="date")]. *)
Definition date_le (a b : row) : Prop := date a ≤ date b.

Global Instance date_le_dec a b : Decision (date_le a b).
Proof. unfold date_le. apply _. Defined.

(** The distinct locations of a frame in sorted order: the group keys of
    [groupby("location")] and the columns of a pivot on [location]. *)
Definition locations (t : table) : list string :=
  merge_sort string_le (remove_dups (location <$> t)).

(** The distinct dates of a frame in increasing order. *)
Definition dates (t : table) : list Z :=
  merge_sort Z.le (remove_dups (date <$> t)).

(* ================================================================== *)
(** ** Exceptions and the object store *)
(* ================================================================== *)

Inductive exn : Type :=
  | KeyError (key : string)
  | ValueError (msg : string)
  | Dangling.   (* a reference to no object: cannot arise in Python *)

Inductive outcome (A : Type) : Type :=
  | Ok (a : A)
  | Raise (e : exn).
Arguments Ok {A} a.
Arguments Raise {A} e.

Global Instance outcome_ret : MRet outcome := λ A a, Ok a.
Global Instance outcome_bind : MBind outcome := λ A B f m,
  match m with
  | Ok a => f a
  | Raise e => Raise e
  end.
Global Instance outcome_fmap : FMap outcome := λ A B f m,
  match m with
  | Ok a => Ok (f a)
  | Raise e => Raise e
  end.

(** [[f(x) for x in l]] with the first exception propagating. *)
Fixpoint traverse {A B} (f : A → outcome B) (l : list A) : outcome (list B) :=
  match l with
  | [] => Ok []
  | x :: l' => y ← f x; ys ← traverse f l'; Ok (y :: ys)
  end.

(** References to data-frame objects. *)
Abbreviation ref := positive.
Abbreviation heap := (gmap positive table).

(** Computations over the store that may raise. *)
Definition M (A : Type) : Type := heap → outcome (A * heap).

Global Instance M_ret : MRet M := λ A a h, Ok (a, h).
Global Instance M_bind : MBind M := λ A B f m h,
  match m h with
  | Ok (a, h') => f a h'
  | Raise e => Raise e
  end.

(** Read the object behind a reference. *)
Definition load (r : ref) : M table := λ h,
  match h !! r with
  | Some t => Ok (t, h)
  | None => Raise Dangling
  end.

(** Mutate the object behind a reference in place. *)
Definition update (r : ref) (f : table → table) : M unit := λ h,
  match h !! r with
  | Some t => Ok (tt, <[r := f t]> h)
  | None => Raise Dangling
  end.

(** Allocate a new object. *)
Definition alloc (t : table) : M ref := λ h,
  let r := fresh (dom h) in Ok (r, <[r := t]> h).

Definition lift {A} (o : outcome A) : M A := λ h,
  match o with
  | Ok a => Ok (a, h)
  | Raise e => Raise e
  end.

(** [for x in l: body(x)]. *)
Fixpoint for_each {A} (l : list A) (body : A → M unit) : M unit :=
  match l with
  | [] => mret tt
  | x :: l' => body x;; for_each l' body
  end.

(** [_inject_growth]: four assignments into the frame it is given. *)
Definition _inject_growth (df : ref) (prefix : string) (periods : nat) : M ref :=
  update df (growth_rolling_sums prefix periods);;
  update df (growth_pct prefix periods);;
  update df (growth_null_cases prefix);;
  update df (growth_null_deaths prefix);;
  mret df.

Definition inject_weekly_growth (df : ref) : M ref := _inject_growth df "weekly" 7.

Definition inject_biweekly_growth (df : ref) : M ref := _inject_growth df "biweekly" 14.

(** The two calls of [_inject_growth]. *)
Definition growth_periods : list (string * nat) :=
  [("weekly", 7%nat); ("biweekly", 14%nat)].

(** The pure function computed by [_inject_growth] on the frame. *)
Definition inject_growth_table (prefix : string) (periods : nat) (df : table) : table :=
  growth_null_deaths prefix
    (growth_null_cases prefix
       (growth_pct prefix periods (growth_rolling_sums prefix periods df))).


(* ================================================================== *)
(** ** Anomaly corrector *)
(* ================================================================== *)

(** Day number of a calendar date of the proleptic Gregorian calendar,
    counted from 1970-01-01. *)
Definition days_from_civil (y m d : Z) : Z :=
  let y' := if m <=? 2 then y - 1 else y in
  let era := y' / 400 in
  let yoe := y' - era * 400 in
  let mp := (m + 9) mod 12 in
  let doy := (153 * mp + 2) / 5 + d - 1 in
  let doe := yoe * 365 + yoe / 4 - yoe / 100 + doy in
  era * 146097 + doe - 719468.

(** [ZERO_DAY = "2020-01-21"]. *)
Definition zero_day : Z := days_from_civil 2020 1 21.

(** The metric of a manual correction. *)
Inductive metric : Type := cases | deaths.

Global Instance metric_eq_dec : EqDecision metric.
Proof. solve_decision. Defined.

Definition metric_name (m : metric) : string :=
  match m with
  | cases => "cases"
  | deaths => "deaths"
  end.

(** [LARGE_DATA_CORRECTIONS]; the ISO date string of an entry is kept as
    its year, month and day: [df.date.astype(str) == "2022-04-21"] holds
    of the rows dated [days_from_civil 2022 4 21]. *)
Definition LARGE_DATA_CORRECTIONS : list (string * (Z * Z * Z) * metric) :=
  [ ("Austria", (2022, 4, 21), deaths);
    ("Austria", (2022, 4, 22), deaths);
    ("Brazil", (2021, 9, 18), cases);
    ("Chile", (2020, 7, 17), deaths);
    ("Chile", (2022, 3, 21), deaths);
    ("China", (2020, 4, 17), deaths);
    ("Denmark", (2021, 12, 21), deaths);
    ("Ecuador", (2020, 9, 7), deaths);
    ("Ecuador", (2021, 7, 20), deaths);
    ("Finland", (2022, 3, 7), deaths);
    ("Iceland", (2022, 5, 17), deaths);
    ("India", (2021, 6, 10), deaths);
    ("Mexico", (2020, 10, 5), deaths);
    ("Mexico", (2021, 6, 1), deaths);
    ("Moldova", (2021, 12, 31), deaths);
    ("Norway", (2022, 3, 17), deaths);
    ("Oman", (2022, 6, 16), deaths);
    ("South Africa", (2021, 11, 23), cases);
    ("South Africa", (2022, 1, 6), deaths);
    ("Spain", (2020, 6, 19), deaths);
    ("Turkey", (2020, 12, 10), cases);
    ("United Kingdom", (2022, 1, 31), cases);
    ("United Kingdom", (2022, 2, 1), deaths);
    ("United Kingdom", (2022, 4, 6), deaths) ].

(** [series.max()] of a date series: [None] stands for the missing value
    that an empty selection gives. *)
Definition max_date (t : table) : option Z :=
  foldr (λ r acc, Some (match acc with
                        | None => date r
                        | Some m => Z.max (date r) m
                        end)) None t.

(** [series.item()]: the only element of a series of length one. *)
Definition item (l : list cell) : outcome cell :=
  match l with
  | [x] => Ok x
  | _ => Raise (ValueError "can only convert an array of size 1 to a Python scalar")
  end.

(** One of the two blocks of [hide_recent_zeros], given the date of the
    last positive value of the metric: the frame after the block. *)
Definition hide_after (col : string) (threshold : Q) (last_reported_date : Z)
    (last_positive_date : Z) (df : table) : outcome table :=
  if decide (last_positive_date ≠ last_reported_date) then
    last_known ← item (column col (filter (λ r, date r = last_positive_date) df));
    if cge last_known threshold && bool_decide (last_reported_date - last_positive_date < 7)
    then Ok (loc_assign (λ r, bool_decide (last_positive_date < date r)) col NaN df)
    else Ok df
  else Ok df.

(** [hide_recent_zeros], applied to the frame of one location.  The two
    [return df] under [pd.isnull(...)] leave the function at once. *)
Definition hide_recent_zeros (df : table) : outcome table :=
  let last_positive_cases_date :=
    max_date (filter (λ r, cgt (getc "new_cases" r) 0 = true) df) in
  match last_positive_cases_date with
  | None => Ok df
  | Some lpc =>
      let last_reported_date := default lpc (max_date df) in
      df ← hide_after "new_cases" 100 last_reported_date lpc df;
      let last_positive_deaths_date :=
        max_date (filter (λ r, cgt (getc "new_deaths" r) 0 = true) df) in
      match last_positive_deaths_date with
      | None => Ok df
      | Some lpd => hide_after "new_deaths" 10 last_reported_date lpd df
      end
  end.

(** [df.groupby("location").apply(f)] for a frame-valued [f]: the frames
    of the groups, in the order of the sorted keys. *)
Definition groupby_apply (f : table → outcome table) (t : table) : outcome table :=
  (λ frames, concat frames) <$> traverse (λ l, f (group_of l t)) (locations t).

(** The mask and column of one entry of [LARGE_DATA_CORRECTIONS]. *)
Definition correction_mask (ldc : string * (Z * Z * Z) * metric) (r : row) : bool :=
  let '(loc, (y, m, d), _) := ldc in
  bool_decide (location r = loc) && bool_decide (date r = days_from_civil y m d).

Definition correction_col (ldc : string * (Z * Z * Z) * metric) : string :=
  "new_" +:+ metric_name (ldc.2).

(** [discard_rows]: the first two steps write into the frame it is given,
    the last one returns a new, sorted frame. *)
Definition discard_rows (df : ref) : M ref :=
  update df (loc_assign (λ r, clt (getc "new_cases" r) 0) "new_cases" NaN);;
  update df (loc_assign (λ r, clt (getc "new_deaths" r) 0) "new_deaths" NaN);;
  for_each LARGE_DATA_CORRECTIONS (λ ldc,
    update df (loc_assign (correction_mask ldc) (correction_col ldc) NaN));;
  t ← load df;
  t' ← lift (groupby_apply hide_recent_zeros (merge_sort row_le t));
  alloc t'.

(** The frame as [discard_rows] leaves the object it was given. *)
Definition discard_in_place (t : table) : table :=
  foldl (λ t ldc, loc_assign (correction_mask ldc) (correction_col ldc) NaN t)
    (loc_assign (λ r, clt (getc "new_deaths" r) 0) "new_deaths" NaN
       (loc_assign (λ r, clt (getc "new_cases" r) 0) "new_cases" NaN t))
    LARGE_DATA_CORRECTIONS.

(** The frame that [discard_rows] returns. *)
Definition discard_rows_table (t : table) : outcome table :=
  groupby_apply hide_recent_zeros (merge_sort row_le (discard_in_place t)).


(* ================================================================== *)
(** ** External collaborators *)
(* ================================================================== *)

(** One line of the population reference table. *)
Record population_row : Type := PopulationRow {
  pop_location : string;
  pop_value : cell;
  pop_year : cell
}.

(** What the module imports from outside: the reference data of
    [cowidev.jhu.load], the testing locations of [get_testing()], and the
    natural logarithm on positive numbers behind [np.log]. *)
Record collaborators : Type := Collaborators {
  load_population : list population_row;
  load_eu_country_names : list string;
  LOCATIONS_BY_CONTINENT : list (string * list string);
  LOCATIONS_BY_WB_INCOME_GROUP : list (string * list string);
  get_testing : list string;
  log_pos : Q → Q
}.

(** [d[k]] on a dict given by its items, with the empty list for a
    missing key. *)
Fixpoint dict_get {V} (k : string) (d : list (string * list V)) : list V :=
  match d with
  | [] => []
  | (k', v) :: d' => if decide (k' = k) then v else dict_get k d'
  end.

(** [d[k] = v] on a dict given by its items in insertion order: a key
    that is present keeps its position. *)
Fixpoint dict_set {V} (k : string) (v : V) (d : list (string * V)) : list (string * V) :=
  match d with
  | [] => [(k, v)]
  | (k', v') :: d' => if decide (k' = k) then (k, v) :: d' else (k', v') :: dict_set k v d'
  end.

Definition dict_of_items {V} (items : list (string * V)) : list (string * V) :=
  foldl (λ d kv, dict_set kv.1 kv.2 d) [] items.

(* ================================================================== *)
(** ** OWID continents and custom aggregates *)
(* ================================================================== *)

(** The parameters of one aggregate: [include] and [exclude], each
    [None] when the entry does not give it. *)
Definition aggregate_params : Type := option (list string) * option (list string).

Definition aggregates_spec (E : collaborators) : list (string * aggregate_params) :=
  dict_of_items
    ([ ("World", (None, None));
       ("World excl. China", (None, Some ["China"]));
       ("World excl. China and South Korea", (None, Some ["China"; "South Korea"]));
       ("World excl. China, South Korea, Japan and Singapore",
          (None, Some ["China"; "South Korea"; "Japan"; "Singapore"]));
       ("European Union", (Some (load_eu_country_names E), None)) ]
     ++ ((λ kv, (kv.1, (Some kv.2, None))) <$> LOCATIONS_BY_CONTINENT E)
     ++ [ ("Asia excl. China",
            (Some (filter (λ l, l ≠ "China")
                     (remove_dups (dict_get "Asia" (LOCATIONS_BY_CONTINENT E)))), None)) ]
     ++ ((λ kv, (kv.1, (Some kv.2, None))) <$> LOCATIONS_BY_WB_INCOME_GROUP E)).

(** Python truthiness of an optional list: [None] and [[]] are false. *)
Definition truthy {A} (o : option (list A)) : bool :=
  match o with
  | Some (_ :: _) => true
  | _ => false
  end.

(** The two filters of [_sum_aggregate]. *)
Definition aggregate_filter (include exclude : option (list string)) (df : table) : table :=
  let df := if truthy include
            then filter (λ r, location r ∈ default [] include) df else df in
  if truthy exclude
  then filter (λ r, location r ∉ default [] exclude) df else df.

(** The value columns of [df.groupby("date").sum()] for one date: every
    column of the frame summed over the rows of the group, missing values
    skipped. *)
Definition sum_columns (g : table) : gmap string cell :=
  match g with
  | [] => ∅
  | r0 :: _ => map_imap (λ c _, Some (nansum (column c g))) (vals r0)
  end.

Definition _sum_aggregate (df : table) (name : string)
    (include exclude : option (list string)) : table :=
  let df := aggregate_filter include exclude df in
  (λ d, Row d name (sum_columns (filter (λ r, date r = d) df))) <$> dates df.

(** [pd.concat([df, *aggregates], sort=True, ignore_index=True)]. *)
Definition owid_aggregates_table (E : collaborators) (df : table) : table :=
  df ++ concat ((λ kv, _sum_aggregate df kv.1 (kv.2.1) (kv.2.2)) <$> aggregates_spec E).

Definition inject_owid_aggregates (E : collaborators) (df : ref) : M ref :=
  t ← load df;
  alloc (owid_aggregates_table E t).

(* ================================================================== *)
(** ** Doubling days *)
(* ================================================================== *)

Definition doubling_days_spec : list (string * (string * nat)) :=
  [ ("doubling_days_total_cases_3_day_period", ("total_cases", 3%nat));
    ("doubling_days_total_cases_7_day_period", ("total_cases", 7%nat));
    ("doubling_days_total_deaths_3_day_period", ("total_deaths", 3%nat));
    ("doubling_days_total_deaths_7_day_period", ("total_deaths", 7%nat)) ].

(** [np.log]: [-inf] at zero and [NaN] below it. *)
Definition np_log (E : collaborators) (c : cell) : cell :=
  match c with
  | Num q =>
      match Qsign q with
      | 0 => NInf
      | Zpos _ => num (log_pos E q)
      | Zneg _ => NaN
      end
  | PInf => PInf
  | NInf => NaN
  | NaN => NaN
  | NA => NA
  end.

Definition Qnat (n : nat) : Q := inject_Z (Z.of_nat n).

(** The expression of the first branch of [pct_change_to_doubling_days]. *)
Definition doubling_formula (E : collaborators) (pct_change : cell) (periods : nat) : cell :=
  np_round 2 (cdiv (cmul (Num (Qnat periods)) (np_log E (Num 2)))
                   (np_log E (cadd (Num 1) pct_change))).

Definition pct_change_to_doubling_days (E : collaborators)
    (pct_change : cell) (periods : nat) : cell :=
  if notnull pct_change && negb (ceq pct_change 0)
  then doubling_formula E pct_change periods
  else NA.

(** [df.loc[df[value_col] == 0, value_col] = np.nan]. *)
Definition null_zeros (value_col : string) (df : table) : table :=
  loc_assign (λ r, ceq (getc value_col r) 0) value_col NaN df.

(** The series [df.groupby("location")[value_col].pct_change(periods)]. *)
Definition period_pct_change (value_col : string) (periods : nat) (df : table) : list cell :=
  group_transform (λ g, pct_change periods (column value_col g)) df.

(** [df[col] = ...pct_change(...).map(pct_change_to_doubling_days)]. *)
Definition doubling_col (E : collaborators) (col value_col : string) (periods : nat)
    (df : table) : table :=
  set_col col
    ((λ pct, pct_change_to_doubling_days E pct periods) <$>
       period_pct_change value_col periods df) df.

Definition inject_doubling_days (E : collaborators) (df : ref) : M ref :=
  for_each doubling_days_spec (λ '(col, (value_col, periods)),
    update df (null_zeros value_col);;
    update df (doubling_col E col value_col periods));;
  mret df.

Definition doubling_days_table (E : collaborators) (df : table) : table :=
  foldl (λ t '(col, (value_col, periods)),
           doubling_col E col value_col periods (null_zeros value_col t))
        df doubling_days_spec.

(* ================================================================== *)
(** ** Population join and per-capita normalisation *)
(* ================================================================== *)

Definition with_population (p : cell) (y : cell) (r : row) : row :=
  setc "population" p (setc "population_year" y r).

(** [df.merge(load_population(), how="left", on="location")]. *)
Definition merge_population (E : collaborators) (df : table) : table :=
  df ≫= (λ r,
    match filter (λ p, pop_location p = location r) (load_population E) with
    | [] => [with_population NaN NaN r]
    | ms => (λ p, with_population (pop_value p) (pop_year p) r) <$> ms
    end).

Definition inject_population (E : collaborators) (df : ref) : M ref :=
  t ← load df;
  alloc (merge_population E t).

Definition drop_population (df : ref) : M ref :=
  t ← load df;
  alloc (drop_cols ["population_year"; "population"] t).

Definition per_million_col (measure : string) (df : table) : table :=
  map_col (measure +:+ "_per_million")
    (λ r, np_round 3 (cdiv (getc measure r)
                           (cdiv (getc "population" r) (Num 1000000)))) df.

Definition inject_per_million (E : collaborators) (df : ref) (measures : list string) : M ref :=
  df ← inject_population E df;
  for_each measures (λ measure, update df (per_million_col measure));;
  drop_population df.

Definition per_million_table (E : collaborators) (measures : list string) (df : table) : table :=
  drop_cols ["population_year"; "population"]
    (foldl (λ t measure, per_million_col measure t) (merge_population E df) measures).


(* ================================================================== *)
(** ** Rolling averages *)
(* ================================================================== *)

(** [rolling_avg_spec]: output column, then source column, window and
    minimum number of periods ([center] is [False] throughout). *)
Definition rolling_avg_spec : list (string * (string * nat * nat)) :=
  [ ("new_cases_7_day_avg_right", ("new_cases", 7%nat, 6%nat));
    ("new_deaths_7_day_avg_right", ("new_deaths", 7%nat, 6%nat));
    ("new_cases_per_million_7_day_avg_right", ("new_cases_per_million", 7%nat, 6%nat));
    ("new_deaths_per_million_7_day_avg_right", ("new_deaths_per_million", 7%nat, 6%nat)) ].

(** [.astype("float")]: the missing value of a float column is [NaN]. *)
Definition astype_float (c : cell) : cell :=
  match c with
  | NA => NaN
  | _ => c
  end.

Definition rolling_avg_col (col src : string) (w mp : nat) (df : table) : table :=
  let df := map_col col (λ r, astype_float (getc src r)) df in
  set_col col
    (np_round 3 <$> group_transform (λ g, rolling_mean w mp (column col g)) df) df.

Definition rolling_avg_table (df : table) : table :=
  foldl (λ t '(col, (src, w, mp)), rolling_avg_col col src w mp t)
        (merge_sort date_le df) rolling_avg_spec.

Definition inject_rolling_avg (df : ref) : M ref :=
  t ← load df;
  df ← alloc (merge_sort date_le t);
  for_each rolling_avg_spec (λ '(col, (src, w, mp)),
    update df (rolling_avg_col col src w mp));;
  mret df.

(* ================================================================== *)
(** ** Case fatality ratio *)
(* ================================================================== *)

Definition _apply_row_cfr_100 (r : row) : cell :=
  if notnull (getc "total_cases" r) && cge (getc "total_cases" r) 100
  then getc "cfr" r
  else NA.

Definition cfr_table (df : table) : table :=
  map_col "cfr_100_cases" _apply_row_cfr_100
    (map_col "cfr"
       (λ r, np_round 3 (cmul (cdiv (getc "total_deaths" r) (getc "total_cases" r))
                              (Num 100))) df).

Definition inject_cfr (df : ref) : M ref :=
  update df cfr_table;;
  mret df.

(* ================================================================== *)
(** ** Days since a threshold *)
(* ================================================================== *)

Record threshold_spec : Type := ThresholdSpec {
  value_col : string;
  value_threshold : Q;
  positive_only : bool
}.

Definition days_since_spec : list (string * threshold_spec) :=
  [ ("days_since_100_total_cases", ThresholdSpec "total_cases" 100 false);
    ("days_since_5_total_deaths", ThresholdSpec "total_deaths" 5 false);
    ("days_since_1_total_cases_per_million",
       ThresholdSpec "total_cases_per_million" 1 false);
    ("days_since_0_1_total_deaths_per_million",
       ThresholdSpec "total_deaths_per_million" (1 # 10) false) ].

(** [df["date"][df[col] >= threshold].iloc[0]], with [None] when the
    selection is empty. *)
Definition _get_date_of_threshold (df : table) (col : string) (threshold : Q) : option Z :=
  match filter (λ r, cge (getc col r) threshold = true) df with
  | r :: _ => Some (date r)
  | [] => None
  end.

Definition _date_diff (a b : option Z) (positive_only : bool) : option Z :=
  match a, b with
  | Some a, Some b =>
      let diff := a - b in
      if positive_only && bool_decide (diff < 0) then None else Some diff
  | _, _ => None
  end.

(** [.astype("Int64")] on the results of [_date_diff]. *)
Definition int64_cell (o : option Z) : cell :=
  match o with
  | Some z => Num (inject_Z z)
  | None => NA
  end.

Definition _days_since (df : table) (spec : threshold_spec) : list cell :=
  let ref_date := _get_date_of_threshold df (value_col spec) (value_threshold spec) in
  (λ r, int64_cell (_date_diff (Some (date r)) ref_date (positive_only spec))) <$> df.

Definition days_since_col (col : string) (spec : threshold_spec) (df : table) : table :=
  set_col col (group_transform (λ df_group, _days_since df_group spec) df) df.

Definition days_since_table (df : table) : table :=
  foldl (λ t '(col, spec), days_since_col col spec t) df days_since_spec.

Definition inject_days_since (df : ref) : M ref :=
  t ← load df;
  df ← alloc t;
  for_each days_since_spec (λ '(col, spec), update df (days_since_col col spec));;
  mret df.

(* ================================================================== *)
(** ** Variables to find exemplars *)
(* ================================================================== *)

Definition mapper_days_since (r : row) : cell :=
  if notnull (getc "population" r) && cge (getc "population" r) 5000000
  then getc "days_since_100_total_cases" r
  else NA.

Definition mapper_bool (E : collaborators) (r : row) : cell :=
  if notnull (getc "days_since_100_total_cases" r)
     && notnull (getc "population" r)
     && cge (getc "days_since_100_total_cases" r) 21
     && cge (getc "population" r) 5000000
     && bool_decide (location r ∈ get_testing E)
  then Num 1
  else Num 0.

Definition exemplars_cols (E : collaborators) (df : table) : table :=
  map_col "5m_pop_and_21_days_since_100_cases_and_testing" (mapper_bool E)
    (map_col "days_since_100_total_cases_and_5m_pop" mapper_days_since df).

Definition exemplars_table (E : collaborators) (df : table) : table :=
  drop_cols ["population_year"; "population"] (exemplars_cols E (merge_population E df)).

Definition inject_exemplars (E : collaborators) (df : ref) : M ref :=
  df ← inject_population E df;
  update df (map_col "days_since_100_total_cases_and_5m_pop" mapper_days_since);;
  update df (map_col "5m_pop_and_21_days_since_100_cases_and_testing" (mapper_bool E));;
  drop_population df.

(* ================================================================== *)
(** ** The pipeline *)
(* ================================================================== *)

Definition INPUT_MEASURES : list string :=
  ["new_cases"; "new_deaths"; "total_cases"; "total_deaths"].

Definition BASE_MEASURES : list string :=
  [ "new_cases"; "new_deaths"; "total_cases"; "total_deaths";
    "weekly_cases"; "weekly_deaths"; "biweekly_cases"; "biweekly_deaths" ].

(** Whether every row of the frame carries the column. *)
Definition table_has_col (t : table) (c : string) : bool := forallb (has_col c) t.

(** [df[cs]] for a list of value columns, next to the keys [date] and
    [location]: a new frame, or [KeyError] at the first absent column. *)
Definition select_columns (cs : list string) (t : table) : outcome table :=
  match filter (λ c, table_has_col t c = false) cs with
  | c :: _ => Raise (KeyError c)
  | [] => Ok ((λ r, Row (date r) (location r)
                        (filter (λ kv, kv.1 ∈ cs) (vals r))) <$> t)
  end.

Definition sort_values_location_date (df : ref) : M ref :=
  t ← load df;
  alloc (merge_sort row_le t).

Definition standardize_data (E : collaborators) (df : ref) : M ref :=
  t ← load df;
  t ← lift (select_columns INPUT_MEASURES t);
  df ← alloc t;
  df ← discard_rows df;
  df ← inject_owid_aggregates E df;
  df ← inject_weekly_growth df;
  df ← inject_biweekly_growth df;
  df ← inject_doubling_days E df;
  df ← inject_per_million E df BASE_MEASURES;
  df ← inject_rolling_avg df;
  df ← inject_cfr df;
  df ← inject_days_since df;
  df ← inject_exemplars E df;
  sort_values_location_date df.

(** The stages of [standardize_data] after the column selection. *)
Definition standardize_stages (E : collaborators) (df : ref) : M ref :=
  df ← discard_rows df;
  df ← inject_owid_aggregates E df;
  df ← inject_weekly_growth df;
  df ← inject_biweekly_growth df;
  df ← inject_doubling_days E df;
  df ← inject_per_million E df BASE_MEASURES;
  df ← inject_rolling_avg df;
  df ← inject_cfr df;
  df ← inject_days_since df;
  df ← inject_exemplars E df;
  sort_values_location_date df.

(** The frame after the stages that follow [discard_rows]. *)
Definition enrich_table (E : collaborators) (t : table) : table :=
  merge_sort row_le
    (exemplars_table E
       (days_since_table
          (cfr_table
             (rolling_avg_table
                (per_million_table E BASE_MEASURES
                   (doubling_days_table E
                      (inject_growth_table "biweekly" 14
                         (inject_growth_table "weekly" 7
                            (owid_aggregates_table E t))))))))).

(** The frame that [standardize_data] returns, as a function of the
    frame it is given. *)
Definition standardize_table (E : collaborators) (t : table) : outcome table :=
  t ← select_columns INPUT_MEASURES t;
  t ← discard_rows_table t;
  Ok (enrich_table E t).

(* ================================================================== *)
(** ** Export logic *)
(* ================================================================== *)

Definition KEYS : list string := ["date"; "location"].

Definition PER_MILLION_MEASURES : list string :=
  (λ m, m +:+ "_per_million") <$> BASE_MEASURES.

Definition DAYS_SINCE_MEASURES : list string := fst <$> days_since_spec.

Definition FULL_DATA_COLS : list string := KEYS ++ BASE_MEASURES.

(** The value columns of [GRAPHER_COL_NAMES] with their new names, after
    the two keys [location -> Country] and [date -> Year]. *)
Definition GRAPHER_COL_NAMES : list (string * string) :=
  [ ("new_cases", "Daily new confirmed cases of COVID-19");
    ("new_deaths", "Daily new confirmed deaths due to COVID-19");
    ("total_cases", "Total confirmed cases of COVID-19");
    ("total_deaths", "Total confirmed deaths due to COVID-19");
    ("new_cases_per_million", "Daily new confirmed cases of COVID-19 per million people");
    ("new_deaths_per_million", "Daily new confirmed deaths due to COVID-19 per million people");
    ("total_cases_per_million", "Total confirmed cases of COVID-19 per million people");
    ("total_deaths_per_million", "Total confirmed deaths due to COVID-19 per million people");
    ("days_since_100_total_cases", "Days since the total confirmed cases of COVID-19 reached 100");
    ("days_since_5_total_deaths", "Days since the total confirmed deaths of COVID-19 reached 5");
    ("days_since_1_total_cases_per_million",
       "Days since the total confirmed cases of COVID-19 per million people reached 1");
    ("days_since_0_1_total_deaths_per_million",
       "Days since the total confirmed deaths of COVID-19 per million people reached 0.1");
    ("new_cases_7_day_avg_right",
       "Daily new confirmed cases due to COVID-19 (rolling 7-day average, right-aligned)");
    ("new_deaths_7_day_avg_right",
       "Daily new confirmed deaths due to COVID-19 (rolling 7-day average, right-aligned)");
    ("new_cases_per_million_7_day_avg_right",
       "Daily new confirmed cases of COVID-19 per million people (rolling 7-day average, right-aligned)");
    ("new_deaths_per_million_7_day_avg_right",
       "Daily new confirmed deaths due to COVID-19 per million people (rolling 7-day average, right-aligned)");
    ("cfr", "Case fatality rate of COVID-19 (%)");
    ("cfr_100_cases", "Case fatality rate of COVID-19 (%) (Only observations with ≥100 cases)");
    ("days_since_100_total_cases_and_5m_pop",
       "Days since the total confirmed cases of COVID-19 reached 100 (with population ≥ 5M)");
    ("5m_pop_and_21_days_since_100_cases_and_testing",
       "Has population ≥ 5M AND had ≥100 cases ≥21 days ago AND has testing data");
    ("weekly_cases", "Weekly cases");
    ("weekly_deaths", "Weekly deaths");
    ("weekly_pct_growth_cases", "Weekly case growth (%)");
    ("weekly_pct_growth_deaths", "Weekly death growth (%)");
    ("biweekly_cases", "Biweekly cases");
    ("biweekly_deaths", "Biweekly deaths");
    ("biweekly_pct_growth_cases", "Biweekly case growth (%)");
    ("biweekly_pct_growth_deaths", "Biweekly death growth (%)");
    ("weekly_cases_per_million", "Weekly cases per million people");
    ("weekly_deaths_per_million", "Weekly deaths per million people");
    ("biweekly_cases_per_million", "Biweekly cases per million people");
    ("biweekly_deaths_per_million", "Biweekly deaths per million people") ].

Definition existsin (l1 l2 : list string) : list string :=
  filter (λ x, x ∈ l2) l1.

(** A field of a written table. *)
Inductive field : Type :=
  | FDate (d : Z)
  | FInt (z : Z)
  | FStr (s : string)
  | FCell (c : cell).

(** A table handed to [to_csv]: file name, header and lines. *)
Record csv_file : Type := CsvFile {
  file_name : string;
  header : list string;
  body : list (list field)
}.

(** [os.path.join(output_path, "%s.csv" % name)]. *)
Definition csv_path (output_path name : string) : string :=
  output_path +:+ "/" +:+ name +:+ ".csv".

(** The first of the columns that the frame lacks, as the [KeyError] of a
    selection. *)
Definition require_columns (cs : list string) (t : table) : outcome unit :=
  match filter (λ c, table_has_col t c = false) cs with
  | c :: _ => Raise (KeyError c)
  | [] => Ok tt
  end.

(** The grapher file: dates as day offsets from [zero_day], columns
    selected and renamed along [GRAPHER_COL_NAMES]. *)
Definition grapher_csv (df : table) (output_path grapher_name : string) : outcome csv_file :=
  require_columns (fst <$> GRAPHER_COL_NAMES) df;;
  Ok (CsvFile (csv_path output_path grapher_name)
        ("Country" :: "Year" :: (snd <$> GRAPHER_COL_NAMES))
        ((λ r, FStr (location r) :: FInt (date r - zero_day)
                 :: ((λ c, FCell (getc c r)) <$> (fst <$> GRAPHER_COL_NAMES))) <$> df)).

(** The aggregates kept in the public extracts. *)
Definition KEPT_AGGREGATES : list string :=
  [ "World"; "North America"; "South America"; "Europe"; "Africa"; "Asia";
    "Oceania"; "European Union"; "High income"; "Upper middle income";
    "Lower middle income"; "Low income" ].

Definition excluded_aggregates (E : collaborators) : list string :=
  filter (λ k, k ∉ KEPT_AGGREGATES) (fst <$> aggregates_spec E).

(** [df[~df["location"].isin(excluded_aggregates)]]. *)
Definition df_table (E : collaborators) (df : table) : table :=
  filter (λ r, location r ∉ excluded_aggregates E) df.

(** The columns of a frame, keys included. *)
Definition frame_has_col (t : table) (c : string) : bool :=
  bool_decide (c ∈ KEYS) || table_has_col t c.

Definition key_or_cell (c : string) (r : row) : field :=
  if decide (c = "date") then FDate (date r)
  else if decide (c = "location") then FStr (location r)
  else FCell (getc c r).

(** [full_data.csv]: the keys and the base measures, without the rows
    where every base measure is missing. *)
Definition full_data_csv (t : table) (output_path : string) : outcome csv_file :=
  let full_data_cols := filter (λ c, frame_has_col t c = true) FULL_DATA_COLS in
  require_columns (filter (λ c, c ∉ full_data_cols) BASE_MEASURES) t;;
  Ok (CsvFile (csv_path output_path "full_data") full_data_cols
        ((λ r, (λ c, key_or_cell c r) <$> full_data_cols) <$>
           filter (λ r, existsb (λ c, notnull (getc c r)) BASE_MEASURES = true) t)).

(** [cols.insert(0, cols.pop(cols.index("World")))]. *)
Definition move_world_first (cols : list string) : outcome (list string) :=
  match list_find (λ c, c = "World") cols with
  | Some (i, _) => Ok ("World" :: delete i cols)
  | None => Raise (ValueError "'World' is not in list")
  end.

(** The value of the pivot at one date and location. *)
Definition pivot_cell (t : table) (values : string) (d : Z) (l : string) : cell :=
  match filter (λ r, date r = d ∧ location r = l) t with
  | r :: _ => getc values r
  | [] => NaN
  end.

(** One wide file: [df_table.pivot(index="date", columns="location",
    values=col_name)] with the World column moved to the front. *)
Definition pivot_csv (t : table) (output_path col_name : string) : outcome csv_file :=
  require_columns [col_name] t;;
  (if decide (NoDup ((λ r, (date r, location r)) <$> t)) then Ok tt
   else Raise (ValueError "Index contains duplicate entries, cannot reshape"));;
  cols ← move_world_first (locations t);
  Ok (CsvFile (csv_path output_path col_name) ("date" :: cols)
        ((λ d, FDate d :: ((λ l, FCell (pivot_cell t col_name d l)) <$> cols)) <$> dates t)).

(** Writing the files one after the other: the files written before an
    exception stay written. *)
Fixpoint write_all (steps : list (outcome csv_file)) : list csv_file * outcome bool :=
  match steps with
  | [] => ([], Ok true)
  | Ok f :: rest => let '(fs, r) := write_all rest in (f :: fs, r)
  | Raise e :: _ => ([], Raise e)
  end.

(** [standard_export]: the files written and the result. *)
Definition standard_export (E : collaborators) (df : table)
    (output_path grapher_name : string) : list csv_file * outcome bool :=
  let t := df_table E df in
  write_all
    ([ grapher_csv df output_path grapher_name;
       full_data_csv t output_path ]
     ++ ((λ col_name, pivot_csv t output_path col_name) <$>
           (BASE_MEASURES ++ PER_MILLION_MEASURES))).

(** The wide files among the files written. *)
Definition pivot_files (output_path : string) (files : list csv_file) : list csv_file :=
  filter (λ f, file_name f ∈
               (csv_path output_path <$> (BASE_MEASURES ++ PER_MILLION_MEASURES))) files.

(* ================================================================== *)
(** ** Reading results *)
(* ================================================================== *)

(** Whether an outcome is a value, and the value. *)
Definition is_Ok {A} (o : outcome A) : bool :=
  match o with
  | Ok _ => true
  | Raise _ => false
  end.

Definition get_Ok {A} (d : A) (o : outcome A) : A :=
  match o with
  | Ok a => a
  | Raise _ => d
  end.

(** The frame behind the reference that a computation returns. *)
Definition run_table (m : M ref) (h : heap) : outcome table :=
  match m h with
  | Ok (r, h') =>
      match h' !! r with
      | Some t => Ok t
      | None => Raise Dangling
      end
  | Raise e => Raise e
  end.


(* ================================================================== *)
(** ** Sample data *)
(* ================================================================== *)

(** A logarithm to run examples with: the series of [2 artanh] cut after
    a few terms. *)
Definition log_series (q : Q) : Q :=
  let y := ((q - 1) / (q + 1))%Q in
  let y2 := (y * y)%Q in
  Qred (2 * y * (1 + y2 * ((1 # 3) + y2 * ((1 # 5) + y2 * (1 # 7)))))%Q.

Definition sample_collaborators : collaborators :=
  Collaborators
    [ PopulationRow "A" (Num 8000000) (Num 2020);
      PopulationRow "World" (Num 7000000000) (Num 2020) ]
    ["A"]
    [("Asia", ["A"; "China"]); ("Europe", ["B"])]
    [("High income", ["A"; "B"])]
    ["A"]
    log_series.

Definition raw_row (d : Z) (l : string) (nc nd tc td : cell) : row :=
  Row d l (<["new_cases" := nc]> (<["new_deaths" := nd]>
          (<["total_cases" := tc]> (<["total_deaths" := td]> ∅)))).


(** Thirteen days of one location: three cases in the first six days,
    four in the last seven. *)
Definition growth_sample : table :=
  imap (λ i c, raw_row (18300 + Z.of_nat i) "A" (Num (inject_Z c)) NaN
                 (Num 0) (Num 0))
       [1; 1; 1; 0; 0; 0; 1; 1; 1; 1; 0; 0; 0].


(** Seven days of one location with a gap in the daily cases on the last
    day: six of the seven values of the window are observed. *)
Definition gap_sample : table :=
  imap (λ i c, raw_row (18300 + Z.of_nat i) "A" c (Num 0) (Num 0) (Num 0))
       [Num 1; Num 1; Num 1; Num 1; Num 1; Num 1; NaN].


(** Five days of one location whose total stays at 100 and then doubles. *)
Definition doubling_sample : table :=
  imap (λ i c, raw_row (18300 + Z.of_nat i) "A" (Num 0) (Num 0) (Num (inject_Z c)) (Num 0))
       [100; 100; 100; 100; 200].


(** Two locations: the total of A reaches 100 on its second day, the
    total of B never does. *)
Definition threshold_sample : table :=
  [ raw_row 18300 "A" (Num 50) (Num 0) (Num 50) (Num 0);
    raw_row 18300 "B" (Num 1) (Num 0) (Num 1) (Num 0);
    raw_row 18301 "A" (Num 50) (Num 0) (Num 100) (Num 0);
    raw_row 18301 "B" (Num 1) (Num 0) (Num 2) (Num 0);
    raw_row 18302 "A" (Num 50) (Num 0) (Num 150) (Num 0) ].


(** A raw frame with a negative daily delta. *)
Definition negative_sample : table :=
  [ raw_row 18300 "A" (Num 7) (Num 0) (Num 7) (Num 0);
    raw_row 18301 "A" (Num (-5)) (Num 0) (Num 2) (Num 0) ].


(** The frame of one location that reports deaths but never a positive
    number of cases: twenty deaths, then a zero on the last day. *)
Definition no_cases_sample : table :=
  [ raw_row 18300 "A" (Num 0) (Num 20) (Num 0) (Num 20);
    raw_row 18301 "A" (Num 0) (Num 0) (Num 0) (Num 20) ].

(** The same deaths next to one case on the first day. *)
Definition one_case_sample : table :=
  [ raw_row 18300 "A" (Num 1) (Num 20) (Num 1) (Num 20);
    raw_row 18301 "A" (Num 0) (Num 0) (Num 1) (Num 20) ].

(** Two hundred cases, then a zero on the last day, and no death ever. *)
Definition no_deaths_sample : table :=
  [ raw_row 18300 "A" (Num 200) (Num 0) (Num 200) (Num 0);
    raw_row 18301 "A" (Num 0) (Num 0) (Num 200) (Num 0) ].

(** One date on which the daily cases of both locations are missing. *)
Definition all_null_sample : table :=
  [ raw_row 18300 "China" NaN (Num 1) (Num 10) (Num 1);
    raw_row 18300 "B" NaN (Num 2) (Num 5) (Num 2);
    raw_row 18301 "B" (Num 3) (Num 0) (Num 8) (Num 2) ].


(** The frame that the pipeline returns on [threshold_sample], as handed
    to the export. *)
Definition export_sample : table :=
  match standardize_table sample_collaborators threshold_sample with
  | Ok t => t
  | Raise _ => []
  end.

(** A frame without any World row. *)
Definition no_world_sample : table :=
  filter (λ r, location r ≠ "World") export_sample.

(* ================================================================== *)
(** ** Notions used in the statements *)
(* ================================================================== *)

(** A frame that differs from another one in value columns only. *)
Definition same_keys (t t' : table) : Prop :=
  Forall2 (λ r r', location r = location r' ∧ date r = date r') t t'.

(** The rolling sums of one location, as [_inject_growth] computes them. *)
Definition location_sums (periods : nat) (c : string) (l : string) (df : table) : list cell :=
  rolling_sum periods (periods - 1) (column c (group_of l df)).

(** What [null_zeros] does to a value. *)
Definition null_if_zero (c : cell) : cell := if ceq c 0 then NaN else c.

(** One turn of the loop of [inject_doubling_days]. *)
Definition doubling_step (E : collaborators) (t : table) (s : string * (string * nat)) : table :=
  doubling_col E s.1 s.2.1 s.2.2 (null_zeros s.2.1 t).

(** The period percentage change of a value column at a row: the change
    of the location's series, exact zeros nulled, over [periods] records. *)
Definition period_pct (vc : string) (periods : nat) (t : table) (i : nat) (l : string) : cell :=
  nth_cell (pct_change periods (null_if_zero <$> column vc (group_of l t)))
           (rank_in_group t i l).

(** A stage [m] computes [f] on the frame behind its argument: it
    returns a reference to the result, and leaves every other object of
    the store as it was; the argument itself may have been written to. *)
Definition stage (m : ref → M ref) (f : table → outcome table) : Prop :=
  ∀ (h : heap) df t, h !! df = Some t →
    match f t with
    | Ok t' => ∃ df' (h' : heap),
        m df h = Ok (df', h') ∧ h' !! df' = Some t' ∧
        ∀ r, is_Some (h !! r) → r ≠ df → h' !! r = h !! r ∧ r ≠ df'
    | Raise e => m df h = Raise e
    end.

(** Whether a manual correction of the metric matches the row. *)
Definition corrected (m : metric) (r : row) : bool :=
  existsb (λ ldc, correction_mask ldc r && bool_decide (ldc.2 = m)) LARGE_DATA_CORRECTIONS.

(** The daily value that [discard_rows] leaves in the frame it was given. *)
Definition discarded (m : metric) (r : row) : cell :=
  let c := "new_" +:+ metric_name m in
  if clt (getc c r) 0 || corrected m r then NaN else getc c r.

(** Every row of [t'] carries, on the columns [cs], the values of some
    row of [t]. *)
Definition keeps (cs : list string) (t t' : table) : Prop :=
  ∀ r', r' ∈ t' → ∃ r, r ∈ t ∧ ∀ c, c ∈ cs → getc c r' = getc c r.

(** The two totals. *)
Definition TOTALS : list string := ["total_cases"; "total_deaths"].

(** The header of a wide file that has World among its locations. *)
Definition pivot_header (t : table) : list string :=
  "date" :: "World" :: filter (λ l, l ≠ "World") (locations t).

(** The rows that a block may touch are not rows with a positive value. *)
Definition hidden_or_kept (col : string) (r r' : row) : Prop :=
  getc col r' = getc col r ∨ (getc col r' = NaN ∧ cgt (getc col r) 0 ≠ true).

(** How a row may differ after [hide_recent_zeros]. *)
Definition zeros_hidden (r r' : row) : Prop :=
  location r' = location r ∧ date r' = date r ∧
  hidden_or_kept "new_cases" r r' ∧ hidden_or_kept "new_deaths" r r' ∧
  ∀ c, c ≠ "new_cases" → c ≠ "new_deaths" → getc c r' = getc c r.

(** How a row of the frame returned by [discard_rows] relates to the row
    of the frame given: same keys; a daily value is the corrected value
    or, where trailing zeros were hidden, missing; other columns are as
    they were. *)
Definition discard_result (r r' : row) : Prop :=
  location r' = location r ∧ date r' = date r ∧
  (∀ m, getc ("new_" +:+ metric_name m) r' = discarded m r ∨
        getc ("new_" +:+ metric_name m) r' = NaN) ∧
  ∀ c, c ≠ "new_cases" → c ≠ "new_deaths" → getc c r' = getc c r.

(** The row that a column selection keeps. *)
Definition selected (cs : list string) (r : row) : row :=
  Row (date r) (location r) (filter (λ kv, kv.1 ∈ cs) (vals r)).

(** A row [r'] that stands for [r]: the same location and date, and the
    same values in the columns [cs]. *)
Definition carried (cs : list string) (r r' : row) : Prop :=
  location r' = location r ∧ date r' = date r ∧ ∀ c, c ∈ cs → getc c r' = getc c r.

(** The frame [t'] has the rows of [t], none lost and none added, with
    the columns [cs] as they were. *)
Definition carries (cs : list string) (t t' : table) : Prop :=
  (∀ r', r' ∈ t' → ∃ r, r ∈ t ∧ carried cs r r') ∧
  (∀ r, r ∈ t → ∃ r', r' ∈ t' ∧ carried cs r r').

(** The columns that each stage assigns. *)
Definition growth_columns (prefix : string) : list string :=
  [ cases_colname prefix; deaths_colname prefix;
    cases_growth_colname prefix; deaths_growth_colname prefix ].

Definition doubling_columns : list string :=
  (fst <$> doubling_days_spec) ++ ((λ s, s.2.1) <$> doubling_days_spec).

Definition population_columns : list string := ["population_year"; "population"].

Definition per_million_columns (measures : list string) : list string :=
  population_columns ++ ((λ m, m +:+ "_per_million") <$> measures).

Definition rolling_avg_columns : list string := fst <$> rolling_avg_spec.

Definition cfr_columns : list string := ["cfr"; "cfr_100_cases"].

Definition days_since_columns : list string := fst <$> days_since_spec.

Definition exemplars_columns : list string :=
  population_columns ++
  [ "days_since_100_total_cases_and_5m_pop";
    "5m_pop_and_21_days_since_100_cases_and_testing" ].

(** The two daily measures. *)
Definition DAILY : list string := ["new_cases"; "new_deaths"].

(** The columns assigned after each point of the pipeline. *)
Definition AFTER_CFR : list string := days_since_columns ++ exemplars_columns.

Definition AFTER_PER_MILLION : list string :=
  rolling_avg_columns ++ cfr_columns ++ AFTER_CFR.

Definition AFTER_DOUBLING : list string :=
  per_million_columns BASE_MEASURES ++ AFTER_PER_MILLION.

Definition AFTER_WEEKLY : list string :=
  growth_columns "biweekly" ++ doubling_columns ++ AFTER_DOUBLING.

Definition ENRICHED : list string := growth_columns "weekly" ++ AFTER_WEEKLY.

(** A row after some of its daily values were replaced by the missing
    value. *)
Definition nulled (r r' : row) : Prop :=
  location r' = location r ∧ date r' = date r ∧
  ∀ c, getc c r' = getc c r ∨ (c ∈ DAILY ∧ getc c r' = NaN).

(** A value that is not below zero: a number from zero on, [+inf], or a
    missing value. *)
Definition not_negative (c : cell) : Prop := clt c 0 = false.

(** How a row of the enriched frame stands for a row of the frame with
    aggregates: the daily values are as they were, a total of zero has
    become the missing value. *)
Definition enriched (r r' : row) : Prop :=
  location r' = location r ∧ date r' = date r ∧
  (∀ c, c ∈ DAILY → getc c r' = getc c r) ∧
  ∀ m, getc ("total_" +:+ metric_name m) r' =
       null_if_zero (getc ("total_" +:+ metric_name m) r).

(** How a row of the result of [standardize_data] stands for a row of
    the frame given: a daily value is the value given, or missing where
    it was negative, corrected by hand or hidden as a trailing zero; a
    total is the total given, or missing where it was zero. *)
Definition standardized (r r' : row) : Prop :=
  location r' = location r ∧ date r' = date r ∧
  (∀ m, getc ("new_" +:+ metric_name m) r' = discarded m r ∨
        getc ("new_" +:+ metric_name m) r' = NaN) ∧
  ∀ m, getc ("total_" +:+ metric_name m) r' =
       null_if_zero (getc ("total_" +:+ metric_name m) r).



(** The two growth columns of a call of [_inject_growth]. *)
Definition growth_pct_columns (prefix : string) : list string :=
  [cases_growth_colname prefix; deaths_growth_colname prefix].

Definition AFTER_BIWEEKLY : list string := doubling_columns ++ AFTER_DOUBLING.

(** The population that the join with [load_population()] gives to a
    location: that of a line of the table with this location, and the
    missing value when the table has none. *)
Definition population_of (E : collaborators) (l : string) (p : cell) : Prop :=
  (p = NaN ∧ l ∉ (pop_location <$> load_population E)) ∨
  ∃ e, e ∈ load_population E ∧ pop_location e = l ∧ p = pop_value e.



(** What [inject_exemplars] leaves on a row. *)
Definition exemplars_row (E : collaborators) (r : row) : Prop :=
  ∃ p, population_of E (location r) p ∧
    getc "days_since_100_total_cases_and_5m_pop" r =
      (if notnull p && cge p 5000000
       then getc "days_since_100_total_cases" r else NA) ∧
    getc "5m_pop_and_21_days_since_100_cases_and_testing" r =
      (if notnull (getc "days_since_100_total_cases" r)
          && notnull p
          && cge (getc "days_since_100_total_cases" r) 21
          && cge p 5000000
          && bool_decide (location r ∈ get_testing E)
       then Num 1 else Num 0).

(** The rolling average of a source column at row [i] of a frame: the
    mean of the observed values among the last [w] records of the
    location of the row, rounded to three decimals, and the missing value
    when fewer than [mp] of them are observed. *)
Definition rolling_avg_value (w mp : nat) (src : string) (t : table) (i : nat)
    (l : string) : cell :=
  let series := astype_float <$> column src (group_of l t) in
  let obs := filter (λ c, notnull c = true) (window w (rank_in_group t i l) series) in
  if decide (mp ≤ length obs)%nat
  then np_round 3 (cdiv (foldr cadd zero obs) (Num (inject_Z (Z.of_nat (length obs)))))
  else NaN.

(** Every row of the frame carries the value columns [cs] and no other. *)
Definition exact_cols (cs : list string) (t : table) : Prop :=
  ∀ r, r ∈ t → ∀ c, is_Some (vals r !! c) ↔ c ∈ cs.

(** The value columns of the frame that [standardize_data] returns. *)
Definition OUTPUT_COLUMNS : list string :=
  INPUT_MEASURES ++ growth_columns "weekly" ++ growth_columns "biweekly" ++
  (fst <$> doubling_days_spec) ++ PER_MILLION_MEASURES ++ rolling_avg_columns ++
  cfr_columns ++ days_since_columns ++
  [ "days_since_100_total_cases_and_5m_pop";
    "5m_pop_and_21_days_since_100_cases_and_testing" ].

(** A row whose daily values may have been assigned: when it carried the
    two daily columns, it carries the same columns as before. *)
Definition keeps_columns (r r' : row) : Prop :=
  location r' = location r ∧ date r' = date r ∧
  ((∀ c, c ∈ DAILY → is_Some (vals r !! c)) →
   ∀ c, is_Some (vals r' !! c) ↔ is_Some (vals r !! c)).

(** The pairs of date and location of a frame: the index of its pivot. *)
Definition pairs (t : table) : list (Z * string) := (λ r, (date r, location r)) <$> t.

(* ================================================================== *)
(** * Properties *)
(* ================================================================== *)

Example round_ex1 : np_round 3 (Num (1 # 3)) = Num (333 # 1000).
Proof. reflexivity. Qed.
Example round_ex2 : np_round 0 (Num (5 # 2)) = Num 2.
Proof. reflexivity. Qed.
Example round_ex3 : np_round 0 (Num (-5 # 2)) = Num (-2).
Proof. reflexivity. Qed.
Example round_ex4 : np_round 2 (Num (-1234567 # 100000)) = Num (-247 # 20).
Proof. reflexivity. Qed.
Example nansum_ex : nansum [NaN; Num 1; NA; Num (1#2)] = Num (3 # 2).
Proof. reflexivity. Qed.




(* ================================================================== *)
(** ** Rows, columns and groups *)
(* ================================================================== *)

Lemma getc_setc_eq c v r : getc c (setc c v r) = v.
Proof. unfold getc, setc; simpl. by rewrite lookup_insert_eq. Qed.

Lemma getc_setc_ne c c' v r : c ≠ c' → getc c' (setc c v r) = getc c' r.
Proof. intros Hne. unfold getc, setc; simpl. by rewrite lookup_insert_ne. Qed.

Lemma location_setc c v r : location (setc c v r) = location r.
Proof. done. Qed.

Lemma date_setc c v r : date (setc c v r) = date r.
Proof. done. Qed.

Lemma set_col_imap c (g : nat → row → cell) t :
  set_col c (imap g t) t = imap (λ i r, setc c (g i r) r) t.
Proof.
  unfold set_col. revert g. induction t as [|r t IH]; intros g; simpl; [done|].
  f_equal. apply IH.
Qed.

Lemma set_col_fmap_imap c (h : cell → cell) (g : nat → row → cell) t :
  set_col c (h <$> imap g t) t = imap (λ i r, setc c (h (g i r)) r) t.
Proof. rewrite fmap_imap. apply set_col_imap. Qed.

Lemma group_of_cons l r t :
  group_of l (r :: t) = if decide (location r = l) then r :: group_of l t else group_of l t.
Proof. unfold group_of. rewrite filter_cons. by destruct (decide _). Qed.

Lemma group_of_app l t1 t2 : group_of l (t1 ++ t2) = group_of l t1 ++ group_of l t2.
Proof. apply filter_app. Qed.

(** The row at position [i] of a frame is the row at its rank in the
    group of its location. *)
Lemma group_of_lookup_rank t i r :
  t !! i = Some r → group_of (location r) t !! rank_in_group t i (location r) = Some r.
Proof.
  intros Hi. unfold rank_in_group.
  replace (group_of (location r) t)
    with (group_of (location r) (take i t ++ r :: drop (S i) t))
    by (by rewrite take_drop_middle).
  rewrite group_of_app, group_of_cons, decide_True by done.
  rewrite lookup_app_r by lia. by rewrite Nat.sub_diag.
Qed.

Lemma rank_in_group_lt t i r :
  t !! i = Some r → (rank_in_group t i (location r) < length (group_of (location r) t))%nat.
Proof. intros Hi. eapply lookup_lt_Some, group_of_lookup_rank, Hi. Qed.

Lemma group_transform_lookup f t i r :
  t !! i = Some r →
  group_transform f t !! i =
    Some (nth_cell (f (group_of (location r) t)) (rank_in_group t i (location r))).
Proof. intros Hi. unfold group_transform. rewrite list_lookup_imap, Hi. done. Qed.

Lemma same_keys_imap (g : nat → row → row) t :
  (∀ i r, location (g i r) = location r ∧ date (g i r) = date r) →
  same_keys t (imap g t).
Proof.
  intros Hg. unfold same_keys. revert g Hg.
  induction t as [|r t IH]; intros g Hg; simpl; constructor.
  - destruct (Hg 0%nat r) as [Hl Hd]. by rewrite Hl, Hd.
  - apply IH. intros i r'. apply Hg.
Qed.

Lemma same_keys_group_length l t t' :
  same_keys t t' → length (group_of l t) = length (group_of l t').
Proof.
  induction 1 as [|r r' t t' [Hl _] _ IH]; [done|].
  rewrite !group_of_cons, Hl. destruct (decide _); simpl; congruence.
Qed.

Lemma same_keys_take i t t' : same_keys t t' → same_keys (take i t) (take i t').
Proof. apply Forall2_take. Qed.

Lemma same_keys_rank t t' i l :
  same_keys t t' → rank_in_group t i l = rank_in_group t' i l.
Proof. intros H. unfold rank_in_group. by apply same_keys_group_length, same_keys_take. Qed.

(** The column [c] of a group is read off any frame with the same keys
    that carries the same values in [c']. *)
Lemma group_column_ext c c' l t t' :
  Forall2 (λ r r', location r = location r' ∧ getc c r = getc c' r') t t' →
  column c (group_of l t) = column c' (group_of l t').
Proof.
  induction 1 as [|r r' t t' [Hl Hc] _ IH]; [done|].
  rewrite !group_of_cons, Hl. destruct (decide _); simpl; [f_equal|]; done.
Qed.

(** Writing a group-wise series into a column and reading the column
    back on a group gives the series of that group. *)
Lemma group_write_back_aux c (f : table → list cell) t0 l pre suf :
  t0 = pre ++ suf →
  length (f (group_of l t0)) = length (group_of l t0) →
  column c (group_of l
    (imap (λ j r, setc c (nth_cell (f (group_of (location r) t0))
                     (rank_in_group t0 (length pre + j) (location r))) r) suf)) =
  take (length (group_of l suf)) (drop (length (group_of l pre)) (f (group_of l t0))).
Proof.
  revert pre. induction suf as [|r suf IH]; intros pre Ht0 Hlen; simpl.
  { done. }
  rewrite !group_of_cons. simpl.
  assert (Hnext : t0 = (pre ++ [r]) ++ suf) by (by rewrite <- app_assoc).
  specialize (IH (pre ++ [r]) Hnext Hlen).
  assert (Himap :
    imap ((λ j r0, setc c (nth_cell (f (group_of (location r0) t0))
                     (rank_in_group t0 (length pre + j) (location r0))) r0) ∘ S) suf =
    imap (λ j r0, setc c (nth_cell (f (group_of (location r0) t0))
                     (rank_in_group t0 (length (pre ++ [r]) + j) (location r0))) r0) suf).
  { apply imap_ext. intros j r0 _. simpl. rewrite length_app. simpl.
    by replace (length pre + 1 + j)%nat with (length pre + S j)%nat by lia. }
  rewrite Himap. clear Himap.
  destruct (decide (location r = l)) as [Hl|Hl].
  - unfold column in *. rewrite fmap_cons, IH, getc_setc_eq, Nat.add_0_r.
    rewrite group_of_app, group_of_cons, decide_True, length_app by done.
    unfold rank_in_group, nth_cell.
    replace (take (length pre) t0) with pre by (by rewrite Ht0, take_app_length).
    rewrite Hl.
    assert (Hlt : (length (group_of l pre) < length (f (group_of l t0)))%nat).
    { rewrite Hlen, Ht0, group_of_app, group_of_cons, decide_True, length_app by done.
      simpl. lia. }
    destruct (lookup_lt_is_Some_2 _ _ Hlt) as [v Hv]. rewrite Hv. simpl.
    rewrite (drop_S _ _ _ Hv). simpl. f_equal. f_equal. f_equal. lia.
  - rewrite IH, group_of_app, group_of_cons, decide_False, length_app by done.
    simpl. by rewrite Nat.add_0_r.
Qed.

Lemma group_write_back c (f : table → list cell) t l :
  length (f (group_of l t)) = length (group_of l t) →
  column c (group_of l (set_col c (group_transform f t) t)) = f (group_of l t).
Proof.
  intros Hlen. unfold group_transform. rewrite set_col_imap.
  pose proof (group_write_back_aux c f t l [] t eq_refl Hlen) as Haux.
  simpl in Haux. rewrite Haux, <- Hlen. apply firstn_all.
Qed.

Lemma length_rolling agg w mp l : length (rolling agg w mp l) = length l.
Proof. unfold rolling. apply length_imap. Qed.

Lemma length_rolling_sum w mp l : length (rolling_sum w mp l) = length l.
Proof. apply length_rolling. Qed.

Lemma length_rolling_mean w mp l : length (rolling_mean w mp l) = length l.
Proof. apply length_rolling. Qed.

Lemma length_pct_change p l : length (pct_change p l) = length l.
Proof. unfold pct_change. apply length_imap. Qed.

Lemma length_column c t : length (column c t) = length t.
Proof. unfold column. apply length_fmap. Qed.

Lemma length_group_transform f t : length (group_transform f t) = length t.
Proof. unfold group_transform. apply length_imap. Qed.

Lemma set_col_lookup c vs t i :
  set_col c vs t !! i = v ← vs !! i; r ← t !! i; Some (setc c v r).
Proof. unfold set_col. apply lookup_zip_with. Qed.

Lemma set_col_lookup_Some c vs t i v r :
  vs !! i = Some v → t !! i = Some r → set_col c vs t !! i = Some (setc c v r).
Proof. intros Hv Hr. by rewrite set_col_lookup, Hv, Hr. Qed.

Lemma length_set_col c vs t : length vs = length t → length (set_col c vs t) = length t.
Proof. intros H. unfold set_col. rewrite length_zip_with. lia. Qed.

Lemma Forall2_set_col (R : row → row → Prop) c vs t :
  length vs = length t → (∀ v r, R r (setc c v r)) → Forall2 R t (set_col c vs t).
Proof.
  intros Hlen HR. unfold set_col. revert vs Hlen.
  induction t as [|r t IH]; intros [|v vs] Hlen; simplify_eq/=; constructor; auto.
Qed.

Lemma Forall2_loc_assign (R : row → row → Prop) mask c v t :
  (∀ r, R r r) → (∀ r, R r (setc c v r)) → Forall2 R t (loc_assign mask c v t).
Proof.
  intros Hrefl HR. unfold loc_assign.
  induction t as [|r t IH]; simpl; constructor; [|done].
  destruct (mask r); auto.
Qed.

Lemma Forall2_map_col (R : row → row → Prop) c f t :
  (∀ v r, R r (setc c v r)) → Forall2 R t (map_col c f t).
Proof.
  intros HR. unfold map_col.
  induction t as [|r t IH]; simpl; constructor; auto.
Qed.

Lemma same_keys_set_col c vs t : length vs = length t → same_keys t (set_col c vs t).
Proof. intros H. by apply Forall2_set_col. Qed.

Lemma same_keys_trans t1 t2 t3 : same_keys t1 t2 → same_keys t2 t3 → same_keys t1 t3.
Proof.
  unfold same_keys. intros H12 H23.
  eapply Forall2_trans; [|exact H12|exact H23].
  simpl. intros x y z [-> ->] [-> ->]. done.
Qed.

Lemma same_keys_length t t' : same_keys t t' → length t = length t'.
Proof. apply Forall2_length. Qed.

(** A group-wise series only depends on the keys of the frame and on
    what the function reads from each group. *)
Lemma group_transform_ext f f' t t' :
  same_keys t t' →
  (∀ l, f (group_of l t) = f' (group_of l t')) →
  group_transform f t = group_transform f' t'.
Proof.
  intros Hk Hf. apply list_eq. intros i.
  destruct (t !! i) as [r|] eqn:Hr.
  - destruct (Forall2_lookup_l _ _ _ _ _ Hk Hr) as (r' & Hr' & Hl & _).
    rewrite (group_transform_lookup _ _ _ _ Hr), (group_transform_lookup _ _ _ _ Hr').
    by rewrite <- Hl, Hf, (same_keys_rank t t' i _ Hk).
  - rewrite !(proj2 (lookup_ge_None _ _)); [done| |].
    + rewrite length_group_transform, <- (same_keys_length _ _ Hk). by apply lookup_ge_None.
    + rewrite length_group_transform. by apply lookup_ge_None.
Qed.

(* ================================================================== *)
(** ** Running store computations *)
(* ================================================================== *)

Lemma bind_run {A B} (m : M A) (k : A → M B) h :
  (m ≫= k) h = match m h with
               | Ok (a, h') => k a h'
               | Raise e => Raise e
               end.
Proof. done. Qed.

Lemma update_run df f (h : heap) t :
  h !! df = Some t → update df f h = Ok (tt, <[df := f t]> h).
Proof. intros H. unfold update. by rewrite H. Qed.

Lemma load_run df (h : heap) t : h !! df = Some t → load df h = Ok (t, h).
Proof. intros H. unfold load. by rewrite H. Qed.

Lemma alloc_fresh (h : heap) : h !! fresh (dom h) = None.
Proof. apply not_elem_of_dom, is_fresh. Qed.

Lemma for_each_update_run {A} df (g : A → table → table) (l : list A) (h : heap) t :
  h !! df = Some t →
  for_each l (λ x, update df (g x)) h = Ok (tt, <[df := foldl (λ t x, g x t) t l]> h).
Proof.
  revert h t. induction l as [|x l IH]; intros h t Hdf; simpl.
  - by rewrite insert_id.
  - rewrite bind_run, (update_run _ _ _ _ Hdf).
    rewrite (IH _ (g x t)) by apply lookup_insert_eq.
    by rewrite insert_insert_eq.
Qed.

(** [_inject_growth] writes into the frame it is given and returns it. *)
Lemma _inject_growth_run df prefix periods (h : heap) t :
  h !! df = Some t →
  _inject_growth df prefix periods h =
    Ok (df, <[df := inject_growth_table prefix periods t]> h).
Proof.
  intros Hdf. unfold _inject_growth, inject_growth_table.
  rewrite bind_run, (update_run _ _ _ _ Hdf).
  rewrite bind_run, (update_run _ _ _ _ (lookup_insert_eq _ _ _)), insert_insert_eq.
  rewrite bind_run, (update_run _ _ _ _ (lookup_insert_eq _ _ _)), insert_insert_eq.
  rewrite bind_run, (update_run _ _ _ _ (lookup_insert_eq _ _ _)), insert_insert_eq.
  done.
Qed.

(* ================================================================== *)
(** ** Weekly and biweekly growth *)
(* ================================================================== *)

Lemma loc_assign_lookup mask c v t i :
  loc_assign mask c v t !! i = (λ r, if mask r then setc c v r else r) <$> t !! i.
Proof. unfold loc_assign. apply list_lookup_fmap. Qed.

Lemma map_col_lookup c f t i :
  map_col c f t !! i = (λ r, setc c (f r) r) <$> t !! i.
Proof. unfold map_col. apply list_lookup_fmap. Qed.

(** The columns that [_inject_growth] reads and writes are six different
    columns, for both prefixes. *)
Lemma growth_cols_distinct prefix periods :
  (prefix, periods) ∈ growth_periods →
  NoDup [ cases_colname prefix; deaths_colname prefix;
          cases_growth_colname prefix; deaths_growth_colname prefix;
          "new_cases"; "new_deaths" ].
Proof.
  unfold growth_periods. rewrite !elem_of_cons, elem_of_nil.
  intros [[= -> ->]|[[= -> ->]|[]]]; apply (bool_decide_unpack _); vm_compute; exact I.
Qed.


Create HintDb cols discriminated.

Section growth.
Context (prefix : string) (periods : nat).
Context (Hdistinct : NoDup [ cases_colname prefix; deaths_colname prefix;
                              cases_growth_colname prefix; deaths_growth_colname prefix;
                              "new_cases"; "new_deaths" ]).

Local Ltac cols_ne :=
  let H := fresh in
  let Hd := fresh in
  intros H; pose proof Hdistinct as Hd; rewrite H in Hd;
  rewrite !NoDup_cons, !not_elem_of_cons in Hd; tauto.

Local Lemma ne_c_d : cases_colname prefix ≠ deaths_colname prefix. Proof. cols_ne. Qed.
Local Lemma ne_c_nc : cases_colname prefix ≠ "new_cases". Proof. cols_ne. Qed.
Local Lemma ne_c_nd : cases_colname prefix ≠ "new_deaths". Proof. cols_ne. Qed.
Local Lemma ne_d_nc : deaths_colname prefix ≠ "new_cases". Proof. cols_ne. Qed.
Local Lemma ne_d_nd : deaths_colname prefix ≠ "new_deaths". Proof. cols_ne. Qed.
Local Lemma ne_cg_c : cases_growth_colname prefix ≠ cases_colname prefix. Proof. cols_ne. Qed.
Local Lemma ne_cg_d : cases_growth_colname prefix ≠ deaths_colname prefix. Proof. cols_ne. Qed.
Local Lemma ne_cg_dg : cases_growth_colname prefix ≠ deaths_growth_colname prefix.
Proof. cols_ne. Qed.
Local Lemma ne_cg_nc : cases_growth_colname prefix ≠ "new_cases". Proof. cols_ne. Qed.
Local Lemma ne_cg_nd : cases_growth_colname prefix ≠ "new_deaths". Proof. cols_ne. Qed.
Local Lemma ne_dg_c : deaths_growth_colname prefix ≠ cases_colname prefix. Proof. cols_ne. Qed.
Local Lemma ne_dg_d : deaths_growth_colname prefix ≠ deaths_colname prefix. Proof. cols_ne. Qed.
Local Lemma ne_dg_nc : deaths_growth_colname prefix ≠ "new_cases". Proof. cols_ne. Qed.
Local Lemma ne_dg_nd : deaths_growth_colname prefix ≠ "new_deaths". Proof. cols_ne. Qed.

Local Hint Resolve ne_c_d ne_c_nc ne_c_nd ne_d_nc ne_d_nd ne_cg_c ne_cg_d ne_cg_dg
  ne_cg_nc ne_cg_nd ne_dg_c ne_dg_d ne_dg_nc ne_dg_nd : cols.
Local Hint Extern 3 (_ ≠ _) => (apply not_eq_sym; solve [auto with cols nocore]) : cols.

(** The first assignment keeps the keys of the frame. *)
Lemma growth_rolling_sums_keys df :
  same_keys df (growth_rolling_sums prefix periods df).
Proof.
  unfold growth_rolling_sums.
  eapply same_keys_trans; apply same_keys_set_col.
  - by rewrite length_group_transform.
  - rewrite length_group_transform, length_set_col; [done|].
    by rewrite length_group_transform.
Qed.

(** After the first assignment the two new columns hold, on every
    location, the rolling sums of that location. *)
Lemma growth_rolling_sums_cases df l :
  column (cases_colname prefix) (group_of l (growth_rolling_sums prefix periods df)) =
  location_sums periods "new_cases" l df.
Proof.
  unfold growth_rolling_sums.
  rewrite <- (group_column_ext (cases_colname prefix) (cases_colname prefix) l
    (set_col (cases_colname prefix)
       (group_transform (λ g, rolling_sum periods (periods - 1) (column "new_cases" g)) df) df)).
  - rewrite group_write_back; [done|]. by rewrite length_rolling_sum, length_column.
  - apply Forall2_set_col.
    + rewrite length_group_transform, length_set_col; [done|].
      by rewrite length_group_transform.
    + intros v r. split; [done|]. rewrite getc_setc_ne; [done|]. apply not_eq_sym, ne_c_d.
Qed.

Lemma growth_rolling_sums_deaths df l :
  column (deaths_colname prefix) (group_of l (growth_rolling_sums prefix periods df)) =
  location_sums periods "new_deaths" l df.
Proof.
  unfold growth_rolling_sums.
  set (df1 := set_col (cases_colname prefix) _ df).
  assert (Hk : same_keys df df1).
  { apply same_keys_set_col. by rewrite length_group_transform. }
  assert (Hcol : ∀ l, column "new_deaths" (group_of l df) = column "new_deaths" (group_of l df1)).
  { intros l'. apply group_column_ext, Forall2_set_col.
    - by rewrite length_group_transform.
    - intros v r. split; [done|]. rewrite getc_setc_ne; [done|]. apply ne_c_nd. }
  rewrite (group_transform_ext
             (λ g, rolling_sum periods (periods - 1) (column "new_deaths" g))
             (λ g, rolling_sum periods (periods - 1) (column "new_deaths" g)) df df1 Hk).
  - rewrite group_write_back.
    + unfold location_sums. by rewrite Hcol.
    + by rewrite length_rolling_sum, length_column.
  - intros l'. by rewrite Hcol.
Qed.

(** The row that [_inject_growth] leaves at a position of the frame. *)
Lemma inject_growth_table_lookup df i r :
  df !! i = Some r →
  ∃ r', inject_growth_table prefix periods df !! i = Some r' ∧
    location r' = location r ∧ date r' = date r ∧
    getc "new_cases" r' = getc "new_cases" r ∧
    getc "new_deaths" r' = getc "new_deaths" r ∧
    getc (cases_growth_colname prefix) r' =
      growth_of_pct (nth_cell (pct_change periods
                                 (location_sums periods "new_cases" (location r) df))
                              (rank_in_group df i (location r))) ∧
    getc (deaths_growth_colname prefix) r' =
      growth_of_pct (nth_cell (pct_change periods
                                 (location_sums periods "new_deaths" (location r) df))
                              (rank_in_group df i (location r))) ∧
    getc (cases_colname prefix) r' =
      (if isnull (getc "new_cases" r) then NaN
       else nth_cell (location_sums periods "new_cases" (location r) df)
                     (rank_in_group df i (location r))) ∧
    getc (deaths_colname prefix) r' =
      (if isnull (getc "new_deaths" r) then NaN
       else nth_cell (location_sums periods "new_deaths" (location r) df)
                     (rank_in_group df i (location r))).
Proof.
  intros Hr.
  set (k := rank_in_group df i (location r)).
  set (t1 := growth_rolling_sums prefix periods df).
  pose proof (growth_rolling_sums_keys df) as Hk1. fold t1 in Hk1.
  (* the row after the first assignment *)
  assert (∃ r1, t1 !! i = Some r1 ∧ location r1 = location r ∧ date r1 = date r ∧
            getc "new_cases" r1 = getc "new_cases" r ∧
            getc "new_deaths" r1 = getc "new_deaths" r ∧
            getc (cases_colname prefix) r1 =
              nth_cell (location_sums periods "new_cases" (location r) df) k ∧
            getc (deaths_colname prefix) r1 =
              nth_cell (location_sums periods "new_deaths" (location r) df) k)
    as (r1 & Hr1 & Hl1 & Hd1 & Hnc1 & Hnd1 & Hc1 & Hdd1).
  { eexists. split.
    - unfold t1, growth_rolling_sums.
      apply set_col_lookup_Some; [by apply group_transform_lookup|].
      apply set_col_lookup_Some; [by apply group_transform_lookup|exact Hr].
    - repeat split.
      + rewrite !getc_setc_ne; [done|apply ne_c_nc|apply ne_d_nc].
      + rewrite !getc_setc_ne; [done|apply ne_c_nd|apply ne_d_nd].
      + rewrite getc_setc_ne by apply not_eq_sym, ne_c_d. by rewrite getc_setc_eq.
      + by rewrite getc_setc_eq. }
  (* the row after the second assignment *)
  set (t2 := growth_pct prefix periods t1).
  assert (Hrank : rank_in_group t1 i (location r1) = k).
  { rewrite Hl1. symmetry. by apply same_keys_rank. }
  assert (∃ r2, t2 !! i = Some r2 ∧ location r2 = location r ∧ date r2 = date r ∧
            (∀ c, c ≠ cases_growth_colname prefix → c ≠ deaths_growth_colname prefix →
                  getc c r2 = getc c r1) ∧
            getc (cases_growth_colname prefix) r2 =
              growth_of_pct (nth_cell (pct_change periods
                (location_sums periods "new_cases" (location r) df)) k) ∧
            getc (deaths_growth_colname prefix) r2 =
              growth_of_pct (nth_cell (pct_change periods
                (location_sums periods "new_deaths" (location r) df)) k))
    as (r2 & Hr2 & Hl2 & Hd2 & Hframe2 & Hcg2 & Hdg2).
  { eexists. split.
    - unfold t2, growth_pct.
      apply set_col_lookup_Some.
      { rewrite list_lookup_fmap, (group_transform_lookup _ _ _ _ Hr1). done. }
      apply set_col_lookup_Some; [|exact Hr1].
      rewrite list_lookup_fmap, (group_transform_lookup _ _ _ _ Hr1). done.
    - simpl. repeat split; try done.
      + intros c Hc1' Hc2'. by rewrite !getc_setc_ne.
      + rewrite getc_setc_ne by apply not_eq_sym, ne_cg_dg. rewrite getc_setc_eq.
        rewrite Hrank. unfold t1. by rewrite growth_rolling_sums_cases, Hl1.
      + rewrite getc_setc_eq.
        rewrite Hrank. unfold t1. by rewrite growth_rolling_sums_deaths, Hl1. }
  (* the two masked assignments *)
  unfold inject_growth_table. fold t1. fold t2.
  unfold growth_null_deaths, growth_null_cases.
  rewrite !loc_assign_lookup, Hr2. simpl.
  eexists. split; [done|].
  assert (Hnc2 : getc "new_cases" r2 = getc "new_cases" r).
  { rewrite Hframe2; [done|apply not_eq_sym, ne_cg_nc|apply not_eq_sym, ne_dg_nc]. }
  assert (Hnd2 : getc "new_deaths" r2 = getc "new_deaths" r).
  { rewrite Hframe2; [done|apply not_eq_sym, ne_cg_nd|apply not_eq_sym, ne_dg_nd]. }
  assert (Hc2 : getc (cases_colname prefix) r2 =
                nth_cell (location_sums periods "new_cases" (location r) df) k).
  { rewrite Hframe2; [done|apply not_eq_sym, ne_cg_c|apply not_eq_sym, ne_dg_c]. }
  assert (Hdd2 : getc (deaths_colname prefix) r2 =
                nth_cell (location_sums periods "new_deaths" (location r) df) k).
  { rewrite Hframe2; [done|apply not_eq_sym, ne_cg_d|apply not_eq_sym, ne_dg_d]. }
  rewrite Hnc2.
  destruct (isnull (getc "new_cases" r)) eqn:Enc; simpl;
    rewrite ?(getc_setc_ne _ "new_deaths") by auto with cols; rewrite Hnd2;
    destruct (isnull (getc "new_deaths" r)) eqn:End; simpl;
    repeat split;
    repeat first [ rewrite getc_setc_eq | rewrite getc_setc_ne by auto with cols ];
    done.
Qed.
End growth.

Lemma pct_change_nth p l k :
  (k < length l)%nat →
  nth_cell (pct_change p l) k =
    if decide (p ≤ k)%nat
    then csub (cdiv (nth_cell l k) (nth_cell l (k - p))) (Num 1)
    else NaN.
Proof.
  intros Hk. destruct (lookup_lt_is_Some_2 _ _ Hk) as [x Hx].
  unfold nth_cell at 1. unfold pct_change. rewrite list_lookup_imap, Hx. simpl.
  unfold nth_cell at 2. by rewrite Hx.
Qed.




(** C4.  For both calls of [_inject_growth] and every row of the frame:
    when [new_cases] (resp. [new_deaths]) is missing on the row, the
    rolling-sum column [<prefix>_cases] (resp. [<prefix>_deaths]) is
    missing on that row, whatever the window holds; otherwise it is the
    rolling sum of the location at that row. *)
Theorem rolling_sum_null_where_daily_value_null
    prefix periods df (h : heap) (t : table) i r :
  (prefix, periods) ∈ growth_periods →
  h !! df = Some t →
  t !! i = Some r →
  ∃ h' t' r',
    _inject_growth df prefix periods h = Ok (df, h') ∧
    h' !! df = Some t' ∧ t' !! i = Some r' ∧
    date r' = date r ∧ location r' = location r ∧
    getc "new_cases" r' = getc "new_cases" r ∧
    getc "new_deaths" r' = getc "new_deaths" r ∧
    (isnull (getc "new_cases" r) = true → getc (cases_colname prefix) r' = NaN) ∧
    (isnull (getc "new_deaths" r) = true → getc (deaths_colname prefix) r' = NaN) ∧
    (isnull (getc "new_cases" r) = false →
       getc (cases_colname prefix) r' =
         nth_cell (location_sums periods "new_cases" (location r) t)
                  (rank_in_group t i (location r))) ∧
    (isnull (getc "new_deaths" r) = false →
       getc (deaths_colname prefix) r' =
         nth_cell (location_sums periods "new_deaths" (location r) t)
                  (rank_in_group t i (location r))).
Proof.
  intros Hp Hdf Hr.
  destruct (inject_growth_table_lookup prefix periods (growth_cols_distinct _ _ Hp) t i r Hr)
    as (r' & Hr' & Hl & Hd & Hnc & Hnd & _ & _ & Hc & Hdc).
  exists (<[df := inject_growth_table prefix periods t]> h),
         (inject_growth_table prefix periods t), r'.
  split; [by apply _inject_growth_run|].
  split; [apply lookup_insert_eq|].
  repeat split; try done.
  - intros Hnull. by rewrite Hc, Hnull.
  - intros Hnull. by rewrite Hdc, Hnull.
  - intros Hnull. by rewrite Hc, Hnull.
  - intros Hnull. by rewrite Hdc, Hnull.
Qed.

Lemma rolling_sum_null_where_daily_value_null_witness :
  nth_cell (location_sums 7 "new_cases" "A" gap_sample) 6 = Num 6 ∧
  ∃ h' t' r',
    _inject_growth 1%positive "weekly" 7 {[ 1%positive := gap_sample ]} = Ok (1%positive, h') ∧
    h' !! 1%positive = Some t' ∧ t' !! 6%nat = Some r' ∧
    getc "new_cases" r' = NaN ∧ getc "weekly_cases" r' = NaN.
Proof.
  split; [vm_compute; reflexivity|].
  destruct (rolling_sum_null_where_daily_value_null "weekly" 7 1%positive
              {[ 1%positive := gap_sample ]} gap_sample 6
              (raw_row 18306 "A" NaN (Num 0) (Num 0) (Num 0)))
    as (h' & t' & r' & Hrun & Hh & Ht & _ & _ & Hnc & _ & Hc & _).
  - unfold growth_periods. apply list_elem_of_here.
  - reflexivity.
  - reflexivity.
  - exists h', t', r'. repeat split; [exact Hrun|exact Hh|exact Ht|exact Hnc|].
    apply Hc. reflexivity.
Defined.

(* ================================================================== *)
(** ** Doubling days *)
(* ================================================================== *)

Lemma null_if_zero_idemp c : null_if_zero (null_if_zero c) = null_if_zero c.
Proof. unfold null_if_zero. destruct (ceq c 0) eqn:E; [done|]. by rewrite E. Qed.

Lemma null_if_zero_nonzero c : ceq (null_if_zero c) 0 = false.
Proof. unfold null_if_zero. by destruct (ceq c 0) eqn:E. Qed.

Lemma null_zeros_lookup vc t i r :
  t !! i = Some r →
  ∃ r', null_zeros vc t !! i = Some r' ∧
    location r' = location r ∧ date r' = date r ∧
    getc vc r' = null_if_zero (getc vc r) ∧
    ∀ c, c ≠ vc → getc c r' = getc c r.
Proof.
  intros Hr. unfold null_zeros. rewrite loc_assign_lookup, Hr. simpl.
  eexists. split; [done|]. unfold null_if_zero.
  destruct (ceq (getc vc r) 0); repeat split; try done.
  - by rewrite getc_setc_eq.
  - intros c Hc. by rewrite getc_setc_ne.
Qed.

Lemma null_zeros_keys vc t : same_keys t (null_zeros vc t).
Proof. unfold null_zeros. by apply Forall2_loc_assign. Qed.

Lemma null_zeros_column vc t l :
  column vc (group_of l (null_zeros vc t)) = null_if_zero <$> column vc (group_of l t).
Proof.
  unfold null_zeros, loc_assign, column, null_if_zero.
  induction t as [|r t IH]; [done|].
  rewrite fmap_cons, !group_of_cons.
  assert (Hl : location (if ceq (getc vc r) 0 then setc vc NaN r else r) = location r)
    by (by destruct (ceq _ _)).
  rewrite Hl. destruct (decide (location r = l)); [|done].
  rewrite !fmap_cons, IH. f_equal.
  destruct (ceq (getc vc r) 0); [|done]. by rewrite getc_setc_eq.
Qed.

Lemma null_zeros_column_ne vc c t l :
  c ≠ vc → column c (group_of l (null_zeros vc t)) = column c (group_of l t).
Proof.
  intros Hne. symmetry. apply group_column_ext, Forall2_loc_assign; [done|].
  intros r. split; [done|]. by rewrite getc_setc_ne.
Qed.

Lemma doubling_days_table_fold E t :
  doubling_days_table E t = foldl (doubling_step E) t doubling_days_spec.
Proof. done. Qed.

Lemma doubling_step_keys E t s : same_keys t (doubling_step E t s).
Proof.
  unfold doubling_step, doubling_col.
  eapply same_keys_trans; [apply null_zeros_keys|].
  apply same_keys_set_col.
  rewrite length_fmap. unfold period_pct_change. by rewrite length_group_transform.
Qed.

Lemma doubling_step_lookup E t s i r :
  s.1 ≠ s.2.1 →
  t !! i = Some r →
  ∃ r', doubling_step E t s !! i = Some r' ∧
    location r' = location r ∧ date r' = date r ∧
    getc s.2.1 r' = null_if_zero (getc s.2.1 r) ∧
    getc s.1 r' =
      pct_change_to_doubling_days E (period_pct s.2.1 s.2.2 t i (location r)) s.2.2 ∧
    ∀ c, c ≠ s.1 → c ≠ s.2.1 → getc c r' = getc c r.
Proof.
  destruct s as [col [vc p]]. simpl. intros Hne Hr.
  destruct (null_zeros_lookup vc t i r Hr) as (r1 & Hr1 & Hl1 & Hd1 & Hv1 & Hf1).
  unfold doubling_step, doubling_col, period_pct_change. simpl.
  eexists. split.
  { apply set_col_lookup_Some; [|exact Hr1].
    rewrite list_lookup_fmap, (group_transform_lookup _ _ _ _ Hr1). done. }
  simpl. repeat split; try done.
  - by rewrite getc_setc_ne.
  - rewrite getc_setc_eq. unfold period_pct.
    by rewrite Hl1, null_zeros_column, <- (same_keys_rank _ _ _ _ (null_zeros_keys vc t)).
  - intros c Hc1 Hc2. rewrite getc_setc_ne by done. by apply Hf1.
Qed.

Lemma doubling_step_column E t s l c :
  s.1 ≠ s.2.1 → c ≠ s.1 →
  null_if_zero <$> column c (group_of l (doubling_step E t s)) =
  null_if_zero <$> column c (group_of l t).
Proof.
  destruct s as [col [vc p]]. simpl. intros Hne Hc.
  unfold doubling_step, doubling_col. simpl.
  rewrite <- (group_column_ext c c l (null_zeros vc t)).
  - destruct (decide (c = vc)) as [->|Hcv].
    + rewrite null_zeros_column, <- list_fmap_compose.
      apply list_fmap_ext. intros _ x _. simpl. apply null_if_zero_idemp.
    + by rewrite null_zeros_column_ne.
  - apply Forall2_set_col.
    + rewrite length_fmap. unfold period_pct_change. by rewrite length_group_transform.
    + intros v r. split; [done|]. by rewrite getc_setc_ne.
Qed.

(** The row that the loop leaves at a position of the frame. *)
Lemma doubling_fold_lookup E specs t i r :
  NoDup (fst <$> specs) →
  (∀ s s', s ∈ specs → s' ∈ specs → s.1 ≠ s'.2.1) →
  t !! i = Some r →
  ∃ r', foldl (doubling_step E) t specs !! i = Some r' ∧
    location r' = location r ∧ date r' = date r ∧
    (∀ s, s ∈ specs →
       getc s.2.1 r' = null_if_zero (getc s.2.1 r) ∧
       getc s.1 r' =
         pct_change_to_doubling_days E (period_pct s.2.1 s.2.2 t i (location r)) s.2.2) ∧
    (∀ c, c ∉ (fst <$> specs) → c ∉ ((λ s, s.2.1) <$> specs) → getc c r' = getc c r).
Proof.
  revert t r. induction specs as [|s specs IH]; intros t r Hnd Hdisj Hr; simpl.
  { exists r. split; [done|]. split; [done|]. split; [done|]. split; [|done].
    intros s0 Hs0. by apply elem_of_nil in Hs0. }
  rewrite fmap_cons in Hnd. apply NoDup_cons in Hnd as [Hs_new Hnd].
  assert (Hs_ne : s.1 ≠ s.2.1) by (apply Hdisj; left).
  destruct (doubling_step_lookup E t s i r Hs_ne Hr)
    as (r1 & Hr1 & Hl1 & Hd1 & Hv1 & Hc1 & Hf1).
  destruct (IH (doubling_step E t s) r1 Hnd) as (r' & Hr' & Hl' & Hd' & Hspec' & Hf').
  { intros s1 s2 H1 H2. apply Hdisj; by right. }
  { exact Hr1. }
  exists r'. split; [exact Hr'|]. split; [congruence|]. split; [congruence|]. split.
  - intros s0 Hs0. apply elem_of_cons in Hs0 as [->|Hs0].
    + (* the column written by this turn is not touched afterwards *)
      split.
      * destruct (decide (s.2.1 ∈ (λ s, s.2.1) <$> specs)) as [Hin|Hnin].
        -- apply list_elem_of_fmap in Hin as (s1 & Heq & Hs1).
           destruct (Hspec' s1 Hs1) as [Hv _]. rewrite <- Heq in Hv.
           by rewrite Hv, Hv1, null_if_zero_idemp.
        -- rewrite Hf'; [done| |done].
           intros Hin. apply list_elem_of_fmap in Hin as (s1 & Heq & Hs1).
           apply (Hdisj s1 s); [by right|by left|done].
      * rewrite Hf'; [done|done|].
        intros Hin. apply list_elem_of_fmap in Hin as (s1 & Heq & Hs1).
        apply (Hdisj s s1); [by left|by right|done].
    + destruct (Hspec' s0 Hs0) as [Hv Hc]. split.
      * rewrite Hv. destruct (decide (s0.2.1 = s.2.1)) as [Heq|Hne].
        -- by rewrite Heq, Hv1, null_if_zero_idemp.
        -- rewrite Hf1; [done| |done].
           intros Heq. apply (Hdisj s s0); [by left|by right|done].
      * rewrite Hc. unfold period_pct. rewrite Hl1.
        rewrite doubling_step_column; [|done|].
        -- by rewrite <- (same_keys_rank _ _ _ _ (doubling_step_keys E t s)).
        -- intros Heq. apply (Hdisj s s0); [by left|by right|done].
  - intros c Hc1' Hc2'.
    apply not_elem_of_cons in Hc1' as [? ?], Hc2' as [? ?].
    rewrite Hf' by done. by apply Hf1.
Qed.

Lemma for_each_run {A} df (body : A → M unit) (g : A → table → table)
    (l : list A) (h : heap) t :
  (∀ x (h : heap) t, h !! df = Some t → body x h = Ok (tt, <[df := g x t]> h)) →
  h !! df = Some t →
  for_each l body h = Ok (tt, <[df := foldl (λ t x, g x t) t l]> h).
Proof.
  intros Hbody. revert h t. induction l as [|x l IH]; intros h t Hdf; simpl.
  - by rewrite insert_id.
  - rewrite bind_run, (Hbody _ _ _ Hdf).
    rewrite (IH _ (g x t)) by apply lookup_insert_eq.
    by rewrite insert_insert_eq.
Qed.

(** [inject_doubling_days] writes into the frame it is given and returns it. *)
Lemma inject_doubling_days_run E df (h : heap) t :
  h !! df = Some t →
  inject_doubling_days E df h = Ok (df, <[df := doubling_days_table E t]> h).
Proof.
  intros Hdf. unfold inject_doubling_days.
  rewrite bind_run.
  rewrite (for_each_run df _ (λ s t, doubling_step E t s) doubling_days_spec h t); [done| |done].
  intros [col [vc p]] h0 t0 Hdf0. simpl.
  rewrite bind_run, (update_run _ _ _ _ Hdf0).
  rewrite (update_run _ _ _ _ (lookup_insert_eq _ _ _)), insert_insert_eq. done.
Qed.

Lemma doubling_days_spec_distinct :
  NoDup (fst <$> doubling_days_spec) ∧
  ∀ s s', s ∈ doubling_days_spec → s' ∈ doubling_days_spec → s.1 ≠ s'.2.1.
Proof.
  split; [apply (bool_decide_unpack _); vm_compute; exact I|].
  intros s s' Hs Hs'. unfold doubling_days_spec in *.
  repeat (apply elem_of_cons in Hs as [->|Hs]); try (by apply elem_of_nil in Hs);
    repeat (apply elem_of_cons in Hs' as [->|Hs']); try (by apply elem_of_nil in Hs');
    simpl; discriminate.
Qed.

(** The row that [inject_doubling_days] leaves at a position of the frame. *)
Lemma doubling_days_table_lookup E t i r :
  t !! i = Some r →
  ∃ r', doubling_days_table E t !! i = Some r' ∧
    location r' = location r ∧ date r' = date r ∧
    (∀ s, s ∈ doubling_days_spec →
       getc s.2.1 r' = null_if_zero (getc s.2.1 r) ∧
       getc s.1 r' =
         pct_change_to_doubling_days E (period_pct s.2.1 s.2.2 t i (location r)) s.2.2) ∧
    (∀ c, c ∉ (fst <$> doubling_days_spec) →
          c ∉ ((λ s, s.2.1) <$> doubling_days_spec) → getc c r' = getc c r).
Proof.
  rewrite doubling_days_table_fold.
  destruct doubling_days_spec_distinct as [Hnd Hdisj].
  by apply doubling_fold_lookup.
Qed.





(** A change of one hundred percent over three records doubles in three. *)
Example doubling_days_of_a_doubling :
  (λ t, nth_cell (column "doubling_days_total_cases_3_day_period" t) 4)
    <$> run_table (inject_doubling_days sample_collaborators 1%positive)
          {[ 1%positive := doubling_sample ]}
  = Ok (Num 3).
Proof. vm_compute. reflexivity. Qed.

(** Below a change of minus one hundred percent the formula itself is
    [NaN], the value of [np.log] at a negative number. *)
Example doubling_formula_below_minus_one E :
  pct_change_to_doubling_days E (Num (-6)) 3 = NaN.
Proof. reflexivity. Qed.

(* ================================================================== *)
(** ** Days since a threshold *)
(* ================================================================== *)

Lemma filter_none {A} (P : A → Prop) `{!∀ x, Decision (P x)} (l : list A) :
  (∀ y, y ∈ l → ¬ P y) → filter P l = [].
Proof.
  induction l as [|x l IH]; intros Hl; [done|].
  rewrite filter_cons_False by (apply Hl; left).
  apply IH. intros y Hy. apply Hl. by right.
Qed.







(** A location that never reaches the threshold has the missing value on
    every row, a location that does counts from its first crossing. *)
Example days_since_sample_column :
  column "days_since_100_total_cases"
    (days_since_col "days_since_100_total_cases"
       (ThresholdSpec "total_cases" 100 false) threshold_sample)
  = [Num (-1); NA; Num 0; NA; Num 1].
Proof. vm_compute. reflexivity. Qed.

(** With [positive_only] the days before the crossing are missing. *)
Example days_since_positive_only :
  column "d" (days_since_col "d" (ThresholdSpec "total_cases" 100 true) threshold_sample)
  = [NA; NA; Num 0; NA; Num 1].
Proof. vm_compute. reflexivity. Qed.

(* ================================================================== *)
(** ** Stages of the pipeline as store computations *)
(* ================================================================== *)

Lemma stage_ret : stage (λ df, mret df) (λ t, Ok t).
Proof. intros h df t Hdf. exists df, h. repeat split; done. Qed.

Lemma stage_unit (u : ref → M unit) (g : table → table) K f :
  (∀ df (h : heap) t, h !! df = Some t → u df h = Ok (tt, <[df := g t]> h)) →
  stage K f →
  stage (λ df, u df;; K df) (λ t, f (g t)).
Proof.
  intros Hu HK h df t Hdf.
  specialize (HK (<[df := g t]> h) df (g t) (lookup_insert_eq _ _ _)).
  rewrite bind_run, (Hu _ _ _ Hdf).
  destruct (f (g t)) as [t'|e]; [|done].
  destruct HK as (df' & h' & Hrun & Hres & Hframe).
  exists df', h'. split; [done|]. split; [done|].
  intros r Hr Hne. destruct (Hframe r) as [Heq Hne']; [|done|].
  - by rewrite lookup_insert_ne.
  - split; [|done]. by rewrite Heq, lookup_insert_ne.
Qed.

Lemma stage_update g K f :
  stage K f → stage (λ df, update df g;; K df) (λ t, f (g t)).
Proof. apply (stage_unit (λ df, update df g)). intros. by apply update_run. Qed.

Lemma stage_load_alloc (g : table → table) K f :
  stage K f →
  stage (λ df, t ← load df; df' ← alloc (g t); K df') (λ t, f (g t)).
Proof.
  intros HK h df t Hdf.
  rewrite bind_run, (load_run _ _ _ Hdf), bind_run. unfold alloc at 1.
  set (new := fresh (dom h)).
  assert (Hnew : h !! new = None) by apply alloc_fresh.
  specialize (HK (<[new := g t]> h) new (g t) (lookup_insert_eq _ _ _)).
  destruct (f (g t)) as [t'|e]; [|done].
  destruct HK as (df' & h' & Hrun & Hres & Hframe).
  exists df', h'. split; [done|]. split; [done|].
  intros r Hr Hne.
  assert (Hrn : r ≠ new) by (intros ->; rewrite Hnew in Hr; by destruct Hr).
  destruct (Hframe r) as [Heq Hne']; [|done|].
  - by rewrite lookup_insert_ne.
  - split; [|done]. by rewrite Heq, lookup_insert_ne.
Qed.

Lemma stage_copy (g : table → table) :
  stage (λ df, t ← load df; alloc (g t)) (λ t, Ok (g t)).
Proof.
  intros h df t Hdf. simpl.
  rewrite bind_run, (load_run _ _ _ Hdf). unfold alloc.
  set (new := fresh (dom h)).
  assert (Hnew : h !! new = None) by apply alloc_fresh.
  exists new, (<[new := g t]> h). split; [done|].
  split; [apply lookup_insert_eq|].
  intros r Hr Hne.
  assert (Hrn : r ≠ new) by (intros ->; rewrite Hnew in Hr; by destruct Hr).
  split; [|done]. by rewrite lookup_insert_ne.
Qed.

Lemma stage_bind m1 f1 m2 f2 :
  stage m1 f1 → stage m2 f2 →
  stage (λ df, m1 df ≫= m2) (λ t, f1 t ≫= f2).
Proof.
  intros H1 H2 h df t Hdf. specialize (H1 h df t Hdf).
  rewrite bind_run.
  destruct (f1 t) as [t1|e]; simpl; [|by rewrite H1].
  destruct H1 as (df1 & h1 & Hrun1 & Hres1 & Hframe1). rewrite Hrun1.
  specialize (H2 h1 df1 t1 Hres1).
  destruct (f2 t1) as [t2|e]; [|done].
  destruct H2 as (df2 & h2 & Hrun2 & Hres2 & Hframe2).
  exists df2, h2. split; [done|]. split; [done|].
  intros r Hr Hne. destruct (Hframe1 r Hr Hne) as [Heq1 Hne1].
  destruct (Hframe2 r) as [Heq2 Hne2]; [by rewrite Heq1|done|].
  split; [congruence|done].
Qed.

Lemma stage_ext m m' f f' :
  (∀ df h, m df h = m' df h) → (∀ t, f t = f' t) → stage m f → stage m' f'.
Proof.
  intros Hm Hf Hs h df t Hdf. specialize (Hs h df t Hdf).
  rewrite <- Hf. destruct (f t); [|by rewrite <- Hm].
  destruct Hs as (df' & h' & Hrun & Hrest). exists df', h'. by rewrite <- Hm.
Qed.

Lemma stage__inject_growth prefix periods :
  stage (λ df, _inject_growth df prefix periods)
        (λ t, Ok (inject_growth_table prefix periods t)).
Proof.
  unfold _inject_growth, inject_growth_table.
  apply (stage_update _ _ (λ t, Ok (growth_null_deaths prefix
           (growth_null_cases prefix (growth_pct prefix periods t))))).
  apply (stage_update _ _ (λ t, Ok (growth_null_deaths prefix (growth_null_cases prefix t)))).
  apply (stage_update _ _ (λ t, Ok (growth_null_deaths prefix t))).
  apply (stage_update _ _ (λ t, Ok t)).
  apply stage_ret.
Qed.

Lemma stage_inject_doubling_days E :
  stage (inject_doubling_days E) (λ t, Ok (doubling_days_table E t)).
Proof.
  intros h df t Hdf. simpl.
  exists df, (<[df := doubling_days_table E t]> h).
  split; [by apply inject_doubling_days_run|].
  split; [apply lookup_insert_eq|].
  intros r Hr Hne. split; [|done]. by rewrite lookup_insert_ne.
Qed.

Lemma stage_inject_owid_aggregates E :
  stage (inject_owid_aggregates E) (λ t, Ok (owid_aggregates_table E t)).
Proof. apply stage_copy. Qed.

Lemma stage_drop_population :
  stage drop_population (λ t, Ok (drop_cols ["population_year"; "population"] t)).
Proof. apply stage_copy. Qed.

Lemma stage_inject_per_million E measures :
  stage (λ df, inject_per_million E df measures)
        (λ t, Ok (per_million_table E measures t)).
Proof.
  unfold inject_per_million, inject_population, per_million_table.
  eapply stage_ext; [| |apply (stage_load_alloc (merge_population E)
    (λ df, for_each measures (λ measure, update df (per_million_col measure));;
           drop_population df)
    (λ t, Ok (drop_cols ["population_year"; "population"]
                (foldl (λ t measure, per_million_col measure t) t measures))))].
  - intros df h. rewrite !bind_run. destruct (load df h) as [[t h']|e]; [|done].
    by rewrite !bind_run.
  - done.
  - apply (stage_unit
             (λ df, for_each measures (λ measure, update df (per_million_col measure)))
             (λ t, foldl (λ t measure, per_million_col measure t) t measures)
             drop_population
             (λ t, Ok (drop_cols ["population_year"; "population"] t))).
    + intros df h t Hdf. by apply for_each_update_run.
    + apply stage_drop_population.
Qed.

Lemma stage_inject_rolling_avg :
  stage inject_rolling_avg (λ t, Ok (rolling_avg_table t)).
Proof.
  unfold inject_rolling_avg, rolling_avg_table.
  apply (stage_load_alloc (merge_sort date_le)
    (λ df, for_each rolling_avg_spec (λ '(col, (src, w, mp)),
             update df (rolling_avg_col col src w mp));; mret df)
    (λ t, Ok (foldl (λ t '(col, (src, w, mp)), rolling_avg_col col src w mp t)
                t rolling_avg_spec))).
  apply (stage_unit
           (λ df, for_each rolling_avg_spec (λ '(col, (src, w, mp)),
                    update df (rolling_avg_col col src w mp)))
           (λ t, foldl (λ t '(col, (src, w, mp)), rolling_avg_col col src w mp t)
                   t rolling_avg_spec)
           (λ df, mret df) (λ t, Ok t)); [|apply stage_ret].
  intros df h t Hdf.
  etrans; [apply (for_each_run df _ (λ '(col, (src, w, mp)), rolling_avg_col col src w mp)
                    rolling_avg_spec h t); [|done]|reflexivity].
  intros [col [[src w] mp]] h0 t0 Hdf0. by apply update_run.
Qed.

Lemma stage_inject_cfr : stage inject_cfr (λ t, Ok (cfr_table t)).
Proof. unfold inject_cfr. apply (stage_update _ _ (λ t, Ok t)), stage_ret. Qed.

Lemma stage_inject_days_since :
  stage inject_days_since (λ t, Ok (days_since_table t)).
Proof.
  unfold inject_days_since, days_since_table.
  apply (stage_load_alloc (λ t, t)
    (λ df, for_each days_since_spec (λ '(col, spec), update df (days_since_col col spec));;
           mret df)
    (λ t, Ok (foldl (λ t '(col, spec), days_since_col col spec t) t days_since_spec))).
  apply (stage_unit
           (λ df, for_each days_since_spec (λ '(col, spec),
                    update df (days_since_col col spec)))
           (λ t, foldl (λ t '(col, spec), days_since_col col spec t) t days_since_spec)
           (λ df, mret df) (λ t, Ok t)); [|apply stage_ret].
  intros df h t Hdf.
  etrans; [apply (for_each_run df _ (λ '(col, spec), days_since_col col spec)
                    days_since_spec h t); [|done]|reflexivity].
  intros [col spec] h0 t0 Hdf0. by apply update_run.
Qed.

Lemma stage_inject_exemplars E :
  stage (inject_exemplars E) (λ t, Ok (exemplars_table E t)).
Proof.
  unfold inject_exemplars, inject_population, exemplars_table, exemplars_cols.
  eapply stage_ext; [| |apply (stage_load_alloc (merge_population E)
    (λ df, update df (map_col "days_since_100_total_cases_and_5m_pop" mapper_days_since);;
           update df (map_col "5m_pop_and_21_days_since_100_cases_and_testing"
                        (mapper_bool E));;
           drop_population df)
    (λ t, Ok (drop_cols ["population_year"; "population"]
                (map_col "5m_pop_and_21_days_since_100_cases_and_testing" (mapper_bool E)
                   (map_col "days_since_100_total_cases_and_5m_pop" mapper_days_since t)))))].
  - intros df h. rewrite !bind_run. destruct (load df h) as [[t h']|e]; [|done].
    by rewrite !bind_run.
  - done.
  - apply (stage_update _ _
             (λ t, Ok (drop_cols ["population_year"; "population"]
                (map_col "5m_pop_and_21_days_since_100_cases_and_testing"
                   (mapper_bool E) t)))).
    apply (stage_update _ _ (λ t, Ok (drop_cols ["population_year"; "population"] t))).
    apply stage_drop_population.
Qed.

Lemma stage_sort_values_location_date :
  stage sort_values_location_date (λ t, Ok (merge_sort row_le t)).
Proof. apply stage_copy. Qed.

(** [discard_rows] writes the negative-delta and the manual corrections
    into the frame it is given, and returns a new frame. *)
Lemma discard_rows_run (h : heap) df t :
  h !! df = Some t →
  discard_rows df h =
    match discard_rows_table t with
    | Ok t' => Ok (fresh (dom h), <[fresh (dom h) := t']> (<[df := discard_in_place t]> h))
    | Raise e => Raise e
    end.
Proof.
  intros Hdf. unfold discard_rows, discard_rows_table.
  rewrite bind_run, (update_run _ _ _ _ Hdf).
  rewrite bind_run, (update_run _ _ _ _ (lookup_insert_eq _ _ _)), insert_insert_eq.
  rewrite bind_run.
  rewrite (for_each_update_run df
             (λ ldc, loc_assign (correction_mask ldc) (correction_col ldc) NaN)
             LARGE_DATA_CORRECTIONS _ _ (lookup_insert_eq _ _ _)), insert_insert_eq.
  fold (discard_in_place t).
  rewrite bind_run, (load_run _ _ _ (lookup_insert_eq _ _ _)), bind_run.
  unfold lift at 1.
  destruct (groupby_apply hide_recent_zeros (merge_sort row_le (discard_in_place t)))
    as [t'|e]; [|done].
  unfold alloc. rewrite dom_insert_L.
  assert (Hin : df ∈ dom h) by (apply elem_of_dom; eauto).
  by rewrite (subseteq_union_1_L {[df]} (dom h)) by (by apply singleton_subseteq_l).
Qed.

Lemma stage_discard_rows : stage discard_rows discard_rows_table.
Proof.
  intros h df t Hdf. rewrite (discard_rows_run _ _ _ Hdf).
  destruct (discard_rows_table t) as [t'|e]; [|done].
  set (new := fresh (dom h)).
  assert (Hnew : h !! new = None) by apply alloc_fresh.
  exists new, (<[new := t']> (<[df := discard_in_place t]> h)).
  split; [done|]. split; [apply lookup_insert_eq|].
  intros r Hr Hne.
  assert (Hrn : r ≠ new) by (intros ->; rewrite Hnew in Hr; by destruct Hr).
  split; [|done]. by rewrite !lookup_insert_ne.
Qed.

Lemma stage_standardize_stages E :
  stage (standardize_stages E) (λ t, t ← discard_rows_table t; Ok (enrich_table E t)).
Proof.
  unfold standardize_stages.
  apply (stage_bind discard_rows discard_rows_table _ (λ t, Ok (enrich_table E t))).
  { apply stage_discard_rows. }
  apply (stage_bind _ (λ t, Ok (owid_aggregates_table E t)) _
           (λ t, Ok (merge_sort row_le (exemplars_table E (days_since_table (cfr_table
              (rolling_avg_table (per_million_table E BASE_MEASURES (doubling_days_table E
                 (inject_growth_table "biweekly" 14
                    (inject_growth_table "weekly" 7 t))))))))))).
  { apply stage_inject_owid_aggregates. }
  apply (stage_bind _ (λ t, Ok (inject_growth_table "weekly" 7 t)) _
           (λ t, Ok (merge_sort row_le (exemplars_table E (days_since_table (cfr_table
              (rolling_avg_table (per_million_table E BASE_MEASURES (doubling_days_table E
                 (inject_growth_table "biweekly" 14 t)))))))))).
  { apply stage__inject_growth. }
  apply (stage_bind _ (λ t, Ok (inject_growth_table "biweekly" 14 t)) _
           (λ t, Ok (merge_sort row_le (exemplars_table E (days_since_table (cfr_table
              (rolling_avg_table (per_million_table E BASE_MEASURES
                 (doubling_days_table E t))))))))).
  { apply stage__inject_growth. }
  apply (stage_bind _ (λ t, Ok (doubling_days_table E t)) _
           (λ t, Ok (merge_sort row_le (exemplars_table E (days_since_table (cfr_table
              (rolling_avg_table (per_million_table E BASE_MEASURES t)))))))).
  { apply stage_inject_doubling_days. }
  apply (stage_bind _ (λ t, Ok (per_million_table E BASE_MEASURES t)) _
           (λ t, Ok (merge_sort row_le (exemplars_table E (days_since_table (cfr_table
              (rolling_avg_table t))))))).
  { apply stage_inject_per_million. }
  apply (stage_bind _ (λ t, Ok (rolling_avg_table t)) _
           (λ t, Ok (merge_sort row_le (exemplars_table E (days_since_table
              (cfr_table t)))))).
  { apply stage_inject_rolling_avg. }
  apply (stage_bind _ (λ t, Ok (cfr_table t)) _
           (λ t, Ok (merge_sort row_le (exemplars_table E (days_since_table t))))).
  { apply stage_inject_cfr. }
  apply (stage_bind _ (λ t, Ok (days_since_table t)) _
           (λ t, Ok (merge_sort row_le (exemplars_table E t)))).
  { apply stage_inject_days_since. }
  apply (stage_bind _ (λ t, Ok (exemplars_table E t)) _
           (λ t, Ok (merge_sort row_le t))).
  { apply stage_inject_exemplars. }
  apply stage_sort_values_location_date.
Qed.

Lemma standardize_table_unfold E t :
  standardize_table E t =
    t ← select_columns INPUT_MEASURES t; t ← discard_rows_table t; Ok (enrich_table E t).
Proof. reflexivity. Qed.

(** [standardize_data] computes [standardize_table] on the frame behind
    its argument and returns it in a new object; no object of the store,
    the argument included, is changed. *)
Lemma standardize_data_unfold E (h : heap) df t :
  h !! df = Some t →
  standardize_data E df h =
    match select_columns INPUT_MEASURES t with
    | Ok t1 => standardize_stages E (fresh (dom h)) (<[fresh (dom h) := t1]> h)
    | Raise e => Raise e
    end.
Proof.
  intros Hdf.
  change (standardize_data E df) with
    (t ← load df; t ← lift (select_columns INPUT_MEASURES t); df ← alloc t;
     standardize_stages E df).
  rewrite bind_run, (load_run _ _ _ Hdf), bind_run. unfold lift at 1.
  destruct (select_columns INPUT_MEASURES t) as [t1|e]; [|reflexivity].
  rewrite bind_run. unfold alloc at 1. reflexivity.
Qed.

Lemma standardize_data_run E (h : heap) df t :
  h !! df = Some t →
  match standardize_table E t with
  | Ok t' => ∃ df' (h' : heap),
      standardize_data E df h = Ok (df', h') ∧ h' !! df' = Some t' ∧
      ∀ r, is_Some (h !! r) → h' !! r = h !! r ∧ r ≠ df'
  | Raise e => standardize_data E df h = Raise e
  end.
Proof.
  intros Hdf. rewrite standardize_table_unfold, (standardize_data_unfold E h df t Hdf).
  destruct (select_columns INPUT_MEASURES t) as [t1|e]; [|reflexivity].
  set (new := fresh (dom h)).
  assert (Hnew : h !! new = None) by apply alloc_fresh.
  pose proof (stage_standardize_stages E (<[new := t1]> h) new t1
                (lookup_insert_eq _ _ _)) as Hstage.
  change (Ok t1 ≫= λ t0, discard_rows_table t0 ≫= λ t2, Ok (enrich_table E t2))
    with (discard_rows_table t1 ≫= λ t2, Ok (enrich_table E t2)).
  cbv beta in Hstage. revert Hstage.
  generalize (enrich_table E). generalize (standardize_stages E new (<[new:=t1]> h)).
  intros run g Hstage.
  destruct (discard_rows_table t1) as [t2|e]; [|exact Hstage].
  change (Ok t2 ≫= λ t2, Ok (g t2)) with (Ok (g t2)) in *.
  destruct Hstage as (df' & h' & Hrun & Hres & Hframe).
  exists df', h'. split; [done|]. split; [done|].
  intros r Hr.
  assert (Hrn : r ≠ new) by (intros ->; rewrite Hnew in Hr; by destruct Hr).
  destruct (Hframe r) as [Heq Hne']; [|done|].
  - by rewrite lookup_insert_ne.
  - split; [|done]. by rewrite Heq, lookup_insert_ne.
Qed.

Lemma is_Ok_get {A} (d : A) (o : outcome A) : is_Ok o = true → o = Ok (get_Ok d o).
Proof. by destruct o. Qed.

Lemma standardize_data_run_Ok E (h : heap) df t t' :
  h !! df = Some t →
  standardize_table E t = Ok t' →
  ∃ df' (h' : heap),
    standardize_data E df h = Ok (df', h') ∧ h' !! df' = Some t' ∧
    ∀ r, is_Some (h !! r) → h' !! r = h !! r ∧ r ≠ df'.
Proof.
  intros Hdf Ht. pose proof (standardize_data_run E h df t Hdf) as Hrun.
  by rewrite Ht in Hrun.
Qed.

Lemma run_table_standardize_data E (h : heap) df t :
  h !! df = Some t →
  run_table (standardize_data E df) h = standardize_table E t.
Proof.
  intros Hdf. pose proof (standardize_data_run E h df t Hdf) as Hrun.
  unfold run_table.
  destruct (standardize_table E t) as [t'|e].
  - destruct Hrun as (df' & h' & -> & -> & _). done.
  - by rewrite Hrun.
Qed.

(* ================================================================== *)
(** ** Determinism of the pipeline *)
(* ================================================================== *)

(** C2.  The outcome of [standardize_data] (the frame it returns, or the
    exception it raises) is a function of the frame it is given and of
    the reference data: two runs, in any two stores and through any two
    references, on identical input frames give identical outcomes. *)
Theorem standardize_data_deterministic E (h1 h2 : heap) df1 df2 t :
  h1 !! df1 = Some t →
  h2 !! df2 = Some t →
  run_table (standardize_data E df1) h1 = run_table (standardize_data E df2) h2.
Proof.
  intros H1 H2. by rewrite !(run_table_standardize_data E _ _ t).
Qed.

(** Running the pipeline again in the store that the first run left gives
    the same frame again. *)
Corollary standardize_data_rerun E (h : heap) df t df1 h1 :
  h !! df = Some t →
  standardize_data E df h = Ok (df1, h1) →
  run_table (standardize_data E df) h1 = run_table (standardize_data E df) h.
Proof.
  intros Hdf Hrun.
  assert (H1 : h1 !! df = Some t).
  { pose proof (standardize_data_run E h df t Hdf) as Hspec.
    destruct (standardize_table E t) as [t'|e]; [|congruence].
    destruct Hspec as (df' & h' & Hrun' & _ & Hframe).
    assert (h' = h1) as -> by congruence.
    destruct (Hframe df) as [Heq _]; [eauto|]. by rewrite Heq. }
  by rewrite (run_table_standardize_data E h1 df t H1),
             (run_table_standardize_data E h df t Hdf).
Qed.

(* ================================================================== *)
(** ** What the anomaly corrector writes, and where *)
(* ================================================================== *)

Lemma existsb_ext {A} (f g : A → bool) (l : list A) :
  (∀ x, f x = g x) → existsb f l = existsb g l.
Proof. intros Hfg. induction l as [|x l IH]; simpl; [done|]. by rewrite Hfg, IH. Qed.

Lemma correction_mask_keys ldc r r' :
  location r' = location r → date r' = date r →
  correction_mask ldc r' = correction_mask ldc r.
Proof. destruct ldc as [[loc [[y m] d]] mt]. simpl. by intros -> ->. Qed.

Lemma corrections_fold_lookup (l : list (string * (Z * Z * Z) * metric)) t i r :
  t !! i = Some r →
  ∃ r', foldl (λ t ldc, loc_assign (correction_mask ldc) (correction_col ldc) NaN t) t l !! i
          = Some r' ∧
    location r' = location r ∧ date r' = date r ∧
    (∀ m, getc ("new_" +:+ metric_name m) r' =
            if existsb (λ ldc, correction_mask ldc r && bool_decide (ldc.2 = m)) l
            then NaN else getc ("new_" +:+ metric_name m) r) ∧
    (∀ c, c ≠ "new_cases" → c ≠ "new_deaths" → getc c r' = getc c r).
Proof.
  revert t r. induction l as [|ldc l IH]; intros t r Hr; simpl.
  { exists r. repeat split; done. }
  set (r1 := if correction_mask ldc r then setc (correction_col ldc) NaN r else r).
  assert (Hr1 : loc_assign (correction_mask ldc) (correction_col ldc) NaN t !! i = Some r1).
  { by rewrite loc_assign_lookup, Hr. }
  assert (Hl1 : location r1 = location r) by (unfold r1; by destruct (correction_mask ldc r)).
  assert (Hd1 : date r1 = date r) by (unfold r1; by destruct (correction_mask ldc r)).
  destruct (IH _ r1 Hr1) as (r' & Hr' & Hl' & Hd' & Hm' & Hf').
  exists r'. split; [exact Hr'|]. split; [congruence|]. split; [congruence|]. split.
  - intros m. rewrite Hm'.
    rewrite (existsb_ext _ (λ ldc0, correction_mask ldc0 r && bool_decide (ldc0.2 = m)))
      by (intros ldc0; by rewrite (correction_mask_keys ldc0 r r1 Hl1 Hd1)).
    destruct (existsb _ l); [by rewrite orb_true_r|]. rewrite orb_false_r.
    unfold r1, correction_col. destruct (correction_mask ldc r); simpl; [|done].
    destruct (decide (ldc.2 = m)) as [->|Hne].
    + by rewrite bool_decide_eq_true_2, getc_setc_eq.
    + rewrite bool_decide_eq_false_2 by done. rewrite getc_setc_ne; [done|].
      destruct ldc.2, m; done.
  - intros c Hc1 Hc2. rewrite Hf' by done.
    unfold r1, correction_col. destruct (correction_mask ldc r); [|done].
    rewrite getc_setc_ne; [done|]. destruct ldc.2; simpl; by apply not_eq_sym.
Qed.

(** The row that [discard_rows] leaves at a position of its argument. *)
Lemma discard_in_place_lookup t i r :
  t !! i = Some r →
  ∃ r', discard_in_place t !! i = Some r' ∧
    location r' = location r ∧ date r' = date r ∧
    (∀ m, getc ("new_" +:+ metric_name m) r' = discarded m r) ∧
    (∀ c, c ≠ "new_cases" → c ≠ "new_deaths" → getc c r' = getc c r).
Proof.
  intros Hr. unfold discard_in_place.
  set (r0 := (λ r, if clt (getc "new_deaths" r) 0 then setc "new_deaths" NaN r else r)
               (if clt (getc "new_cases" r) 0 then setc "new_cases" NaN r else r)).
  assert (Hr0 : loc_assign (λ r, clt (getc "new_deaths" r) 0) "new_deaths" NaN
                  (loc_assign (λ r, clt (getc "new_cases" r) 0) "new_cases" NaN t) !! i
                = Some r0).
  { by rewrite !loc_assign_lookup, Hr. }
  assert (Hkeys : location r0 = location r ∧ date r0 = date r).
  { unfold r0. destruct (clt (getc "new_cases" r) 0); simpl;
      match goal with |- context [clt ?x 0] => destruct (clt x 0) end; done. }
  destruct Hkeys as [Hl0 Hd0].
  assert (Hc0 : getc "new_cases" r0 =
                if clt (getc "new_cases" r) 0 then NaN else getc "new_cases" r).
  { unfold r0. destruct (clt (getc "new_cases" r) 0) eqn:Ec; simpl;
      match goal with |- context [clt ?x 0] => destruct (clt x 0) end;
      rewrite ?(getc_setc_ne "new_deaths" "new_cases") by done;
      rewrite ?getc_setc_eq; done. }
  assert (Hdd0 : getc "new_deaths" r0 =
                 if clt (getc "new_deaths" r) 0 then NaN else getc "new_deaths" r).
  { unfold r0. destruct (clt (getc "new_cases" r) 0) eqn:Ec; simpl;
      rewrite ?(getc_setc_ne "new_cases" "new_deaths") by done;
      destruct (clt (getc "new_deaths" r) 0) eqn:Ed; simpl;
      rewrite ?getc_setc_eq, ?(getc_setc_ne "new_cases" "new_deaths") by done; done. }
  assert (Hf0 : ∀ c, c ≠ "new_cases" → c ≠ "new_deaths" → getc c r0 = getc c r).
  { intros c H1 H2. unfold r0. destruct (clt (getc "new_cases" r) 0); simpl;
      match goal with |- context [clt ?x 0] => destruct (clt x 0) end;
      rewrite ?getc_setc_ne by done; done. }
  destruct (corrections_fold_lookup LARGE_DATA_CORRECTIONS _ i r0 Hr0)
    as (r' & Hr' & Hl' & Hd' & Hm' & Hf').
  exists r'. split; [exact Hr'|]. split; [congruence|]. split; [congruence|]. split.
  - intros m. rewrite Hm'. unfold discarded, corrected.
    rewrite (existsb_ext _ (λ ldc0, correction_mask ldc0 r && bool_decide (ldc0.2 = m)))
      by (intros ldc0; by rewrite (correction_mask_keys ldc0 r r0 Hl0 Hd0)).
    match goal with |- context [existsb ?f ?l] => generalize (existsb f l) end.
    intros b. destruct m.
    + change ("new_" +:+ metric_name cases) with "new_cases". rewrite Hc0.
      by destruct (clt (getc "new_cases" r) 0), b.
    + change ("new_" +:+ metric_name deaths) with "new_deaths". rewrite Hdd0.
      by destruct (clt (getc "new_deaths" r) 0), b.
  - intros c H1 H2. rewrite Hf' by done. by apply Hf0.
Qed.

(* ================================================================== *)
(** ** Columns that later stages do not touch *)
(* ================================================================== *)

Lemma keeps_refl cs t : keeps cs t t.
Proof. intros r Hr. by exists r. Qed.

Lemma keeps_trans cs t1 t2 t3 : keeps cs t1 t2 → keeps cs t2 t3 → keeps cs t1 t3.
Proof.
  intros H12 H23 r3 Hr3. destruct (H23 r3 Hr3) as (r2 & Hr2 & Heq2).
  destruct (H12 r2 Hr2) as (r1 & Hr1 & Heq1).
  exists r1. split; [done|]. intros c Hc. by rewrite Heq2, Heq1.
Qed.

Lemma keeps_set_col cs c vs t : c ∉ cs → keeps cs t (set_col c vs t).
Proof.
  intros Hc r' Hr'. unfold set_col in Hr'.
  apply elem_of_zip_with in Hr' as (v & r & -> & _ & Hr).
  exists r. split; [done|]. intros c' Hc'. apply getc_setc_ne. by intros ->.
Qed.

Lemma keeps_map_col cs c f t : c ∉ cs → keeps cs t (map_col c f t).
Proof.
  intros Hc r' Hr'. unfold map_col in Hr'.
  apply list_elem_of_fmap in Hr' as (r & -> & Hr).
  exists r. split; [done|]. intros c' Hc'. apply getc_setc_ne. by intros ->.
Qed.

Lemma keeps_drop_cols cs ds t : (∀ c, c ∈ cs → c ∉ ds) → keeps cs t (drop_cols ds t).
Proof.
  intros Hc r' Hr'. unfold drop_cols in Hr'.
  apply list_elem_of_fmap in Hr' as (r & -> & Hr).
  exists r. split; [done|]. intros c' Hc'. specialize (Hc c' Hc').
  unfold getc. simpl. f_equal.
  induction ds as [|d ds IH]; simpl; [done|].
  apply not_elem_of_cons in Hc as [Hne Hc].
  rewrite lookup_delete_ne by done. by apply IH.
Qed.

Lemma keeps_merge_population cs E t :
  "population" ∉ cs → "population_year" ∉ cs → keeps cs t (merge_population E t).
Proof.
  intros H1 H2 r' Hr'. unfold merge_population in Hr'.
  apply list_elem_of_bind in Hr' as (r & Hr' & Hr).
  exists r. split; [done|]. intros c Hc.
  assert (Hw : ∀ p y, getc c (with_population p y r) = getc c r).
  { intros p y. unfold with_population. rewrite !getc_setc_ne; [done|..]; by intros <-. }
  destruct (filter _ (load_population E)) as [|p ps].
  - apply list_elem_of_singleton in Hr' as ->. apply Hw.
  - apply list_elem_of_fmap in Hr' as (q & -> & _). apply Hw.
Qed.

Lemma keeps_Permutation cs (t t' : table) : t ≡ₚ t' → keeps cs t t'.
Proof. intros Hp r Hr. exists r. split; [by rewrite Hp|done]. Qed.

Lemma keeps_foldl {A} cs (step : table → A → table) (l : list A) t :
  (∀ x t, x ∈ l → keeps cs t (step t x)) → keeps cs t (foldl step t l).
Proof.
  revert t. induction l as [|x l IH]; intros t Hstep; simpl; [apply keeps_refl|].
  eapply keeps_trans; [apply Hstep; left|]. apply IH. intros y t' Hy. apply Hstep. by right.
Qed.

Local Ltac not_total := apply (bool_decide_unpack _); vm_compute; exact I.

Lemma keeps_per_million_table E t :
  keeps TOTALS t (per_million_table E BASE_MEASURES t).
Proof.
  unfold per_million_table.
  eapply keeps_trans; [|apply keeps_drop_cols].
  - eapply keeps_trans; [apply keeps_merge_population; not_total|].
    apply keeps_foldl. intros m t' Hm. unfold per_million_col. apply keeps_map_col.
    unfold BASE_MEASURES in Hm.
    repeat (apply elem_of_cons in Hm as [->|Hm]); try (by apply elem_of_nil in Hm);
      not_total.
  - intros c Hc. unfold TOTALS in Hc.
    repeat (apply elem_of_cons in Hc as [->|Hc]); try (by apply elem_of_nil in Hc);
      not_total.
Qed.

Lemma keeps_rolling_avg_table t : keeps TOTALS t (rolling_avg_table t).
Proof.
  unfold rolling_avg_table.
  eapply keeps_trans;
    [apply keeps_Permutation; symmetry; apply (merge_sort_Permutation date_le)|].
  apply (keeps_foldl TOTALS
           (λ t '(col, (src, w, mp)), rolling_avg_col col src w mp t)).
  intros s t' Hs. unfold rolling_avg_spec in Hs.
  repeat (apply elem_of_cons in Hs as [->|Hs]); try (by apply elem_of_nil in Hs);
    unfold rolling_avg_col;
    (eapply keeps_trans; [|apply keeps_set_col; not_total]); apply keeps_map_col; not_total.
Qed.

Lemma keeps_cfr_table t : keeps TOTALS t (cfr_table t).
Proof.
  unfold cfr_table.
  eapply keeps_trans; [|apply keeps_map_col; not_total]. apply keeps_map_col; not_total.
Qed.

Lemma keeps_days_since_table t : keeps TOTALS t (days_since_table t).
Proof.
  unfold days_since_table.
  apply (keeps_foldl TOTALS (λ t '(col, spec), days_since_col col spec t)).
  intros s t' Hs. unfold days_since_spec in Hs.
  repeat (apply elem_of_cons in Hs as [->|Hs]); try (by apply elem_of_nil in Hs);
    unfold days_since_col; apply keeps_set_col; not_total.
Qed.

Lemma keeps_exemplars_table E t : keeps TOTALS t (exemplars_table E t).
Proof.
  unfold exemplars_table, exemplars_cols.
  eapply keeps_trans; [|apply keeps_drop_cols].
  - eapply keeps_trans; [|apply keeps_map_col; not_total].
    eapply keeps_trans; [|apply keeps_map_col; not_total].
    apply keeps_merge_population; not_total.
  - intros c Hc. unfold TOTALS in Hc.
    repeat (apply elem_of_cons in Hc as [->|Hc]); try (by apply elem_of_nil in Hc);
      not_total.
Qed.

(** The stages after [inject_doubling_days] carry the totals through. *)
Lemma keeps_after_doubling E t :
  keeps TOTALS t
    (merge_sort row_le
       (exemplars_table E
          (days_since_table
             (cfr_table (rolling_avg_table (per_million_table E BASE_MEASURES t)))))).
Proof.
  eapply keeps_trans; [apply keeps_per_million_table|].
  eapply keeps_trans; [apply keeps_rolling_avg_table|].
  eapply keeps_trans; [apply keeps_cfr_table|].
  eapply keeps_trans; [apply keeps_days_since_table|].
  eapply keeps_trans; [apply keeps_exemplars_table|].
  apply keeps_Permutation. symmetry. apply (merge_sort_Permutation row_le).
Qed.

Lemma doubling_days_table_keys E t : same_keys t (doubling_days_table E t).
Proof.
  rewrite doubling_days_table_fold. generalize doubling_days_spec. intros specs.
  revert t. induction specs as [|s specs IH]; intros t; simpl.
  - unfold same_keys. apply Forall_Forall2_diag, Forall_forall. done.
  - eapply same_keys_trans; [apply doubling_step_keys|apply IH].
Qed.

(** No row of the frame that [inject_doubling_days] leaves has a total
    of exactly zero. *)
Lemma doubling_days_table_no_zero E t r' c :
  r' ∈ doubling_days_table E t → c ∈ TOTALS → ceq (getc c r') 0 = false.
Proof.
  intros Hr' Hc. apply list_elem_of_lookup in Hr' as [i Hi].
  assert (Hlt : (i < length t)%nat).
  { rewrite (same_keys_length _ _ (doubling_days_table_keys E t)).
    by eapply lookup_lt_Some. }
  destruct (lookup_lt_is_Some_2 _ _ Hlt) as [r Hr].
  destruct (doubling_days_table_lookup E t i r Hr) as (r'' & Hr'' & _ & _ & Hspec & _).
  assert (r'' = r') as -> by congruence.
  unfold TOTALS in Hc.
  apply elem_of_cons in Hc as [->|Hc]; [|apply list_elem_of_singleton in Hc as ->].
  - destruct (Hspec ("doubling_days_total_cases_3_day_period", ("total_cases", 3%nat)))
      as [Hv _]; [unfold doubling_days_spec; apply list_elem_of_here|].
    simpl in Hv. rewrite Hv. apply null_if_zero_nonzero.
  - destruct (Hspec ("doubling_days_total_deaths_3_day_period", ("total_deaths", 3%nat)))
      as [Hv _]; [unfold doubling_days_spec; do 2 right; left|].
    simpl in Hv. rewrite Hv. apply null_if_zero_nonzero.
Qed.

Lemma enrich_table_unfold E t :
  enrich_table E t =
  merge_sort row_le
    (exemplars_table E
       (days_since_table
          (cfr_table (rolling_avg_table (per_million_table E BASE_MEASURES
             (doubling_days_table E
                      (inject_growth_table "biweekly" 14
                         (inject_growth_table "weekly" 7
                            (owid_aggregates_table E t))))))))).
Proof. reflexivity. Qed.

Lemma enrich_table_no_zero E t r' c :
  r' ∈ enrich_table E t → c ∈ TOTALS → ceq (getc c r') 0 = false.
Proof.
  intros Hr' Hc. rewrite enrich_table_unfold in Hr'.
  destruct (keeps_after_doubling E _ r' Hr') as (r & Hr & Heq).
  rewrite (Heq c Hc). by eapply doubling_days_table_no_zero.
Qed.

Lemma standardize_data_dangling E (h : heap) df :
  h !! df = None → standardize_data E df h = Raise Dangling.
Proof.
  intros Hnone.
  change (standardize_data E df) with
    (t ← load df; t ← lift (select_columns INPUT_MEASURES t); df ← alloc t;
     standardize_stages E df).
  rewrite bind_run. unfold load. by rewrite Hnone.
Qed.

(** A successful run returns the enriched frame of some corrected frame
    and changes no object of the store. *)
Lemma standardize_data_Ok E (h : heap) df df' h' :
  standardize_data E df h = Ok (df', h') →
  ∃ t t1 t2,
    h !! df = Some t ∧
    select_columns INPUT_MEASURES t = Ok t1 ∧ discard_rows_table t1 = Ok t2 ∧
    h' !! df' = Some (enrich_table E t2) ∧
    ∀ r, is_Some (h !! r) → h' !! r = h !! r ∧ r ≠ df'.
Proof.
  intros Hrun. destruct (h !! df) as [t|] eqn:Hdf.
  2: { rewrite (standardize_data_dangling E h df Hdf) in Hrun. discriminate. }
  pose proof (standardize_data_run E h df t Hdf) as Hspec.
  rewrite standardize_table_unfold in Hspec.
  destruct (select_columns INPUT_MEASURES t) as [t1|e] eqn:Hsel;
    [|change (standardize_data E df h = Raise e) in Hspec; congruence].
  change (Ok t1 ≫= λ t0, discard_rows_table t0 ≫= λ t2, Ok (enrich_table E t2))
    with (discard_rows_table t1 ≫= λ t2, Ok (enrich_table E t2)) in Hspec.
  destruct (discard_rows_table t1) as [t2|e] eqn:Hdis;
    [|change (standardize_data E df h = Raise e) in Hspec; congruence].
  change (Ok t2 ≫= λ t2, Ok (enrich_table E t2)) with (Ok (enrich_table E t2)) in Hspec.
  destruct Hspec as (df'' & h'' & Hrun' & Hres & Hframe).
  assert (df'' = df' ∧ h'' = h') as [-> ->] by (split; congruence).
  exists t, t1, t2. split; [reflexivity|]. split; [exact Hsel|].
  split; [exact Hdis|]. split; [exact Hres|exact Hframe].
Qed.

Lemma standardize_data_deterministic_witness :
  run_table (standardize_data sample_collaborators 1%positive)
            {[ 1%positive := threshold_sample ]}
  = run_table (standardize_data sample_collaborators 5%positive)
              {[ 2%positive := growth_sample; 5%positive := threshold_sample ]}.
Proof.
  apply (standardize_data_deterministic sample_collaborators
           {[ 1%positive := threshold_sample ]}
           {[ 2%positive := growth_sample; 5%positive := threshold_sample ]}
           1%positive 5%positive threshold_sample).
  - reflexivity.
  - reflexivity.
Defined.

(** The pipeline returns a frame on the sample: its five rows and those
    of the eight aggregates that have members among the locations. *)
Example standardize_data_sample_rows :
  length <$> run_table (standardize_data sample_collaborators 1%positive)
                       {[ 1%positive := threshold_sample ]}
  = Ok 31%nat.
Proof. vm_compute. reflexivity. Qed.

(* ================================================================== *)
(** ** The zero totals *)
(* ================================================================== *)

(** C8.  [inject_doubling_days] returns the frame it was given, written
    in place: on every row the two totals are replaced by the missing
    value where they were exactly zero and are left alone elsewhere, and
    the doubling-days columns are computed from the totals so rewritten.
    No later stage writes the totals, so no row of the frame that
    [standardize_data] returns has a total of exactly zero. *)
Theorem doubling_days_rewrites_zero_totals E :
  (∀ (h : heap) df (t : table),
     h !! df = Some t →
     inject_doubling_days E df h = Ok (df, <[df := doubling_days_table E t]> h) ∧
     ∀ i r, t !! i = Some r →
       ∃ r', doubling_days_table E t !! i = Some r' ∧
         location r' = location r ∧ date r' = date r ∧
         (∀ c, c ∈ TOTALS → getc c r' = null_if_zero (getc c r)) ∧
         (∀ col value_col periods,
            (col, (value_col, periods)) ∈ doubling_days_spec →
            getc col r' =
              pct_change_to_doubling_days E
                (period_pct value_col periods t i (location r)) periods)) ∧
  (∀ (h : heap) df df' (h' : heap) (t' : table),
     standardize_data E df h = Ok (df', h') →
     h' !! df' = Some t' →
     ∀ r c, r ∈ t' → c ∈ TOTALS → ceq (getc c r) 0 = false).
Proof.
  split.
  - intros h df t Hdf. split; [by apply inject_doubling_days_run|].
    intros i r Hr.
    destruct (doubling_days_table_lookup E t i r Hr) as (r' & Hr' & Hl & Hd & Hspec & _).
    exists r'. split; [done|]. split; [done|]. split; [done|]. split.
    + intros c Hc. unfold TOTALS in Hc.
      apply elem_of_cons in Hc as [->|Hc]; [|apply list_elem_of_singleton in Hc as ->].
      * destruct (Hspec ("doubling_days_total_cases_3_day_period", ("total_cases", 3%nat)))
          as [Hv _]; [unfold doubling_days_spec; apply list_elem_of_here|]. exact Hv.
      * destruct (Hspec ("doubling_days_total_deaths_3_day_period", ("total_deaths", 3%nat)))
          as [Hv _]; [unfold doubling_days_spec; do 2 right; left|]. exact Hv.
    + intros col vc p Hin. by destruct (Hspec _ Hin) as [_ Hcol].
  - intros h df df' h' t' Hrun Hres r c Hr Hc.
    destruct (standardize_data_Ok E h df df' h' Hrun) as (t & t1 & t2 & _ & _ & _ & Hout & _).
    assert (t' = enrich_table E t2) as -> by congruence.
    by eapply enrich_table_no_zero.
Qed.

Lemma doubling_days_rewrites_zero_totals_witness :
  (∃ r', doubling_days_table sample_collaborators doubling_sample !! 0%nat = Some r' ∧
         getc "total_deaths" r' = NaN ∧ getc "total_cases" r' = Num 100) ∧
  (∃ df' (h' : heap) (t' : table),
     standardize_data sample_collaborators 1%positive {[ 1%positive := doubling_sample ]}
       = Ok (df', h') ∧
     h' !! df' = Some t' ∧
     ∀ r c, r ∈ t' → c ∈ TOTALS → ceq (getc c r) 0 = false).
Proof.
  destruct (doubling_days_rewrites_zero_totals sample_collaborators) as [Hstage Hpipe].
  split.
  - destruct (Hstage {[ 1%positive := doubling_sample ]} 1%positive doubling_sample)
      as [_ Hrows]; [reflexivity|].
    destruct (Hrows 0%nat (raw_row 18300 "A" (Num 0) (Num 0) (Num 100) (Num 0)))
      as (r' & Hr' & _ & _ & Htot & _); [reflexivity|].
    exists r'. split; [exact Hr'|]. split.
    + rewrite (Htot "total_deaths") by (unfold TOTALS; do 1 right; left). reflexivity.
    + rewrite (Htot "total_cases") by (unfold TOTALS; left). reflexivity.
  - assert (Ht : is_Ok (standardize_table sample_collaborators doubling_sample) = true)
      by (vm_compute; reflexivity).
    apply (is_Ok_get []) in Ht.
    assert (Hh : ({[ 1%positive := doubling_sample ]} : heap) !! 1%positive
                 = Some doubling_sample) by reflexivity.
    destruct (standardize_data_run_Ok sample_collaborators _ _ _ _ Hh Ht)
      as (df' & h' & Hrun & Hres & _).
    set (t' := get_Ok [] (standardize_table sample_collaborators doubling_sample)) in *.
    exists df', h', t'. split; [exact Hrun|]. split; [exact Hres|].
    exact (Hpipe _ _ _ _ _ Hrun Hres).
Defined.

(* ================================================================== *)
(** ** Where the corrections are written *)
(* ================================================================== *)

(** C9, as the code has it.  [discard_rows] writes into the frame object
    it is given: after the call that object holds, on every row, the
    missing value in [new_cases] (resp. [new_deaths]) where the value was
    negative or a manual correction matches the row, and is otherwise as
    before; the frame with the trailing zeros hidden is a new object.
    [standardize_data] hands [discard_rows] a new frame, the selection of
    the six input columns, so the frame of the caller is the same after
    the pipeline has run. *)
Theorem discard_rows_writes_its_argument E (h : heap) df (t : table) :
  h !! df = Some t →
  (∀ t', discard_rows_table t = Ok t' →
     ∃ df' (h' : heap) (t_in : table),
       discard_rows df h = Ok (df', h') ∧ df' ≠ df ∧
       h' !! df' = Some t' ∧ h' !! df = Some t_in ∧
       ∀ i r, t !! i = Some r →
         ∃ r', t_in !! i = Some r' ∧
           location r' = location r ∧ date r' = date r ∧
           getc "new_cases" r' = discarded cases r ∧
           getc "new_deaths" r' = discarded deaths r ∧
           ∀ c, c ≠ "new_cases" → c ≠ "new_deaths" → getc c r' = getc c r) ∧
  (∀ df' (h' : heap),
     standardize_data E df h = Ok (df', h') → h' !! df = Some t ∧ df' ≠ df).
Proof.
  intros Hdf. split.
  - intros t' Ht'.
    set (new := fresh (dom h)).
    assert (Hnew : h !! new = None) by apply alloc_fresh.
    assert (Hne : new ≠ df) by (intros Heq; rewrite Heq in Hnew; congruence).
    exists new, (<[new := t']> (<[df := discard_in_place t]> h)), (discard_in_place t).
    split; [by rewrite (discard_rows_run h df t Hdf), Ht'|]. split; [done|].
    split; [apply lookup_insert_eq|].
    split; [rewrite lookup_insert_ne by done; apply lookup_insert_eq|].
    intros i r Hr.
    destruct (discard_in_place_lookup t i r Hr) as (r' & Hr' & Hl & Hd & Hm & Hf).
    exists r'. repeat split; try done.
    + exact (Hm cases).
    + exact (Hm deaths).
  - intros df' h' Hrun.
    destruct (standardize_data_Ok E h df df' h' Hrun) as (t0 & _ & _ & _ & _ & _ & _ & Hframe).
    destruct (Hframe df) as [Heq Hne]; [eauto|].
    split; [by rewrite Heq|done].
Qed.

Lemma discard_rows_writes_its_argument_witness :
  (∃ df' (h' : heap) (t_in : table) r',
     discard_rows 1%positive {[ 1%positive := negative_sample ]} = Ok (df', h') ∧
     h' !! 1%positive = Some t_in ∧ t_in !! 1%nat = Some r' ∧
     getc "new_cases" r' = NaN) ∧
  (∃ df' (h' : heap),
     standardize_data sample_collaborators 1%positive {[ 1%positive := negative_sample ]}
       = Ok (df', h') ∧
     h' !! 1%positive = Some negative_sample).
Proof.
  assert (Hh : ({[ 1%positive := negative_sample ]} : heap) !! 1%positive
               = Some negative_sample) by reflexivity.
  destruct (discard_rows_writes_its_argument sample_collaborators _ _ _ Hh)
    as [Hdiscard Hpipe].
  split.
  - assert (Ht : is_Ok (discard_rows_table negative_sample) = true)
      by (vm_compute; reflexivity).
    apply (is_Ok_get []) in Ht.
    destruct (Hdiscard _ Ht) as (df' & h' & t_in & Hrun & _ & _ & Hin & Hrows).
    destruct (Hrows 1%nat (raw_row 18301 "A" (Num (-5)) (Num 0) (Num 2) (Num 0)))
      as (r' & Hr' & _ & _ & Hc & _); [reflexivity|].
    exists df', h', t_in, r'. split; [exact Hrun|]. split; [exact Hin|].
    split; [exact Hr'|]. rewrite Hc. vm_compute. reflexivity.
  - assert (Ht : is_Ok (standardize_table sample_collaborators negative_sample) = true)
      by (vm_compute; reflexivity).
    apply (is_Ok_get []) in Ht.
    destruct (standardize_data_run_Ok sample_collaborators _ _ _ _ Hh Ht)
      as (df' & h' & Hrun & _ & _).
    exists df', h'. split; [exact Hrun|]. exact (proj1 (Hpipe df' h' Hrun)).
Defined.

(** C9 as stated fails: the frame of the caller holds the negative daily
    value before the pipeline runs and still holds it afterwards. *)
Lemma standardize_data_leaves_the_callers_frame :
  nth_cell (column "new_cases" negative_sample) 1 = Num (-5) ∧
  (λ out, (out.2 : heap) !! 1%positive)
    <$> standardize_data sample_collaborators 1%positive {[ 1%positive := negative_sample ]}
  = Ok (Some negative_sample).
Proof. split; vm_compute; reflexivity. Qed.

(* ================================================================== *)
(** ** Trailing zeros *)
(* ================================================================== *)

(** A location without any positive daily case leaves [hide_recent_zeros]
    at its first [return df]: the frame comes back as it was, whatever
    the deaths are. *)
Lemma hide_recent_zeros_without_positive_cases df :
  (∀ r, r ∈ df → cgt (getc "new_cases" r) 0 ≠ true) →
  hide_recent_zeros df = Ok df.
Proof.
  intros Hnone. unfold hide_recent_zeros. by rewrite filter_none.
Qed.

(** C3 at the failing input.  The location has no positive daily case;
    its last positive daily death count is 20, one day before the last
    reported date.  The frame comes back unmodified, the zero deaths of
    the last day included, whereas the same deaths next to a single case
    are hidden; the rule for the cases, on the contrary, is applied to a
    location that has no positive daily death. *)
Lemma hide_recent_zeros_skips_deaths_without_cases :
  hide_recent_zeros no_cases_sample = Ok no_cases_sample ∧
  column "new_deaths" no_cases_sample = [Num 20; Num 0] ∧
  column "new_deaths" <$> hide_recent_zeros one_case_sample = Ok [Num 20; NaN] ∧
  column "new_cases" <$> hide_recent_zeros no_deaths_sample = Ok [Num 200; NaN].
Proof. repeat split; vm_compute; reflexivity. Qed.

(* ================================================================== *)
(** ** Aggregates *)
(* ================================================================== *)

Lemma elem_of_dates (t : table) d : d ∈ dates t ↔ ∃ r, r ∈ t ∧ date r = d.
Proof.
  unfold dates. rewrite (merge_sort_Permutation Z.le), elem_of_remove_dups, list_elem_of_fmap.
  split; intros (r & H1 & H2); exists r; done.
Qed.

Lemma NoDup_dates (t : table) : NoDup (dates t).
Proof.
  unfold dates. rewrite (merge_sort_Permutation Z.le). apply NoDup_remove_dups.
Qed.

Lemma nansum_all_null l : (∀ v, v ∈ l → isnull v = true) → nansum l = Num 0.
Proof.
  intros Hnull. unfold nansum. rewrite filter_none; [done|].
  intros v Hv. unfold notnull. by rewrite (Hnull v Hv).
Qed.

Lemma sum_columns_lookup r0 g c :
  sum_columns (r0 :: g) !! c = (λ _, nansum (column c (r0 :: g))) <$> vals r0 !! c.
Proof.
  unfold sum_columns. rewrite map_lookup_imap. by destruct (vals r0 !! c).
Qed.

(** Which rows pass the two filters of [_sum_aggregate]: a list that is
    [None] or empty filters nothing. *)
Lemma elem_of_aggregate_filter include exclude df r :
  r ∈ aggregate_filter include exclude df ↔
  r ∈ df ∧
  (truthy include = true → location r ∈ default [] include) ∧
  (truthy exclude = true → location r ∉ default [] exclude).
Proof.
  unfold aggregate_filter.
  destruct (truthy include), (truthy exclude);
    rewrite ?list_elem_of_filter; intuition discriminate.
Qed.

(** C10.  For every aggregate and every date on which at least one row
    passes the include/exclude filter: when a column is missing on every
    such row of that date, the row of the aggregate for that date (there
    is exactly one) holds 0 in that column, not the missing value. *)
Theorem sum_aggregate_null_is_zero (df : table) name include exclude d c :
  let qualifying := filter (λ r, date r = d) (aggregate_filter include exclude df) in
  qualifying ≠ [] →
  (∀ r, r ∈ qualifying → ∃ v, vals r !! c = Some v ∧ isnull v = true) →
  ∃ r', r' ∈ _sum_aggregate df name include exclude ∧
    date r' = d ∧ location r' = name ∧ getc c r' = Num 0 ∧
    ∀ r'', r'' ∈ _sum_aggregate df name include exclude → date r'' = d → r'' = r'.
Proof.
  intros qualifying Hne Hnull.
  set (q := aggregate_filter include exclude df) in *.
  exists (Row d name (sum_columns qualifying)).
  assert (Hd : d ∈ dates q).
  { apply elem_of_dates. destruct qualifying as [|r0 g] eqn:Hq; [done|].
    assert (Hr0 : r0 ∈ filter (λ r, date r = d) q) by (fold qualifying; rewrite Hq; left).
    apply list_elem_of_filter in Hr0 as [? ?]. by exists r0. }
  split; [|split; [done|split; [done|split]]].
  - unfold _sum_aggregate. fold q.
    apply list_elem_of_fmap. by exists d.
  - unfold getc. simpl.
    destruct qualifying as [|r0 g] eqn:Hq; [done|].
    rewrite sum_columns_lookup.
    destruct (Hnull r0) as (v & Hv & _); [left|]. rewrite Hv. simpl.
    apply nansum_all_null. intros w Hw.
    apply (list_elem_of_fmap (getc c) (r0 :: g)) in Hw as (r & -> & Hr).
    destruct (Hnull r Hr) as (v' & Hv' & Hn). unfold getc. by rewrite Hv'.
  - intros r'' Hr'' Hd''. unfold _sum_aggregate in Hr''. fold q in Hr''.
    apply list_elem_of_fmap in Hr'' as (d' & -> & _). simpl in Hd''. by subst d'.
Qed.

Lemma sum_aggregate_null_is_zero_witness :
  ∃ r', r' ∈ _sum_aggregate all_null_sample "World" None None ∧
    date r' = 18300 ∧ location r' = "World" ∧ getc "new_cases" r' = Num 0.
Proof.
  destruct (sum_aggregate_null_is_zero all_null_sample "World" None None 18300 "new_cases")
    as (r' & Hin & Hd & Hl & Hc & _).
  - vm_compute. discriminate.
  - intros r Hr.
    change (filter (λ r, date r = 18300) (aggregate_filter None None all_null_sample))
      with [ raw_row 18300 "China" NaN (Num 1) (Num 10) (Num 1);
             raw_row 18300 "B" NaN (Num 2) (Num 5) (Num 2) ] in Hr.
    apply elem_of_cons in Hr as [->|Hr]; [|apply list_elem_of_singleton in Hr as ->];
      exists NaN; split; reflexivity.
  - exists r'. repeat split; assumption.
Defined.

(** The aggregates of the sample on its two dates, with and without
    China: the daily cases of the first date sum to 0. *)
Example sum_aggregate_sample :
  column "new_cases" (_sum_aggregate all_null_sample "World" None None)
    = [Num 0; Num 3] ∧
  column "new_cases" (_sum_aggregate all_null_sample "World excl. China" None (Some ["China"]))
    = [Num 0; Num 3] ∧
  column "total_cases" (_sum_aggregate all_null_sample "World excl. China" None (Some ["China"]))
    = [Num 5; Num 8].
Proof. repeat split; vm_compute; reflexivity. Qed.

(* ================================================================== *)
(** ** The order of strings *)
(* ================================================================== *)

Lemma string_le_spec a b : string_le a b ↔ a = b ∨ String_as_OT.lt a b.
Proof.
  unfold string_le, String.leb.
  destruct (String.compare a b) eqn:Hc.
  - apply String_as_OT.cmp_eq in Hc. by split; [left|].
  - apply String_as_OT.cmp_lt in Hc. by split; [right|].
  - split; [done|]. intros [->|Hlt].
    + assert (String.compare b b = Eq) by (by apply String_as_OT.cmp_eq). congruence.
    + apply String_as_OT.cmp_lt in Hlt. unfold String_as_OT.cmp in Hlt. congruence.
Qed.

Global Instance string_le_total : Total string_le.
Proof. intros a b. unfold string_le. apply String.leb_total. Qed.

Global Instance string_le_antisymm : AntiSymm (=) string_le.
Proof. intros a b. unfold string_le. apply String.leb_antisym. Qed.

Global Instance string_le_trans : Transitive string_le.
Proof.
  intros a b c. rewrite !string_le_spec. intros [->|Hab] [->|Hbc]; auto.
  right. by eapply String_as_OT.lt_trans.
Qed.

Global Instance Z_le_total : Total Z.le.
Proof. intros a b. lia. Qed.

Lemma sorted_dedup_Permutation {A} `{EqDecision A} (R : relation A)
    `{!∀ x y, Decision (R x y), !Total R, !Transitive R, !AntiSymm (=) R} (l k : list A) :
  (∀ x, x ∈ l ↔ x ∈ k) →
  merge_sort R (remove_dups l) = merge_sort R (remove_dups k).
Proof.
  intros Hlk. apply (Sorted_unique R); [apply Sorted_merge_sort, _..|].
  rewrite !merge_sort_Permutation.
  apply NoDup_Permutation; [apply NoDup_remove_dups..|].
  intros x. by rewrite !elem_of_remove_dups.
Qed.

Lemma locations_Permutation (t t' : table) : t ≡ₚ t' → locations t = locations t'.
Proof.
  intros Hp. unfold locations. apply (sorted_dedup_Permutation string_le).
  intros x. by rewrite Hp.
Qed.

Lemma dates_Permutation (t t' : table) : t ≡ₚ t' → dates t = dates t'.
Proof.
  intros Hp. unfold dates. apply (sorted_dedup_Permutation Z.le).
  intros x. by rewrite Hp.
Qed.

Lemma elem_of_locations (t : table) l : l ∈ locations t ↔ l ∈ location <$> t.
Proof. unfold locations. by rewrite (merge_sort_Permutation string_le), elem_of_remove_dups. Qed.

Lemma NoDup_locations (t : table) : NoDup (locations t).
Proof.
  unfold locations. rewrite (merge_sort_Permutation string_le). apply NoDup_remove_dups.
Qed.

(* ================================================================== *)
(** ** The wide files *)
(* ================================================================== *)

Lemma filter_all {A} (P : A → Prop) `{!∀ x, Decision (P x)} (l : list A) :
  (∀ y, y ∈ l → P y) → filter P l = l.
Proof.
  induction l as [|x l IH]; intros Hl; [done|].
  rewrite filter_cons_True by (apply Hl; left).
  f_equal. apply IH. intros y Hy. apply Hl. by right.
Qed.

Lemma delete_NoDup_filter {A} `{EqDecision A} (l : list A) i x :
  NoDup l → l !! i = Some x → delete i l = filter (λ y, y ≠ x) l.
Proof.
  revert i. induction l as [|y l IH]; intros i Hnd Hi; [done|].
  apply NoDup_cons in Hnd as [Hy Hnd]. destruct i as [|i]; simpl in *.
  - injection Hi as ->. rewrite filter_cons_False by (by intros ?).
    symmetry. apply filter_all. intros z Hz ->. done.
  - assert (Hne : y ≠ x).
    { intros ->. apply Hy. by eapply list_elem_of_lookup_2. }
    rewrite filter_cons_True by done. f_equal. by apply IH.
Qed.

Lemma move_world_first_Ok cols :
  NoDup cols → "World" ∈ cols →
  move_world_first cols = Ok ("World" :: filter (λ c, c ≠ "World") cols).
Proof.
  intros Hnd Hin. unfold move_world_first.
  destruct (list_find (λ c, c = "World") cols) as [[i x]|] eqn:Hfind.
  - apply list_find_Some in Hfind as (Hi & -> & _).
    by rewrite (delete_NoDup_filter cols i "World").
  - apply list_find_None in Hfind.
    rewrite Forall_forall in Hfind. by destruct (Hfind "World" Hin).
Qed.

Lemma move_world_first_Raise cols :
  "World" ∉ cols → ∃ e, move_world_first cols = Raise e.
Proof.
  intros Hnin. unfold move_world_first.
  destruct (list_find (λ c, c = "World") cols) as [[i x]|] eqn:Hfind; [|by eexists].
  apply list_find_Some in Hfind as (Hi & -> & _).
  destruct Hnin. by eapply list_elem_of_lookup_2.
Qed.

(** A wide file without a World location is an exception. *)
Lemma pivot_csv_no_world t output_path col_name :
  "World" ∉ location <$> t → ∃ e, pivot_csv t output_path col_name = Raise e.
Proof.
  intros Hnin. unfold pivot_csv.
  destruct (require_columns [col_name] t) as [[]|e]; [|by eexists].
  change (Ok () ≫= ?k) with (k ()). cbv beta.
  destruct (decide (NoDup _)); [|by eexists].
  change (Ok () ≫= ?k) with (k ()). cbv beta.
  destruct (move_world_first_Raise (locations t)) as [e He].
  { by rewrite elem_of_locations. }
  rewrite He. by eexists.
Qed.

(** A wide file that is written names World right after the date. *)
Lemma pivot_csv_header t output_path col_name f :
  pivot_csv t output_path col_name = Ok f →
  "World" ∈ location <$> t ∧
  file_name f = csv_path output_path col_name ∧
  header f = pivot_header t.
Proof.
  intros Hf.
  destruct (decide ("World" ∈ location <$> t)) as [Hin|Hnin].
  2: { destruct (pivot_csv_no_world t output_path col_name Hnin) as [e He]. congruence. }
  split; [done|]. unfold pivot_csv in Hf.
  destruct (require_columns [col_name] t) as [[]|e]; [|discriminate].
  change (Ok () ≫= ?k) with (k ()) in Hf. cbv beta in Hf.
  destruct (decide (NoDup _)); [|discriminate].
  change (Ok () ≫= ?k) with (k ()) in Hf. cbv beta in Hf.
  rewrite (move_world_first_Ok (locations t)) in Hf
    by (apply NoDup_locations || by rewrite elem_of_locations).
  change (Ok ?x ≫= ?k) with (k x) in Hf. cbv beta in Hf.
  injection Hf as <-. done.
Qed.

Lemma forallb_Permutation {A} (p : A → bool) (l k : list A) :
  l ≡ₚ k → forallb p l = forallb p k.
Proof.
  induction 1 as [|x l k _ IH|x y l|l k m _ IH1 _ IH2]; simpl.
  - done.
  - by rewrite IH.
  - by destruct (p x), (p y).
  - congruence.
Qed.

(** With one row at most for a date and a location, the row found does
    not depend on the order of the rows. *)
Lemma pivot_filter_Permutation (t t' : table) d l :
  t ≡ₚ t' →
  NoDup ((λ r, (date r, location r)) <$> t) →
  filter (λ r, date r = d ∧ location r = l) t =
  filter (λ r, date r = d ∧ location r = l) t'.
Proof.
  intros Hp Hnd.
  assert (Hfp : filter (λ r, date r = d ∧ location r = l) t ≡ₚ
                filter (λ r, date r = d ∧ location r = l) t') by (by rewrite Hp).
  assert (Hshort : ∀ x y g, filter (λ r, date r = d ∧ location r = l) t ≠ x :: y :: g).
  { intros x y g Heq.
    assert (Hndf : NoDup (filter (λ r, date r = d ∧ location r = l) t)).
    { apply NoDup_filter. by eapply NoDup_fmap_1. }
    assert (Hx : x ∈ filter (λ r, date r = d ∧ location r = l) t) by (rewrite Heq; left).
    assert (Hy : y ∈ filter (λ r, date r = d ∧ location r = l) t)
      by (rewrite Heq; right; left).
    apply list_elem_of_filter in Hx as [[Hxd Hxl] Hxt].
    apply list_elem_of_filter in Hy as [[Hyd Hyl] Hyt].
    assert (x = y).
    { apply list_elem_of_lookup in Hxt as [i Hi]. apply list_elem_of_lookup in Hyt as [j Hj].
      assert (i = j).
      { eapply (NoDup_lookup _ i j (d, l) Hnd); rewrite list_lookup_fmap.
        - by rewrite Hi; simpl; rewrite Hxd, Hxl.
        - by rewrite Hj; simpl; rewrite Hyd, Hyl. }
      congruence. }
    subst y. rewrite Heq in Hndf.
    apply NoDup_cons in Hndf as [Hnin _]. apply Hnin. left. }
  destruct (filter (λ r, date r = d ∧ location r = l) t) as [|x [|y g]] eqn:Hf.
  - by apply Permutation_nil_l in Hfp.
  - by apply Permutation_singleton_l in Hfp.
  - by destruct (Hshort x y g).
Qed.

(** A wide file does not depend on the order of the rows it is made from. *)
Lemma pivot_csv_Permutation (t t' : table) output_path col_name :
  t ≡ₚ t' → pivot_csv t output_path col_name = pivot_csv t' output_path col_name.
Proof.
  intros Hp. unfold pivot_csv, require_columns, table_has_col.
  rewrite (list_filter_iff _ (λ c, forallb (has_col c) t' = false))
    by (intros c; by rewrite (forallb_Permutation _ t t')).
  destruct (filter _ [col_name]) as [|c cs]; [|done].
  change (Ok () ≫= ?k) with (k ()). cbv beta.
  destruct (decide (NoDup ((λ r, (date r, location r)) <$> t))) as [Hnd|Hnd],
           (decide (NoDup ((λ r, (date r, location r)) <$> t'))) as [Hnd'|Hnd'];
    try done.
  - change (Ok () ≫= ?k) with (k ()). cbv beta.
    rewrite <- (locations_Permutation t t' Hp), <- (dates_Permutation t t' Hp).
    destruct (move_world_first (locations t)) as [cols|e]; [|done].
    change (Ok ?x ≫= ?k) with (k x). cbv beta. do 2 f_equal.
    apply list_fmap_ext. intros _ d _. f_equal.
    apply list_fmap_ext. intros _ l _. f_equal.
    unfold pivot_cell. by rewrite (pivot_filter_Permutation t t' d l Hp Hnd).
  - destruct Hnd'. by rewrite <- Hp.
  - destruct Hnd. by rewrite Hp.
Qed.

Lemma df_table_Permutation E (df df' : table) :
  df ≡ₚ df' → df_table E df ≡ₚ df_table E df'.
Proof. intros Hp. unfold df_table. by rewrite Hp. Qed.

(** A run of [write_all] that succeeds has written every file. *)
Lemma write_all_Ok steps files b :
  write_all steps = (files, Ok b) → Forall2 (λ s f, s = Ok f) steps files.
Proof.
  revert files. induction steps as [|[f|e] steps IH]; intros files Hw; simpl in Hw.
  - injection Hw as <- _. constructor.
  - destruct (write_all steps) as [fs r] eqn:Hrest. injection Hw as <- ->.
    constructor; [done|]. by apply IH.
  - discriminate.
Qed.

(** A run of [write_all] stops at the first exception. *)
Lemma write_all_Raise steps1 e steps2 :
  Forall (λ s, ∃ f, s = Ok f) steps1 →
  ∃ files, write_all (steps1 ++ Raise e :: steps2) = (files, Raise e) ∧
           Forall2 (λ s f, s = Ok f) steps1 files.
Proof.
  induction 1 as [|s steps1 [f ->] _ (files & Hw & Hfs)]; simpl.
  - exists []. split; [done|constructor].
  - rewrite Hw. exists (f :: files). split; [done|]. by constructor.
Qed.

Lemma standard_export_unfold E df output_path grapher_name :
  standard_export E df output_path grapher_name =
    write_all (grapher_csv df output_path grapher_name
               :: full_data_csv (df_table E df) output_path
               :: (pivot_csv (df_table E df) output_path
                     <$> (BASE_MEASURES ++ PER_MILLION_MEASURES))).
Proof. reflexivity. Qed.

(** C7.  In every wide file that [standard_export] writes, World is the
    first location column, and the file is the same whatever the order of
    the rows of the frame.  When the frame being pivoted has no World
    row, every wide file is an exception: [standard_export] raises, and
    the only files it has written are the grapher file and the full-data
    file that come before the wide files. *)
Theorem pivot_export_world_first E (df df' : table) output_path grapher_name files result :
  standard_export E df output_path grapher_name = (files, result) →
  let t := df_table E df in
  (result = Ok true →
     "World" ∈ location <$> t ∧
     ∃ grapher full_data pivots,
       files = grapher :: full_data :: pivots ∧
       Forall2 (λ col f,
                  pivot_csv t output_path col = Ok f ∧
                  file_name f = csv_path output_path col ∧
                  header f = "date" :: "World" :: filter (λ l, l ≠ "World") (locations t))
               (BASE_MEASURES ++ PER_MILLION_MEASURES) pivots) ∧
  (df ≡ₚ df' →
     ∀ col, pivot_csv (df_table E df') output_path col = pivot_csv t output_path col) ∧
  ("World" ∉ location <$> t →
     (∃ e, result = Raise e) ∧
     (∀ col, ∃ e, pivot_csv t output_path col = Raise e) ∧
     ∀ f, f ∈ files →
       grapher_csv df output_path grapher_name = Ok f ∨ full_data_csv t output_path = Ok f).
Proof.
  intros Hexp t. rewrite standard_export_unfold in Hexp. fold t in Hexp.
  split; [|split].
  - intros ->. apply write_all_Ok in Hexp.
    apply Forall2_cons_inv_l in Hexp as (grapher & files1 & _ & Hexp & ->).
    apply Forall2_cons_inv_l in Hexp as (full_data & pivots & _ & Hexp & ->).
    apply Forall2_fmap_l in Hexp.
    assert (Hpiv : Forall2 (λ col f,
                     pivot_csv t output_path col = Ok f ∧
                     file_name f = csv_path output_path col ∧
                     header f = pivot_header t)
                   (BASE_MEASURES ++ PER_MILLION_MEASURES) pivots).
    { eapply Forall2_impl; [exact Hexp|]. intros col f Hf. split; [done|].
      by destruct (pivot_csv_header t output_path col f Hf) as (_ & ? & ?). }
    split; [|by exists grapher, full_data, pivots].
    destruct (Forall2_lookup_l _ _ _ 0%nat "new_cases" Hexp) as (f & _ & Hf);
      [reflexivity|].
    by destruct (pivot_csv_header t output_path "new_cases" f Hf) as (? & _).
  - intros Hp col. symmetry. apply pivot_csv_Permutation. by apply df_table_Permutation.
  - intros Hnin.
    assert (Hall : ∀ col, ∃ e, pivot_csv t output_path col = Raise e)
      by (intros col; by apply pivot_csv_no_world).
    change (BASE_MEASURES ++ PER_MILLION_MEASURES)
      with ("new_cases" :: tail (BASE_MEASURES ++ PER_MILLION_MEASURES)) in Hexp.
    rewrite fmap_cons in Hexp.
    destruct (Hall "new_cases") as [e He]. rewrite He in Hexp.
    generalize dependent (pivot_csv t output_path
                            <$> tail (BASE_MEASURES ++ PER_MILLION_MEASURES)).
    intros rest Hexp.
    destruct (grapher_csv df output_path grapher_name) as [g|eg] eqn:Hg;
      [destruct (full_data_csv t output_path) as [fd|ef] eqn:Hfd|];
      simpl in Hexp; injection Hexp as <- <-; (split; [by eexists|]); (split; [done|]);
      intros f Hf.
    + apply elem_of_cons in Hf as [->|Hf]; [by left|].
      apply list_elem_of_singleton in Hf as ->. by right.
    + apply list_elem_of_singleton in Hf as ->. by left.
    + by apply elem_of_nil in Hf.
Qed.

Lemma pivot_export_world_first_witness :
  (∃ grapher full_data pivots,
     standard_export sample_collaborators export_sample "out" "grapher"
       = (grapher :: full_data :: pivots, Ok true) ∧
     length pivots = 16%nat ∧
     Forall (λ f, header f =
                    [ "date"; "World"; "A"; "Asia"; "B"; "Europe"; "European Union";
                      "High income" ])
            pivots) ∧
  (∃ files e,
     standard_export sample_collaborators no_world_sample "out" "grapher"
       = (files, Raise e) ∧
     length files = 2%nat).
Proof.
  split.
  - assert (Hok : (standard_export sample_collaborators export_sample "out" "grapher").2
                  = Ok true) by (vm_compute; reflexivity).
    pose proof (surjective_pairing
                  (standard_export sample_collaborators export_sample "out" "grapher"))
      as Hexp.
    rewrite Hok in Hexp.
    destruct (pivot_export_world_first sample_collaborators export_sample export_sample
                "out" "grapher" _ _ Hexp) as [Hfirst _].
    destruct (Hfirst eq_refl) as (_ & grapher & full_data & pivots & Hfiles & Hpiv).
    rewrite Hfiles in Hexp.
    exists grapher, full_data, pivots. split; [exact Hexp|]. split.
    + rewrite <- (Forall2_length _ _ _ Hpiv). reflexivity.
    + eapply Forall2_Forall_r; [exact Hpiv|]. apply Forall_forall.
      intros col _ f (_ & _ & ->). vm_compute. reflexivity.
  - pose proof (surjective_pairing
                  (standard_export sample_collaborators no_world_sample "out" "grapher"))
      as Hexp.
    destruct (pivot_export_world_first sample_collaborators no_world_sample no_world_sample
                "out" "grapher" _ _ Hexp) as (_ & _ & Hnone).
    destruct Hnone as ([e Hraise] & _ & _).
    { apply (bool_decide_unpack _). vm_compute. exact I. }
    rewrite Hraise in Hexp.
    eexists _, e. split; [exact Hexp|]. vm_compute. reflexivity.
Defined.

(** The first wide file of the sample with its rows in reverse order. *)
Example pivot_csv_reversed :
  pivot_csv (df_table sample_collaborators (reverse export_sample)) "out" "new_cases"
  = pivot_csv (df_table sample_collaborators export_sample) "out" "new_cases".
Proof. vm_compute. reflexivity. Qed.

(* ================================================================== *)
(** ** More on the trailing zeros *)
(* ================================================================== *)

Lemma max_date_Some (t : table) m :
  max_date t = Some m → (∃ r, r ∈ t ∧ date r = m) ∧ ∀ r, r ∈ t → date r ≤ m.
Proof.
  revert m. induction t as [|x t IH]; intros m Hm; simpl in Hm; [discriminate|].
  destruct (max_date t) as [m'|] eqn:Ht.
  - destruct (IH m' eq_refl) as [(r & Hr & Hd) Hle]. injection Hm as <-. split.
    + destruct (Z.max_spec (date x) m') as [[_ ->]|[_ ->]].
      * exists r. split; [by right|done].
      * exists x. split; [left|done].
    + intros r' Hr'. apply elem_of_cons in Hr' as [->|Hr']; [lia|].
      specialize (Hle r' Hr'). lia.
  - injection Hm as <-. destruct t as [|y t]; [|discriminate].
    split; [exists x; split; [left|done]|].
    intros r' Hr'. apply list_elem_of_singleton in Hr' as ->. lia.
Qed.

Lemma max_date_None (t : table) : max_date t = None → t = [].
Proof. destruct t; [done|]. simpl. discriminate. Qed.

(** With distinct dates, exactly one row carries a date of the frame. *)
Lemma filter_date_singleton (df : table) r :
  NoDup (date <$> df) → r ∈ df → filter (λ x, date x = date r) df = [r].
Proof.
  induction df as [|y df IH]; intros Hnd Hr; [by apply elem_of_nil in Hr|].
  rewrite fmap_cons in Hnd. apply NoDup_cons in Hnd as [Hy Hnd].
  apply elem_of_cons in Hr as [->|Hr].
  - rewrite filter_cons_True by done. f_equal.
    apply filter_none. intros z Hz Heq. apply Hy. rewrite <- Heq.
    by apply list_elem_of_fmap_2.
  - rewrite filter_cons_False; [by apply IH|].
    intros Heq. apply Hy. rewrite Heq. by apply list_elem_of_fmap_2.
Qed.

(** What one block of [hide_recent_zeros] does to a frame with distinct
    dates: nothing, or the missing value on the rows after the date. *)
Lemma hide_after_cases col threshold lrd lpd (df : table) :
  NoDup (date <$> df) → (∃ r, r ∈ df ∧ date r = lpd) →
  hide_after col threshold lrd lpd df = Ok df ∨
  hide_after col threshold lrd lpd df =
    Ok (loc_assign (λ r, bool_decide (lpd < date r)) col NaN df).
Proof.
  intros Hnd (r & Hr & <-). unfold hide_after.
  destruct (decide (date r ≠ lrd)); [|by left].
  rewrite (filter_date_singleton df r Hnd Hr). simpl.
  destruct (cge (getc col r) threshold && bool_decide (lrd - date r < 7)); [by right|by left].
Qed.

Lemma loc_assign_dates mask c v (t : table) : date <$> loc_assign mask c v t = date <$> t.
Proof.
  unfold loc_assign. rewrite <- list_fmap_compose. apply list_fmap_ext.
  intros _ r _. simpl. by destruct (mask r).
Qed.

Lemma Forall2_fmap_diag {A B} (R : A → B → Prop) (f : A → B) (l : list A) :
  (∀ x, x ∈ l → R x (f x)) → Forall2 R l (f <$> l).
Proof.
  induction l as [|x l IH]; intros H; simpl; constructor.
  - apply H. left.
  - apply IH. intros y Hy. apply H. by right.
Qed.

Lemma hide_block_rows col lpd (df : table) :
  (∀ r, r ∈ df → cgt (getc col r) 0 = true → date r ≤ lpd) →
  Forall2 (λ r r', location r' = location r ∧ date r' = date r ∧
                   hidden_or_kept col r r' ∧ ∀ c, c ≠ col → getc c r' = getc c r)
          df (loc_assign (λ r, bool_decide (lpd < date r)) col NaN df).
Proof.
  intros Hmax. unfold loc_assign. apply Forall2_fmap_diag. intros r Hr.
  destruct (bool_decide (lpd < date r)) eqn:Hlt.
  - apply bool_decide_eq_true in Hlt. repeat split; try done.
    + right. rewrite getc_setc_eq. split; [done|].
      intros Hpos. specialize (Hmax r Hr Hpos). lia.
    + intros c Hc. by rewrite getc_setc_ne.
  - repeat split; try done. by left.
Qed.

Lemma Forall2_refl_on {A} (R : A → A → Prop) (l : list A) :
  (∀ x, R x x) → Forall2 R l l.
Proof. intros H. induction l; constructor; auto. Qed.

(** One block of [hide_recent_zeros] on a frame with distinct dates whose
    date is the last one with a positive value. *)
Lemma hide_after_rows col threshold lrd lpd (df : table) :
  NoDup (date <$> df) →
  max_date (filter (λ r, cgt (getc col r) 0 = true) df) = Some lpd →
  ∃ df', hide_after col threshold lrd lpd df = Ok df' ∧
    date <$> df' = date <$> df ∧
    Forall2 (λ r r', location r' = location r ∧ date r' = date r ∧
                     hidden_or_kept col r r' ∧ ∀ c, c ≠ col → getc c r' = getc c r)
            df df'.
Proof.
  intros Hnd Hmax. apply max_date_Some in Hmax as [(r & Hr & Hd) Hle].
  apply list_elem_of_filter in Hr as [Hpos Hr].
  destruct (hide_after_cases col threshold lrd lpd df Hnd) as [Hsame|Hhide];
    [by exists r| |].
  - exists df. split; [done|]. split; [done|].
    apply Forall2_refl_on. intros x. repeat split; try done. by left.
  - eexists. split; [exact Hhide|]. split; [apply loc_assign_dates|].
    apply hide_block_rows. intros x Hx Hxpos. apply Hle.
    by apply list_elem_of_filter.
Qed.

Lemma hide_recent_zeros_rows (df : table) :
  NoDup (date <$> df) →
  ∃ df', hide_recent_zeros df = Ok df' ∧ Forall2 zeros_hidden df df'.
Proof.
  intros Hnd. unfold hide_recent_zeros.
  destruct (max_date (filter (λ r, cgt (getc "new_cases" r) 0 = true) df))
    as [lpc|] eqn:Hc.
  2: { exists df. split; [done|]. apply Forall2_refl_on. intros x.
       repeat split; try done; by left. }
  destruct (hide_after_rows "new_cases" 100 (default lpc (max_date df)) lpc df Hnd Hc)
    as (df1 & -> & Hdates1 & Hrows1).
  change (Ok df1 ≫= ?k) with (k df1). cbv beta.
  destruct (max_date (filter (λ r, cgt (getc "new_deaths" r) 0 = true) df1))
    as [lpd|] eqn:Hd.
  2: { exists df1. split; [done|]. eapply Forall2_impl; [exact Hrows1|].
       intros r r' (Hl & Hdt & Hh & Hf). repeat split; try done.
       - left. by apply Hf.
       - intros c H1 _. by apply Hf. }
  destruct (hide_after_rows "new_deaths" 10 (default lpc (max_date df)) lpd df1)
    as (df2 & -> & _ & Hrows2); [by rewrite Hdates1|exact Hd|].
  exists df2. split; [done|].
  eapply Forall2_trans; [|exact Hrows1|exact Hrows2].
  intros r r1 r2 (Hl1 & Hd1 & Hh1 & Hf1) (Hl2 & Hd2 & Hh2 & Hf2).
  split; [congruence|]. split; [congruence|]. split; [|split].
  - unfold hidden_or_kept in *. rewrite (Hf2 "new_cases") by done. exact Hh1.
  - unfold hidden_or_kept in *. rewrite <- (Hf1 "new_deaths") by done. exact Hh2.
  - intros c H1 H2. rewrite Hf2 by done. by apply Hf1.
Qed.

(** X1.  On the frame of a location whose dates are distinct,
    [hide_recent_zeros] returns a frame (it does not raise); the frame
    has the same rows in the same order, and a row differs from the
    original at most in [new_cases] and [new_deaths], each of which is
    either as before or replaced by the missing value, and is never
    replaced where it was positive. *)
Theorem hide_recent_zeros_returns (df : table) :
  NoDup (date <$> df) →
  ∃ df', hide_recent_zeros df = Ok df' ∧ Forall2 zeros_hidden df df'.
Proof. exact (hide_recent_zeros_rows df). Qed.

Lemma hide_recent_zeros_returns_witness :
  ∃ df', hide_recent_zeros no_deaths_sample = Ok df' ∧
         Forall2 zeros_hidden no_deaths_sample df'.
Proof.
  apply (hide_recent_zeros_returns no_deaths_sample).
  apply (bool_decide_unpack _). vm_compute. exact I.
Defined.

(** Two rows of one date at the last positive value make [.item()] raise. *)
Example hide_recent_zeros_duplicate_date :
  hide_recent_zeros
    [ raw_row 18300 "A" (Num 200) (Num 0) (Num 200) (Num 0);
      raw_row 18300 "A" (Num 200) (Num 0) (Num 200) (Num 0);
      raw_row 18301 "A" (Num 0) (Num 0) (Num 200) (Num 0) ]
  = Raise (ValueError "can only convert an array of size 1 to a Python scalar").
Proof. vm_compute. reflexivity. Qed.

Lemma hide_after_old col threshold lrd lpd (df : table) :
  NoDup (date <$> df) → (∃ r, r ∈ df ∧ date r = lpd) → 7 ≤ lrd - lpd →
  hide_after col threshold lrd lpd df = Ok df.
Proof.
  intros Hnd (r & Hr & <-) Hold. unfold hide_after.
  destruct (decide (date r ≠ lrd)); [|done].
  rewrite (filter_date_singleton df r Hnd Hr). simpl.
  rewrite (bool_decide_eq_false_2 (lrd - date r < 7)) by lia.
  by rewrite andb_false_r.
Qed.

(** X2.  Zeros that have lasted a week are kept: on the frame of a
    location with distinct dates, when every positive [new_cases] and
    every positive [new_deaths] was reported seven days or more before
    the last reported date, [hide_recent_zeros] returns the frame
    unchanged. *)
Theorem hide_recent_zeros_keeps_old_zeros (df : table) lrd :
  NoDup (date <$> df) →
  max_date df = Some lrd →
  (∀ p, p ∈ df → cgt (getc "new_cases" p) 0 = true → 7 ≤ lrd - date p) →
  (∀ p, p ∈ df → cgt (getc "new_deaths" p) 0 = true → 7 ≤ lrd - date p) →
  hide_recent_zeros df = Ok df.
Proof.
  intros Hnd Hlrd Hcases Hdeaths. unfold hide_recent_zeros. rewrite Hlrd. simpl.
  destruct (max_date (filter (λ r, cgt (getc "new_cases" r) 0 = true) df))
    as [lpc|] eqn:Hc; [|done].
  apply max_date_Some in Hc as [(r & Hr & Hd) _].
  apply list_elem_of_filter in Hr as [Hpos Hr].
  rewrite hide_after_old; [|done|by exists r|rewrite <- Hd; by apply Hcases].
  change (Ok df ≫= ?k) with (k df). cbv beta.
  destruct (max_date (filter (λ r, cgt (getc "new_deaths" r) 0 = true) df))
    as [lpd|] eqn:Hdd; [|done].
  apply max_date_Some in Hdd as [(r' & Hr' & Hd') _].
  apply list_elem_of_filter in Hr' as [Hpos' Hr'].
  apply hide_after_old; [done|by exists r'|rewrite <- Hd'; by apply Hdeaths].
Qed.

Lemma hide_recent_zeros_keeps_old_zeros_witness :
  hide_recent_zeros
    [ raw_row 18300 "A" (Num 200) (Num 30) (Num 200) (Num 30);
      raw_row 18307 "A" (Num 0) (Num 0) (Num 200) (Num 30) ]
  = Ok [ raw_row 18300 "A" (Num 200) (Num 30) (Num 200) (Num 30);
         raw_row 18307 "A" (Num 0) (Num 0) (Num 200) (Num 30) ].
Proof.
  apply (hide_recent_zeros_keeps_old_zeros _ 18307).
  - apply (bool_decide_unpack _). vm_compute. exact I.
  - reflexivity.
  - intros p Hp Hpos.
    apply elem_of_cons in Hp as [->|Hp]; [simpl; lia|].
    apply list_elem_of_singleton in Hp as ->. vm_compute in Hpos. discriminate.
  - intros p Hp Hpos.
    apply elem_of_cons in Hp as [->|Hp]; [simpl; lia|].
    apply list_elem_of_singleton in Hp as ->. vm_compute in Hpos. discriminate.
Defined.

(* ================================================================== *)
(** ** When the pipeline returns *)
(* ================================================================== *)

Lemma traverse_Ok {A B} (f : A → outcome B) (l : list A) :
  (∀ x, x ∈ l → ∃ y, f x = Ok y) →
  ∃ ys, traverse f l = Ok ys ∧ Forall2 (λ x y, f x = Ok y) l ys.
Proof.
  induction l as [|x l IH]; intros Hf; simpl.
  - exists []. split; [done|constructor].
  - destruct (Hf x) as [y Hy]; [left|]. rewrite Hy.
    destruct IH as (ys & Hys & Hall); [intros z Hz; apply Hf; by right|].
    change (Ok y ≫= ?k) with (k y). cbv beta. rewrite Hys.
    exists (y :: ys). split; [done|]. by constructor.
Qed.

Lemma NoDup_fmap_inj_on {A B} (f : A → B) (l : list A) x y :
  NoDup (f <$> l) → x ∈ l → y ∈ l → f x = f y → x = y.
Proof.
  intros Hnd Hx Hy Heq.
  apply list_elem_of_lookup in Hx as [i Hi]. apply list_elem_of_lookup in Hy as [j Hj].
  assert (i = j).
  { apply (NoDup_lookup _ i j (f x) Hnd); rewrite list_lookup_fmap.
    - by rewrite Hi.
    - by rewrite Hj, Heq. }
  congruence.
Qed.

(** The rows of one location have distinct dates when the pairs of
    location and date are distinct. *)
Lemma group_of_NoDup_dates l (t : table) :
  NoDup ((λ r, (location r, date r)) <$> t) → NoDup (date <$> group_of l t).
Proof.
  intros Hnd. apply NoDup_fmap_2_strong.
  - intros x y Hx Hy Hd. unfold group_of in Hx, Hy.
    apply list_elem_of_filter in Hx as [Hlx Hx]. apply list_elem_of_filter in Hy as [Hly Hy].
    apply (NoDup_fmap_inj_on (λ r, (location r, date r)) t x y Hnd Hx Hy).
    by rewrite Hlx, Hly, Hd.
  - apply NoDup_filter. by eapply NoDup_fmap_1.
Qed.

Lemma elem_of_concat {A} (ls : list (list A)) x :
  x ∈ concat ls ↔ ∃ l, l ∈ ls ∧ x ∈ l.
Proof.
  induction ls as [|l ls IH]; simpl.
  - split; [by intros ?%elem_of_nil|by intros (l & ?%elem_of_nil & _)].
  - rewrite elem_of_app, IH. split.
    + intros [Hx|(l' & Hl' & Hx)]; [exists l; split; [left|done]|].
      exists l'. split; [by right|done].
    + intros (l' & Hl' & Hx). apply elem_of_cons in Hl' as [->|Hl']; [by left|].
      right. by exists l'.
Qed.

Lemma elem_of_groups (t : table) r :
  r ∈ concat ((λ l, group_of l t) <$> locations t) ↔ r ∈ t.
Proof.
  rewrite elem_of_concat. split.
  - intros (g & Hg & Hr).
    apply list_elem_of_fmap in Hg as (l & -> & _).
    unfold group_of in Hr. by apply list_elem_of_filter in Hr as [_ ?].
  - intros Hr. exists (group_of (location r) t). split.
    + apply list_elem_of_fmap. exists (location r). split; [done|].
      apply elem_of_locations. by apply list_elem_of_fmap_2.
    + unfold group_of. by apply list_elem_of_filter.
Qed.

(** [groupby("location").apply(f)] for an [f] that returns on every
    group a frame related row by row to the group: the result is related
    to the frame, row for row in both directions. *)
Lemma groupby_apply_rows (R : row → row → Prop) f (t : table) :
  (∀ l, l ∈ locations t → ∃ g', f (group_of l t) = Ok g' ∧ Forall2 R (group_of l t) g') →
  ∃ t', groupby_apply f t = Ok t' ∧
    (∀ r', r' ∈ t' → ∃ r, r ∈ t ∧ R r r') ∧
    (∀ r, r ∈ t → ∃ r', r' ∈ t' ∧ R r r').
Proof.
  intros Hf. unfold groupby_apply.
  destruct (traverse_Ok (λ l, f (group_of l t)) (locations t)) as (gs & -> & Hgs).
  { intros l Hl. destruct (Hf l Hl) as (g' & Hg' & _). by exists g'. }
  eexists. split; [reflexivity|].
  assert (Hrel : Forall2 (Forall2 R) ((λ l, group_of l t) <$> locations t) gs).
  { apply Forall2_fmap_l. apply Forall2_same_length_lookup_2.
    - by eapply Forall2_length.
    - intros i l g Hl Hg.
      pose proof (Forall2_lookup_lr _ _ _ _ _ _ Hgs Hl Hg) as Hfg. simpl in Hfg.
      destruct (Hf l) as (g' & Hg' & Hall); [by eapply list_elem_of_lookup_2|].
      assert (g' = g) as -> by congruence. done. }
  assert (Hcat : Forall2 R (concat ((λ l, group_of l t) <$> locations t)) (concat gs)).
  { clear -Hrel. induction Hrel; simpl; [constructor|]. by apply Forall2_app. }
  split.
  - intros r' Hr'. apply list_elem_of_lookup in Hr' as [i Hi].
    destruct (Forall2_lookup_r _ _ _ _ _ Hcat Hi) as (r & Hr & HR).
    exists r. split; [|done]. apply elem_of_groups. by eapply list_elem_of_lookup_2.
  - intros r Hr. apply elem_of_groups in Hr. apply list_elem_of_lookup in Hr as [i Hi].
    destruct (Forall2_lookup_l _ _ _ _ _ Hcat Hi) as (r' & Hr' & HR).
    exists r'. split; [|done]. by eapply list_elem_of_lookup_2.
Qed.

Lemma length_loc_assign mask c v (t : table) : length (loc_assign mask c v t) = length t.
Proof. unfold loc_assign. apply length_fmap. Qed.

Lemma length_discard_in_place (t : table) : length (discard_in_place t) = length t.
Proof.
  unfold discard_in_place. generalize LARGE_DATA_CORRECTIONS. intros l.
  rewrite <- (length_loc_assign (λ r, clt (getc "new_cases" r) 0) "new_cases" NaN t).
  rewrite <- (length_loc_assign (λ r, clt (getc "new_deaths" r) 0) "new_deaths" NaN
                (loc_assign _ _ _ t)).
  generalize (loc_assign (λ r, clt (getc "new_deaths" r) 0) "new_deaths" NaN
                (loc_assign (λ r, clt (getc "new_cases" r) 0) "new_cases" NaN t)).
  induction l as [|ldc l IH]; intros t0; simpl; [done|].
  by rewrite IH, length_loc_assign.
Qed.

Lemma discard_in_place_rows (t : table) :
  Forall2 (λ r r', location r' = location r ∧ date r' = date r ∧
                   (∀ m, getc ("new_" +:+ metric_name m) r' = discarded m r) ∧
                   ∀ c, c ≠ "new_cases" → c ≠ "new_deaths" → getc c r' = getc c r)
          t (discard_in_place t).
Proof.
  apply Forall2_same_length_lookup_2; [by rewrite length_discard_in_place|].
  intros i r r' Hr Hr'.
  destruct (discard_in_place_lookup t i r Hr) as (r'' & Hr'' & H).
  by assert (r'' = r') as -> by congruence.
Qed.

Lemma Forall2_keys_eq (R : row → row → Prop) (t t' : table) :
  (∀ r r', R r r' → location r' = location r ∧ date r' = date r) →
  Forall2 R t t' →
  (λ r, (location r, date r)) <$> t' = (λ r, (location r, date r)) <$> t.
Proof.
  intros HR. induction 1 as [|r r' t t' Hrr _ IH]; [done|].
  rewrite !fmap_cons, IH. destruct (HR _ _ Hrr) as [-> ->]. done.
Qed.

(** On a frame whose pairs of location and date are distinct, the
    frame-level function of [discard_rows] returns, and its result has
    the rows of the input, none lost and none added. *)
Lemma discard_rows_table_returns (t : table) :
  NoDup ((λ r, (location r, date r)) <$> t) →
  ∃ t', discard_rows_table t = Ok t' ∧
    (∀ r', r' ∈ t' → ∃ r, r ∈ t ∧ discard_result r r') ∧
    (∀ r, r ∈ t → ∃ r', r' ∈ t' ∧ discard_result r r').
Proof.
  intros Hnd. unfold discard_rows_table.
  pose proof (discard_in_place_rows t) as Hin.
  set (t0 := discard_in_place t) in *.
  assert (Hnd0 : NoDup ((λ r, (location r, date r)) <$> t0)).
  { rewrite (Forall2_keys_eq _ t t0 (λ r r' H, conj (proj1 H) (proj1 (proj2 H))) Hin).
    exact Hnd. }
  pose proof (merge_sort_Permutation row_le t0) as Hperm.
  set (t1 := merge_sort row_le t0) in *.
  assert (Hnd1 : NoDup ((λ r, (location r, date r)) <$> t1)) by (by rewrite Hperm).
  destruct (groupby_apply_rows zeros_hidden hide_recent_zeros t1)
    as (t' & Ht' & Hback & Hforth).
  { intros l _. apply hide_recent_zeros_rows. by apply group_of_NoDup_dates. }
  assert (Hcompose : ∀ r r1 r', (location r1 = location r ∧
              date r1 = date r ∧
              (∀ m, getc ("new_" +:+ metric_name m) r1 = discarded m r) ∧
              ∀ c, c ≠ "new_cases" → c ≠ "new_deaths" → getc c r1 = getc c r) →
            zeros_hidden r1 r' → discard_result r r').
  { intros r r1 r' (Hl1 & Hd1 & Hm1 & Hf1) (Hl & Hdt & Hc & Hdd & Hf).
    split; [congruence|]. split; [congruence|]. split.
    - intros [].
      + destruct Hc as [Hc|[Hc _]]; [left|right]; [|exact Hc].
        change ("new_" +:+ metric_name cases) with "new_cases".
        rewrite Hc. exact (Hm1 cases).
      + destruct Hdd as [Hdd|[Hdd _]]; [left|right]; [|exact Hdd].
        change ("new_" +:+ metric_name deaths) with "new_deaths".
        rewrite Hdd. exact (Hm1 deaths).
    - intros c H1 H2. rewrite Hf by done. by apply Hf1. }
  exists t'. split; [exact Ht'|]. split.
  - intros r' Hr'. destruct (Hback r' Hr') as (r1 & Hr1 & Hz).
    rewrite Hperm in Hr1. apply list_elem_of_lookup in Hr1 as [i Hi].
    destruct (Forall2_lookup_r _ _ _ _ _ Hin Hi) as (r & Hr & HD).
    exists r. split; [by eapply list_elem_of_lookup_2|].
    by apply (Hcompose r r1 r').
  - intros r Hr. apply list_elem_of_lookup in Hr as [i Hi].
    destruct (Forall2_lookup_l _ _ _ _ _ Hin Hi) as (r1 & Hr1 & HD).
    destruct (Hforth r1) as (r' & Hr' & Hz).
    { rewrite Hperm. by eapply list_elem_of_lookup_2. }
    exists r'. split; [done|]. by apply (Hcompose r r1 r').
Qed.

Lemma forallb_false_exists {A} (p : A → bool) (l : list A) :
  forallb p l = false → ∃ x, x ∈ l ∧ p x = false.
Proof.
  induction l as [|x l IH]; simpl; [discriminate|].
  destruct (p x) eqn:Hp; simpl.
  - intros H. destruct (IH H) as (y & Hy & Hpy). exists y. split; [by right|done].
  - intros _. exists x. split; [left|done].
Qed.

Lemma forallb_true_forall {A} (p : A → bool) (l : list A) :
  (∀ x, x ∈ l → p x = true) → forallb p l = true.
Proof.
  induction l as [|x l IH]; intros H; simpl; [done|].
  rewrite (H x) by left. apply IH. intros y Hy. apply H. by right.
Qed.

Lemma selected_lookup cs r c :
  vals (selected cs r) !! c = if decide (c ∈ cs) then vals r !! c else None.
Proof.
  unfold selected. simpl. destruct (decide (c ∈ cs)) as [Hin|Hnin].
  - destruct (vals r !! c) as [v|] eqn:Hv.
    + by apply map_lookup_filter_Some.
    + apply map_lookup_filter_None. left. done.
  - apply map_lookup_filter_None. right. intros v _. done.
Qed.

Lemma select_columns_Ok cs (t : table) :
  (∀ r c, r ∈ t → c ∈ cs → is_Some (vals r !! c)) →
  select_columns cs t = Ok (selected cs <$> t).
Proof.
  intros Hall. unfold select_columns. rewrite filter_none; [done|].
  intros c Hc. unfold table_has_col. rewrite forallb_true_forall; [done|].
  intros r Hr. unfold has_col. apply bool_decide_eq_true_2. by apply Hall.
Qed.

Lemma select_columns_KeyError cs (t : table) :
  (∃ r c, r ∈ t ∧ c ∈ cs ∧ vals r !! c = None) →
  ∃ c, select_columns cs t = Raise (KeyError c) ∧ c ∈ cs ∧
       ∃ r, r ∈ t ∧ vals r !! c = None.
Proof.
  intros (r & c & Hr & Hc & Hnone). unfold select_columns.
  destruct (filter (λ c, table_has_col t c = false) cs) as [|c' cs'] eqn:Hf.
  - assert (Hin : c ∈ filter (λ c, table_has_col t c = false) cs).
    { apply list_elem_of_filter. split; [|done].
      unfold table_has_col. destruct (forallb (has_col c) t) eqn:Hall; [|done].
      rewrite forallb_forall in Hall. specialize (Hall r).
      rewrite <- list_elem_of_In in Hall. specialize (Hall Hr).
      unfold has_col in Hall. apply bool_decide_eq_true in Hall.
      rewrite Hnone in Hall. by destruct Hall. }
    rewrite Hf in Hin. by apply elem_of_nil in Hin.
  - exists c'. split; [done|].
    assert (Hin : c' ∈ filter (λ c, table_has_col t c = false) cs) by (rewrite Hf; left).
    apply list_elem_of_filter in Hin as [Hmiss Hin]. split; [done|].
    apply forallb_false_exists in Hmiss as (r' & Hr' & Hhas).
    exists r'. split; [done|]. unfold has_col in Hhas.
    apply bool_decide_eq_false in Hhas. destruct (vals r' !! c'); [|done].
    destruct Hhas. eauto.
Qed.



(** X4.  When some row of the frame lacks one of the four input
    measures, [standardize_data] raises [KeyError] for a measure that a
    row lacks, before it has computed anything. *)
Theorem standardize_data_missing_column E (h : heap) df (t : table) :
  h !! df = Some t →
  (∃ r c, r ∈ t ∧ c ∈ INPUT_MEASURES ∧ vals r !! c = None) →
  ∃ c, standardize_data E df h = Raise (KeyError c) ∧ c ∈ INPUT_MEASURES ∧
       ∃ r, r ∈ t ∧ vals r !! c = None.
Proof.
  intros Hdf Hmiss.
  destruct (select_columns_KeyError INPUT_MEASURES t Hmiss) as (c & Hsel & Hc & Hr).
  exists c. split; [|done].
  by rewrite (standardize_data_unfold E h df t Hdf), Hsel.
Qed.

Lemma standardize_data_missing_column_witness :
  standardize_data sample_collaborators 1%positive
    {[ 1%positive := [Row 18300 "A" (<["new_cases" := Num 1]> ∅)] ]}
  = Raise (KeyError "new_deaths").
Proof.
  destruct (standardize_data_missing_column sample_collaborators
              {[ 1%positive := [Row 18300 "A" (<["new_cases" := Num 1]> ∅)] ]}
              1%positive [Row 18300 "A" (<["new_cases" := Num 1]> ∅)])
    as (c & Hrun & _ & _).
  - reflexivity.
  - exists (Row 18300 "A" (<["new_cases" := Num 1]> ∅)), "total_cases".
    split; [left|]. split; [|reflexivity]. unfold INPUT_MEASURES. do 2 right. left.
  - rewrite Hrun. vm_compute in Hrun. by injection Hrun as <-.
Defined.

(* ================================================================== *)
(** ** Rows and columns carried through the stages *)
(* ================================================================== *)

Lemma carried_refl cs r : carried cs r r.
Proof. by repeat split. Qed.

Lemma carried_trans cs r1 r2 r3 : carried cs r1 r2 → carried cs r2 r3 → carried cs r1 r3.
Proof.
  intros (Hl1 & Hd1 & Hc1) (Hl2 & Hd2 & Hc2).
  split; [congruence|]. split; [congruence|].
  intros c Hc. by rewrite Hc2, Hc1.
Qed.

Lemma carried_setc cs c v r : c ∉ cs → carried cs r (setc c v r).
Proof.
  intros Hc. repeat split. intros c' Hc'. apply getc_setc_ne. by intros ->.
Qed.

Lemma carries_refl cs t : carries cs t t.
Proof. split; intros r Hr; exists r; split; try done; apply carried_refl. Qed.

Lemma carries_trans cs t1 t2 t3 : carries cs t1 t2 → carries cs t2 t3 → carries cs t1 t3.
Proof.
  intros [B12 F12] [B23 F23]. split.
  - intros r3 Hr3. destruct (B23 r3 Hr3) as (r2 & Hr2 & H2).
    destruct (B12 r2 Hr2) as (r1 & Hr1 & H1).
    exists r1. split; [done|]. by eapply carried_trans.
  - intros r1 Hr1. destruct (F12 r1 Hr1) as (r2 & Hr2 & H2).
    destruct (F23 r2 Hr2) as (r3 & Hr3 & H3).
    exists r3. split; [done|]. by eapply carried_trans.
Qed.

Lemma carries_Forall2 cs (t t' : table) : Forall2 (carried cs) t t' → carries cs t t'.
Proof.
  intros HF. split.
  - intros r' Hr'. apply list_elem_of_lookup in Hr' as [i Hi].
    destruct (Forall2_lookup_r _ _ _ _ _ HF Hi) as (r & Hr & Hc).
    exists r. split; [by eapply list_elem_of_lookup_2|done].
  - intros r Hr. apply list_elem_of_lookup in Hr as [i Hi].
    destruct (Forall2_lookup_l _ _ _ _ _ HF Hi) as (r' & Hr' & Hc).
    exists r'. split; [by eapply list_elem_of_lookup_2|done].
Qed.

Lemma carries_Permutation cs (t t' : table) : t ≡ₚ t' → carries cs t t'.
Proof.
  intros Hp. split; intros r Hr; exists r; (split; [|apply carried_refl]).
  - by rewrite Hp.
  - by rewrite <- Hp.
Qed.

Lemma carries_foldl {A} cs (step : table → A → table) (l : list A) t :
  (∀ x t, x ∈ l → carries cs t (step t x)) → carries cs t (foldl step t l).
Proof.
  revert t. induction l as [|x l IH]; intros t Hstep; simpl; [apply carries_refl|].
  eapply carries_trans; [apply Hstep; left|]. apply IH. intros y t' Hy. apply Hstep. by right.
Qed.

Lemma carries_fmap cs (f : row → row) (t : table) :
  (∀ r, carried cs r (f r)) → carries cs t (f <$> t).
Proof.
  intros Hf. apply carries_Forall2. apply Forall2_fmap_r, Forall2_refl_on. exact Hf.
Qed.

Lemma carries_map_col cs c f t : c ∉ cs → carries cs t (map_col c f t).
Proof. intros Hc. apply carries_fmap. intros r. by apply carried_setc. Qed.

Lemma carries_loc_assign cs mask c v t : c ∉ cs → carries cs t (loc_assign mask c v t).
Proof.
  intros Hc. apply carries_fmap. intros r.
  destruct (mask r); [by apply carried_setc|apply carried_refl].
Qed.

Lemma carries_set_col cs c vs t :
  c ∉ cs → length vs = length t → carries cs t (set_col c vs t).
Proof.
  intros Hc Hlen. apply carries_Forall2. unfold set_col.
  revert vs Hlen. induction t as [|r t IH]; intros [|v vs] Hlen; simpl in *;
    try discriminate; constructor.
  - by apply carried_setc.
  - apply IH. by injection Hlen.
Qed.

Lemma carries_drop_cols cs ds t : (∀ c, c ∈ cs → c ∉ ds) → carries cs t (drop_cols ds t).
Proof.
  intros Hc. apply carries_fmap. intros r. repeat split.
  intros c' Hc'. specialize (Hc c' Hc').
  unfold getc. simpl. f_equal.
  induction ds as [|d ds IH]; simpl; [done|].
  apply not_elem_of_cons in Hc as [Hne Hc].
  rewrite lookup_delete_ne by done. by apply IH.
Qed.

Lemma carries_merge_population cs E t :
  (∀ c, c ∈ cs → c ∉ population_columns) → carries cs t (merge_population E t).
Proof.
  intros Hcs.
  assert (Hw : ∀ p y r, carried cs r (with_population p y r)).
  { intros p y r. unfold with_population.
    eapply carried_trans; apply carried_setc; intros Hin;
      apply (Hcs _ Hin); unfold population_columns; [left|right; left]. }
  unfold merge_population. split.
  - intros r' Hr'. apply list_elem_of_bind in Hr' as (r & Hr' & Hr).
    exists r. split; [done|].
    destruct (filter _ (load_population E)) as [|p ps].
    + apply list_elem_of_singleton in Hr' as ->. apply Hw.
    + apply list_elem_of_fmap in Hr' as (q & -> & _). apply Hw.
  - intros r Hr.
    destruct (filter (λ p, pop_location p = location r) (load_population E))
      as [|p ps] eqn:Hf.
    + exists (with_population NaN NaN r). split; [|apply Hw].
      apply list_elem_of_bind. exists r. split; [|done]. rewrite Hf. left.
    + exists (with_population (pop_value p) (pop_year p) r). split; [|apply Hw].
      apply list_elem_of_bind. exists r. split; [|done]. rewrite Hf. left.
Qed.

Lemma disjoint_app_l (cs A B : list string) :
  (∀ c, c ∈ cs → c ∉ A ++ B) → ∀ c, c ∈ cs → c ∉ A.
Proof. intros H c Hc Hin. apply (H c Hc). apply elem_of_app. by left. Qed.

Lemma disjoint_app_r (cs A B : list string) :
  (∀ c, c ∈ cs → c ∉ A ++ B) → ∀ c, c ∈ cs → c ∉ B.
Proof. intros H c Hc Hin. apply (H c Hc). apply elem_of_app. by right. Qed.

Lemma disjoint_not_elem (cs W : list string) w :
  (∀ c, c ∈ cs → c ∉ W) → w ∈ W → w ∉ cs.
Proof. intros H Hw Hin. by apply (H w Hin). Qed.

Section carried_columns.
Variable cs : list string.

Local Ltac lengths :=
  repeat first [ rewrite length_fmap | rewrite length_group_transform
               | rewrite length_set_col ]; try reflexivity.

Lemma carries_growth prefix periods t :
  (∀ c, c ∈ cs → c ∉ growth_columns prefix) →
  carries cs t (inject_growth_table prefix periods t).
Proof.
  intros Hcs.
  assert (H1 : cases_colname prefix ∉ cs)
    by (apply (disjoint_not_elem _ _ _ Hcs); unfold growth_columns; left).
  assert (H2 : deaths_colname prefix ∉ cs)
    by (apply (disjoint_not_elem _ _ _ Hcs); unfold growth_columns; right; left).
  assert (H3 : cases_growth_colname prefix ∉ cs)
    by (apply (disjoint_not_elem _ _ _ Hcs); unfold growth_columns; do 2 right; left).
  assert (H4 : deaths_growth_colname prefix ∉ cs)
    by (apply (disjoint_not_elem _ _ _ Hcs); unfold growth_columns; do 3 right; left).
  cbv beta zeta delta [inject_growth_table growth_null_deaths growth_null_cases
                       growth_pct growth_rolling_sums].
  eapply carries_trans; [|by apply carries_loc_assign].
  eapply carries_trans; [|by apply carries_loc_assign].
  eapply carries_trans; [|apply carries_set_col; [done|lengths]].
  eapply carries_trans; [|apply carries_set_col; [done|lengths]].
  eapply carries_trans; [|apply carries_set_col; [done|lengths]].
  apply carries_set_col; [done|lengths].
Qed.

Lemma carries_doubling E t :
  (∀ c, c ∈ cs → c ∉ doubling_columns) → carries cs t (doubling_days_table E t).
Proof.
  intros Hcs. unfold doubling_days_table.
  apply (carries_foldl cs
           (λ t '(col, (value_col, periods)),
              doubling_col E col value_col periods (null_zeros value_col t))).
  intros [col [vc p]] t' Hs.
  assert (H1 : col ∉ cs).
  { apply (disjoint_not_elem _ _ _ Hcs). unfold doubling_columns.
    apply elem_of_app. left. apply list_elem_of_fmap. by exists (col, (vc, p)). }
  assert (H2 : vc ∉ cs).
  { apply (disjoint_not_elem _ _ _ Hcs). unfold doubling_columns.
    apply elem_of_app. right. apply list_elem_of_fmap. by exists (col, (vc, p)). }
  unfold doubling_col, null_zeros, period_pct_change.
  eapply carries_trans; [by apply carries_loc_assign|].
  apply carries_set_col; [done|lengths].
Qed.

Lemma carries_per_million E measures t :
  (∀ c, c ∈ cs → c ∉ per_million_columns measures) →
  carries cs t (per_million_table E measures t).
Proof.
  intros Hcs. unfold per_million_table.
  pose proof (disjoint_app_l _ _ _ Hcs) as Hpop.
  pose proof (disjoint_app_r _ _ _ Hcs) as Hms.
  eapply carries_trans; [|by apply carries_drop_cols].
  eapply carries_trans; [by apply carries_merge_population|].
  apply carries_foldl. intros m t' Hm. unfold per_million_col. apply carries_map_col.
  apply (disjoint_not_elem _ _ _ Hms). apply list_elem_of_fmap. by exists m.
Qed.

Lemma carries_rolling_avg t :
  (∀ c, c ∈ cs → c ∉ rolling_avg_columns) → carries cs t (rolling_avg_table t).
Proof.
  intros Hcs. unfold rolling_avg_table.
  eapply carries_trans;
    [apply carries_Permutation; symmetry; apply (merge_sort_Permutation date_le)|].
  apply (carries_foldl cs (λ t '(col, (src, w, mp)), rolling_avg_col col src w mp t)).
  intros [col [[src w] mp]] t' Hs.
  assert (H1 : col ∉ cs).
  { apply (disjoint_not_elem _ _ _ Hcs). unfold rolling_avg_columns.
    apply list_elem_of_fmap. by exists (col, (src, w, mp)). }
  cbv beta zeta delta [rolling_avg_col].
  eapply carries_trans; [by apply carries_map_col|].
  apply carries_set_col; [done|lengths].
Qed.

Lemma carries_cfr t :
  (∀ c, c ∈ cs → c ∉ cfr_columns) → carries cs t (cfr_table t).
Proof.
  intros Hcs. unfold cfr_table.
  eapply carries_trans; apply carries_map_col;
    apply (disjoint_not_elem _ _ _ Hcs); unfold cfr_columns; [left|right; left].
Qed.

Lemma carries_days_since t :
  (∀ c, c ∈ cs → c ∉ days_since_columns) → carries cs t (days_since_table t).
Proof.
  intros Hcs. unfold days_since_table.
  apply (carries_foldl cs (λ t '(col, spec), days_since_col col spec t)).
  intros [col spec] t' Hs. unfold days_since_col.
  apply carries_set_col; [|lengths].
  apply (disjoint_not_elem _ _ _ Hcs). unfold days_since_columns.
  apply list_elem_of_fmap. by exists (col, spec).
Qed.

Lemma carries_exemplars E t :
  (∀ c, c ∈ cs → c ∉ exemplars_columns) → carries cs t (exemplars_table E t).
Proof.
  intros Hcs. unfold exemplars_table, exemplars_cols.
  pose proof (disjoint_app_l _ _ _ Hcs) as Hpop.
  pose proof (disjoint_app_r _ _ _ Hcs) as Hex.
  eapply carries_trans; [|by apply carries_drop_cols].
  eapply carries_trans; [by apply carries_merge_population|].
  eapply carries_trans; apply carries_map_col;
    apply (disjoint_not_elem _ _ _ Hex); [left|right; left].
Qed.

Lemma carries_after_cfr E t :
  (∀ c, c ∈ cs → c ∉ AFTER_CFR) →
  carries cs t (merge_sort row_le (exemplars_table E (days_since_table t))).
Proof.
  intros Hcs.
  eapply carries_trans; [apply carries_days_since, (disjoint_app_l _ _ _ Hcs)|].
  eapply carries_trans; [apply carries_exemplars, (disjoint_app_r _ _ _ Hcs)|].
  apply carries_Permutation. symmetry. apply (merge_sort_Permutation row_le).
Qed.

Lemma carries_after_per_million E t :
  (∀ c, c ∈ cs → c ∉ AFTER_PER_MILLION) →
  carries cs t
    (merge_sort row_le
       (exemplars_table E (days_since_table (cfr_table (rolling_avg_table t))))).
Proof.
  intros Hcs. pose proof (disjoint_app_r _ _ _ Hcs) as Hcs'.
  eapply carries_trans; [apply carries_rolling_avg, (disjoint_app_l _ _ _ Hcs)|].
  eapply carries_trans; [apply carries_cfr, (disjoint_app_l _ _ _ Hcs')|].
  apply carries_after_cfr, (disjoint_app_r _ _ _ Hcs').
Qed.

Lemma carries_after_doubling E t :
  (∀ c, c ∈ cs → c ∉ AFTER_DOUBLING) →
  carries cs t
    (merge_sort row_le
       (exemplars_table E
          (days_since_table
             (cfr_table (rolling_avg_table (per_million_table E BASE_MEASURES t)))))).
Proof.
  intros Hcs.
  eapply carries_trans; [apply carries_per_million, (disjoint_app_l _ _ _ Hcs)|].
  apply carries_after_per_million, (disjoint_app_r _ _ _ Hcs).
Qed.

Lemma carries_after_weekly E t :
  (∀ c, c ∈ cs → c ∉ AFTER_WEEKLY) →
  carries cs t
    (merge_sort row_le
       (exemplars_table E
          (days_since_table
             (cfr_table
                (rolling_avg_table
                   (per_million_table E BASE_MEASURES
                      (doubling_days_table E
                         (inject_growth_table "biweekly" 14 t)))))))).
Proof.
  intros Hcs. pose proof (disjoint_app_r _ _ _ Hcs) as Hcs1.
  eapply carries_trans; [apply carries_growth, (disjoint_app_l _ _ _ Hcs)|].
  eapply carries_trans; [apply carries_doubling, (disjoint_app_l _ _ _ Hcs1)|].
  apply carries_after_doubling, (disjoint_app_r _ _ _ Hcs1).
Qed.

Lemma carries_enrich E t :
  (∀ c, c ∈ cs → c ∉ ENRICHED) →
  carries cs (owid_aggregates_table E t) (enrich_table E t).
Proof.
  intros Hcs. rewrite enrich_table_unfold.
  eapply carries_trans; [apply carries_growth, (disjoint_app_l _ _ _ Hcs)|].
  apply carries_after_weekly, (disjoint_app_r _ _ _ Hcs).
Qed.

End carried_columns.

Lemma DAILY_not_ENRICHED c : c ∈ DAILY → c ∉ ENRICHED.
Proof.
  revert c. apply Forall_forall. apply (bool_decide_unpack _). vm_compute. exact I.
Qed.

(* ================================================================== *)
(** ** No negative daily value *)
(* ================================================================== *)

Lemma traverse_Ok_inv {A B} (f : A → outcome B) (l : list A) ys :
  traverse f l = Ok ys → Forall2 (λ x y, f x = Ok y) l ys.
Proof.
  revert ys. induction l as [|x l IH]; intros ys; simpl.
  - intros [= <-]. constructor.
  - destruct (f x) as [y|e] eqn:Hy; [|discriminate].
    change (Ok y ≫= ?k) with (k y). cbv beta.
    destruct (traverse f l) as [ys'|e]; [|discriminate].
    intros [= <-]. constructor; [done|]. by apply IH.
Qed.

Lemma groupby_apply_Ok (R : row → row → Prop) f (t t' : table) :
  (∀ g g', f g = Ok g' → Forall2 R g g') →
  groupby_apply f t = Ok t' →
  (∀ r', r' ∈ t' → ∃ r, r ∈ t ∧ R r r') ∧ (∀ r, r ∈ t → ∃ r', r' ∈ t' ∧ R r r').
Proof.
  intros Hf Hrun.
  destruct (groupby_apply_rows R f t) as (t'' & Hrun' & Hrows).
  - intros l Hl. unfold groupby_apply in Hrun.
    destruct (traverse (λ l, f (group_of l t)) (locations t)) as [gs|e] eqn:Htr;
      [|discriminate].
    apply traverse_Ok_inv in Htr. apply list_elem_of_lookup in Hl as [i Hi].
    destruct (Forall2_lookup_l _ _ _ _ _ Htr Hi) as (g' & _ & Hg').
    exists g'. split; [done|]. by apply Hf.
  - assert (t'' = t') as -> by congruence. exact Hrows.
Qed.

Lemma nulled_refl r : nulled r r.
Proof. repeat split. intros c. by left. Qed.

Lemma nulled_trans r1 r2 r3 : nulled r1 r2 → nulled r2 r3 → nulled r1 r3.
Proof.
  intros (Hl1 & Hd1 & Hc1) (Hl2 & Hd2 & Hc2).
  split; [congruence|]. split; [congruence|]. intros c.
  destruct (Hc2 c) as [->|[Hin ->]]; [apply Hc1|by right].
Qed.

Lemma hide_after_Ok col threshold lrd lpd (df df' : table) :
  col ∈ DAILY →
  hide_after col threshold lrd lpd df = Ok df' → Forall2 nulled df df'.
Proof.
  intros Hcol. unfold hide_after.
  assert (Hsame : Forall2 nulled df df) by (apply Forall2_refl_on, nulled_refl).
  destruct (decide (lpd ≠ lrd)); [|by intros [= <-]].
  destruct (item _) as [x|e]; [|discriminate].
  change (Ok x ≫= ?k) with (k x). cbv beta.
  destruct (cge x threshold && bool_decide (lrd - lpd < 7)); [|by intros [= <-]].
  intros [= <-]. apply Forall2_fmap_diag. intros r _.
  destruct (bool_decide (lpd < date r)); [|apply nulled_refl].
  repeat split. intros c. destruct (decide (c = col)) as [->|Hne].
  - right. split; [done|]. apply getc_setc_eq.
  - left. by apply getc_setc_ne.
Qed.

(** Whenever [hide_recent_zeros] returns, the frame it returns has the
    rows of the group in their order, some of their values replaced by
    the missing value. *)
Lemma hide_recent_zeros_Ok (df df' : table) :
  hide_recent_zeros df = Ok df' → Forall2 nulled df df'.
Proof.
  unfold hide_recent_zeros.
  assert (Hsame : Forall2 nulled df df) by (apply Forall2_refl_on, nulled_refl).
  destruct (max_date (filter _ df)) as [lpc|]; [|by intros [= <-]].
  destruct (hide_after "new_cases" 100 (default lpc (max_date df)) lpc df)
    as [df1|e] eqn:H1; [|discriminate].
  change (Ok df1 ≫= ?k) with (k df1). cbv beta.
  apply hide_after_Ok in H1; [|unfold DAILY; left].
  destruct (max_date (filter _ df1)) as [lpd|]; [|by intros [= <-]].
  intros H2. apply hide_after_Ok in H2; [|unfold DAILY; right; left].
  eapply Forall2_trans; [|exact H1|exact H2]. intros x y z. apply nulled_trans.
Qed.

Lemma discarded_not_negative m r : not_negative (discarded m r).
Proof.
  unfold not_negative, discarded.
  destruct (clt (getc ("new_" +:+ metric_name m) r) 0) eqn:Hlt; simpl; [done|].
  by destruct (corrected m r).
Qed.

(** Whenever [discard_rows] returns, no daily value of the frame it
    returns is below zero. *)
Lemma discard_rows_table_not_negative (t t' : table) r' m :
  discard_rows_table t = Ok t' → r' ∈ t' →
  not_negative (getc ("new_" +:+ metric_name m) r').
Proof.
  intros Hrun Hr'. unfold discard_rows_table in Hrun.
  destruct (groupby_apply_Ok nulled hide_recent_zeros _ _ hide_recent_zeros_Ok Hrun)
    as [Hback _].
  destruct (Hback r' Hr') as (r1 & Hr1 & _ & _ & Hc).
  destruct (Hc ("new_" +:+ metric_name m)) as [-> | [_ ->]]; [|done].
  rewrite (merge_sort_Permutation row_le) in Hr1.
  apply list_elem_of_lookup in Hr1 as [i Hi].
  destruct (Forall2_lookup_r _ _ _ _ _ (discard_in_place_rows t) Hi)
    as (r & _ & _ & _ & Hm & _).
  rewrite Hm. apply discarded_not_negative.
Qed.

Lemma cadd_not_negative a b :
  notnull a = true → not_negative a →
  (∃ q, b = Num q ∧ Qle_bool 0 q = true) ∨ b = PInf →
  (∃ q, cadd a b = Num q ∧ Qle_bool 0 q = true) ∨ cadd a b = PInf.
Proof.
  unfold not_negative.
  intros Hnn Ha [(y & -> & Hy)| ->]; destruct a as [x| | | |]; try discriminate;
    simpl in *; try (by right).
  left. exists (Qred (x + y)). split; [done|].
  apply negb_false_iff in Ha.
  apply Qle_bool_iff. rewrite Qred_correct.
  apply Qle_bool_iff in Ha, Hy. change 0%Q with (0 + 0)%Q. by apply Qplus_le_compat.
Qed.

(** A sum of values none of which is below zero is not below zero. *)
Lemma nansum_not_negative l :
  (∀ v, v ∈ l → not_negative v) → not_negative (nansum l).
Proof.
  intros Hl.
  assert (H : (∃ q, nansum l = Num q ∧ Qle_bool 0 q = true) ∨ nansum l = PInf).
  { unfold nansum. induction l as [|a l IH]; simpl.
    - left. by exists 0%Q.
    - rewrite filter_cons. destruct (decide (notnull a = true)) as [Ha|Ha].
      + simpl. apply cadd_not_negative; [done|apply Hl; left|].
        apply IH. intros v Hv. apply Hl. by right.
      + apply IH. intros v Hv. apply Hl. by right. }
  unfold not_negative. destruct H as [(q & -> & Hq)| ->]; simpl; [|done].
  by rewrite Hq.
Qed.

(** The rows of the frame with aggregates: the rows of the frame given,
    and for each entry of [aggregates_spec] and each date of its
    locations one row of sums. *)
Lemma elem_of_owid_aggregates_table E (t : table) r' :
  r' ∈ owid_aggregates_table E t ↔
  r' ∈ t ∨
  ∃ name include exclude d,
    (name, (include, exclude)) ∈ aggregates_spec E ∧
    d ∈ dates (aggregate_filter include exclude t) ∧
    r' = Row d name (sum_columns (filter (λ r, date r = d)
                                    (aggregate_filter include exclude t))).
Proof.
  unfold owid_aggregates_table. rewrite elem_of_app, elem_of_concat.
  split.
  - intros [Hr|(g & Hg & Hr)]; [by left|right].
    apply list_elem_of_fmap in Hg as ([name [inc exc]] & -> & Hs).
    unfold _sum_aggregate in Hr. simpl in Hr.
    apply list_elem_of_fmap in Hr as (d & -> & Hd).
    by exists name, inc, exc, d.
  - intros [Hr|(name & inc & exc & d & Hs & Hd & ->)]; [by left|right].
    exists (_sum_aggregate t name inc exc). split.
    + apply list_elem_of_fmap. by exists (name, (inc, exc)).
    + unfold _sum_aggregate. apply list_elem_of_fmap. by exists d.
Qed.

Lemma sum_columns_getc d name g c :
  getc c (Row d name (sum_columns g)) = NaN ∨
  getc c (Row d name (sum_columns g)) = nansum (column c g).
Proof.
  unfold getc. simpl. destruct g as [|r0 g]; [by left|].
  rewrite sum_columns_lookup. destruct (vals r0 !! c); simpl; [by right|by left].
Qed.

Lemma owid_aggregates_not_negative E (t : table) c :
  (∀ r, r ∈ t → not_negative (getc c r)) →
  ∀ r', r' ∈ owid_aggregates_table E t → not_negative (getc c r').
Proof.
  intros Ht r' Hr'. apply elem_of_owid_aggregates_table in Hr'
    as [Hr'|(name & inc & exc & d & _ & _ & ->)]; [by apply Ht|].
  destruct (sum_columns_getc d name
              (filter (λ r, date r = d) (aggregate_filter inc exc t)) c) as [-> | ->];
    [done|].
  apply nansum_not_negative. intros v Hv. unfold column in Hv.
  apply list_elem_of_fmap in Hv as (r & -> & Hr).
  apply list_elem_of_filter in Hr as [_ Hr].
  apply elem_of_aggregate_filter in Hr as [Hr _]. by apply Ht.
Qed.

(** X5.  Whenever [standardize_data] returns, no row of the frame it
    returns has a number of new cases or of new deaths below zero: not
    the rows of the locations, whose negative values [discard_rows]
    replaced by the missing value, and not the rows of the aggregates,
    which sum what is left. *)
Theorem standardize_data_no_negative_daily E (h h' : heap) df df' (t' : table) :
  standardize_data E df h = Ok (df', h') → h' !! df' = Some t' →
  ∀ r' m, r' ∈ t' → clt (getc ("new_" +:+ metric_name m) r') 0 = false.
Proof.
  intros Hrun Hres r' m Hr'.
  destruct (standardize_data_Ok E h df df' h' Hrun) as (t & t1 & t2 & _ & _ & Hdis & Ht' & _).
  assert (t' = enrich_table E t2) as -> by congruence.
  assert (Hm : "new_" +:+ metric_name m ∈ DAILY).
  { unfold DAILY. destruct m; [left|right; left]. }
  destruct (carries_enrich DAILY E t2 DAILY_not_ENRICHED) as [Hback _].
  destruct (Hback r' Hr') as (r & Hr & _ & _ & Hc).
  rewrite (Hc _ Hm).
  apply (owid_aggregates_not_negative E t2); [|done].
  intros r2 Hr2. by eapply discard_rows_table_not_negative.
Qed.

Lemma standardize_data_no_negative_daily_witness :
  ∃ df' (h' : heap) (t' : table),
    standardize_data sample_collaborators 1%positive {[ 1%positive := negative_sample ]}
      = Ok (df', h') ∧
    h' !! df' = Some t' ∧
    ∀ r' m, r' ∈ t' → clt (getc ("new_" +:+ metric_name m) r') 0 = false.
Proof.
  assert (Ht : is_Ok (standardize_table sample_collaborators negative_sample) = true)
    by (vm_compute; reflexivity).
  apply (is_Ok_get []) in Ht.
  assert (Hh : ({[ 1%positive := negative_sample ]} : heap) !! 1%positive
               = Some negative_sample) by reflexivity.
  destruct (standardize_data_run_Ok sample_collaborators _ _ _ _ Hh Ht)
    as (df' & h' & Hrun & Hres & _).
  eexists df', h', _. split; [exact Hrun|]. split; [exact Hres|].
  exact (standardize_data_no_negative_daily sample_collaborators _ _ _ _ _ Hrun Hres).
Defined.

(* ================================================================== *)
(** ** The rows of the result *)
(* ================================================================== *)

Lemma select_columns_Ok_inv cs (t t1 : table) :
  select_columns cs t = Ok t1 → t1 = selected cs <$> t.
Proof.
  unfold select_columns. destruct (filter _ cs); [|discriminate]. by intros [= <-].
Qed.

Lemma getc_selected cs c r : c ∈ cs → getc c (selected cs r) = getc c r.
Proof. intros Hc. unfold getc. rewrite selected_lookup. by rewrite decide_True. Qed.

Lemma discarded_selected m r : discarded m (selected INPUT_MEASURES r) = discarded m r.
Proof.
  unfold discarded.
  assert (Hm : "new_" +:+ metric_name m ∈ INPUT_MEASURES).
  { unfold INPUT_MEASURES. destruct m; [left|right; left]. }
  rewrite (getc_selected _ _ r Hm).
  replace (corrected m (selected INPUT_MEASURES r)) with (corrected m r); [done|].
  unfold corrected. apply existsb_ext. intros [[loc [[y mo] d]] m']. reflexivity.
Qed.

(** Whenever [discard_rows] returns, the frame it returns has the rows
    of the frame given, none lost and none added. *)
Lemma discard_rows_table_Ok (t t' : table) :
  discard_rows_table t = Ok t' →
  (∀ r', r' ∈ t' → ∃ r, r ∈ t ∧ discard_result r r') ∧
  (∀ r, r ∈ t → ∃ r', r' ∈ t' ∧ discard_result r r').
Proof.
  intros Hrun. unfold discard_rows_table in Hrun.
  destruct (groupby_apply_Ok nulled hide_recent_zeros _ _ hide_recent_zeros_Ok Hrun)
    as [Hback Hforth].
  pose proof (discard_in_place_rows t) as Hin.
  assert (Hcompose : ∀ r r1 r', (location r1 = location r ∧
              date r1 = date r ∧
              (∀ m, getc ("new_" +:+ metric_name m) r1 = discarded m r) ∧
              ∀ c, c ≠ "new_cases" → c ≠ "new_deaths" → getc c r1 = getc c r) →
            nulled r1 r' → discard_result r r').
  { intros r r1 r' (Hl1 & Hd1 & Hm1 & Hf1) (Hl & Hdt & Hc).
    split; [congruence|]. split; [congruence|]. split.
    - intros m. destruct (Hc ("new_" +:+ metric_name m)) as [-> | [_ ->]];
        [left; apply Hm1|by right].
    - intros c H1 H2. destruct (Hc c) as [-> | [Hd _]]; [by apply Hf1|].
      unfold DAILY in Hd. apply elem_of_cons in Hd as [->|Hd]; [done|].
      by apply list_elem_of_singleton in Hd as ->. }
  split.
  - intros r' Hr'. destruct (Hback r' Hr') as (r1 & Hr1 & Hz).
    rewrite (merge_sort_Permutation row_le) in Hr1.
    apply list_elem_of_lookup in Hr1 as [i Hi].
    destruct (Forall2_lookup_r _ _ _ _ _ Hin Hi) as (r & Hr & HD).
    exists r. split; [by eapply list_elem_of_lookup_2|]. by apply (Hcompose r r1 r').
  - intros r Hr. apply list_elem_of_lookup in Hr as [i Hi].
    destruct (Forall2_lookup_l _ _ _ _ _ Hin Hi) as (r1 & Hr1 & HD).
    destruct (Hforth r1) as (r' & Hr' & Hz).
    { rewrite (merge_sort_Permutation row_le). by eapply list_elem_of_lookup_2. }
    exists r'. split; [done|]. by apply (Hcompose r r1 r').
Qed.

Lemma doubling_days_table_rows E (t : table) :
  Forall2 (λ r r', location r' = location r ∧ date r' = date r ∧
                   (∀ c, c ∈ DAILY → getc c r' = getc c r) ∧
                   ∀ m, getc ("total_" +:+ metric_name m) r' =
                        null_if_zero (getc ("total_" +:+ metric_name m) r))
          t (doubling_days_table E t).
Proof.
  apply Forall2_same_length_lookup_2.
  - apply same_keys_length, doubling_days_table_keys.
  - intros i r r' Hr Hr'.
    destruct (doubling_days_table_lookup E t i r Hr) as (r'' & Hr'' & Hl & Hd & Hspec & Hrest).
    assert (r'' = r') as -> by congruence.
    split; [done|]. split; [done|]. split.
    + intros c Hc. apply Hrest; revert c Hc; apply Forall_forall;
        apply (bool_decide_unpack _); vm_compute; exact I.
    + intros [].
      * destruct (Hspec ("doubling_days_total_cases_3_day_period", ("total_cases", 3%nat)))
          as [Hv _]; [unfold doubling_days_spec; left|]. exact Hv.
      * destruct (Hspec ("doubling_days_total_deaths_3_day_period", ("total_deaths", 3%nat)))
          as [Hv _]; [unfold doubling_days_spec; do 2 right; left|]. exact Hv.
Qed.

Lemma INPUT_MEASURES_not_growth prefix c :
  prefix ∈ ["weekly"; "biweekly"] → c ∈ INPUT_MEASURES → c ∉ growth_columns prefix.
Proof.
  intros Hp. revert c. apply Forall_forall. revert prefix Hp. apply Forall_forall.
  apply (bool_decide_unpack _). vm_compute. exact I.
Qed.

Lemma INPUT_MEASURES_not_AFTER_DOUBLING c : c ∈ INPUT_MEASURES → c ∉ AFTER_DOUBLING.
Proof.
  revert c. apply Forall_forall. apply (bool_decide_unpack _). vm_compute. exact I.
Qed.

(** The enriched frame has the rows of the frame with aggregates, none
    lost and none added. *)
Lemma enrich_table_rows E (t : table) :
  (∀ r', r' ∈ enrich_table E t → ∃ r, r ∈ owid_aggregates_table E t ∧ enriched r r') ∧
  (∀ r, r ∈ owid_aggregates_table E t → ∃ r', r' ∈ enrich_table E t ∧ enriched r r').
Proof.
  rewrite enrich_table_unfold.
  set (A := owid_aggregates_table E t).
  assert (HG : carries INPUT_MEASURES A
                 (inject_growth_table "biweekly" 14 (inject_growth_table "weekly" 7 A))).
  { eapply carries_trans; apply carries_growth; intros c;
      apply INPUT_MEASURES_not_growth; [left|right; left]. }
  set (G := inject_growth_table "biweekly" 14 (inject_growth_table "weekly" 7 A)) in *.
  pose proof (doubling_days_table_rows E G) as HD.
  set (D := doubling_days_table E G) in *.
  pose proof (carries_after_doubling INPUT_MEASURES E D INPUT_MEASURES_not_AFTER_DOUBLING)
    as HT.
  assert (Hdaily : ∀ c, c ∈ DAILY → c ∈ INPUT_MEASURES).
  { apply Forall_forall. apply (bool_decide_unpack _). vm_compute. exact I. }
  assert (Htotal : ∀ m, "total_" +:+ metric_name m ∈ INPUT_MEASURES).
  { intros []; unfold INPUT_MEASURES; [do 2 right; left|do 3 right; left]. }
  assert (Hcompose : ∀ r rg rd r', carried INPUT_MEASURES r rg →
            (location rd = location rg ∧ date rd = date rg ∧
             (∀ c, c ∈ DAILY → getc c rd = getc c rg) ∧
             ∀ m, getc ("total_" +:+ metric_name m) rd =
                  null_if_zero (getc ("total_" +:+ metric_name m) rg)) →
            carried INPUT_MEASURES rd r' → enriched r r').
  { intros r rg rd r' (Hl1 & Hd1 & Hc1) (Hl2 & Hd2 & Hc2 & Ht2) (Hl3 & Hd3 & Hc3).
    split; [congruence|]. split; [congruence|]. split.
    - intros c Hc. rewrite Hc3, Hc2, Hc1 by auto. done.
    - intros m. rewrite Hc3, Ht2, Hc1 by auto. done. }
  destruct HG as [GB GF], HT as [TB TF]. split.
  - intros r' Hr'. destruct (TB r' Hr') as (rd & Hrd & H3).
    apply list_elem_of_lookup in Hrd as [i Hi].
    destruct (Forall2_lookup_r _ _ _ _ _ HD Hi) as (rg & Hrg & H2).
    apply list_elem_of_lookup_2 in Hrg.
    destruct (GB rg Hrg) as (r & Hr & H1).
    exists r. split; [done|]. by apply (Hcompose r rg rd r').
  - intros r Hr. destruct (GF r Hr) as (rg & Hrg & H1).
    apply list_elem_of_lookup in Hrg as [i Hi].
    destruct (Forall2_lookup_l _ _ _ _ _ HD Hi) as (rd & Hrd & H2).
    apply list_elem_of_lookup_2 in Hrd.
    destruct (TF rd Hrd) as (r' & Hr' & H3).
    exists r'. split; [done|]. by apply (Hcompose r rg rd r').
Qed.

(** X6.  Whenever [standardize_data] returns, the frame it returns holds
    every row of the frame given, under its location and date, with its
    daily values (or the missing value) and its totals (the missing
    value for zero); and a row of the result that stands for no row of
    the frame given is a row of one of the aggregates. *)
Theorem standardize_data_rows E (h h' : heap) df df' (t t' : table) :
  h !! df = Some t →
  standardize_data E df h = Ok (df', h') → h' !! df' = Some t' →
  (∀ r, r ∈ t → ∃ r', r' ∈ t' ∧ standardized r r') ∧
  (∀ r', r' ∈ t' →
     (∃ r, r ∈ t ∧ standardized r r') ∨ location r' ∈ (fst <$> aggregates_spec E)).
Proof.
  intros Hdf Hrun Hres.
  destruct (standardize_data_Ok E h df df' h' Hrun)
    as (t0 & t1 & t2 & Hdf0 & Hsel & Hdis & Ht' & _).
  assert (t0 = t) as -> by congruence.
  assert (t' = enrich_table E t2) as -> by congruence.
  apply select_columns_Ok_inv in Hsel as ->.
  destruct (discard_rows_table_Ok _ _ Hdis) as [DB DF].
  destruct (enrich_table_rows E t2) as [EB EF].
  assert (Hcompose : ∀ r r2 r', discard_result (selected INPUT_MEASURES r) r2 →
            enriched r2 r' → standardized r r').
  { intros r r2 r' (Hl1 & Hd1 & Hm1 & Hf1) (Hl2 & Hd2 & Hc2 & Ht2).
    split; [rewrite Hl2, Hl1; done|]. split; [rewrite Hd2, Hd1; done|]. split.
    - intros m. rewrite Hc2 by (unfold DAILY; destruct m; [left|right; left]).
      rewrite <- discarded_selected. apply Hm1.
    - intros m. rewrite Ht2, Hf1 by (by destruct m).
      rewrite getc_selected; [done|].
      unfold INPUT_MEASURES. destruct m; [do 2 right; left|do 3 right; left]. }
  split.
  - intros r Hr.
    destruct (DF (selected INPUT_MEASURES r)) as (r2 & Hr2 & H1).
    { apply list_elem_of_fmap. by exists r. }
    destruct (EF r2) as (r' & Hr' & H2).
    { apply elem_of_owid_aggregates_table. by left. }
    exists r'. split; [done|]. by apply (Hcompose r r2 r').
  - intros r' Hr'. destruct (EB r' Hr') as (r3 & Hr3 & H2).
    apply elem_of_owid_aggregates_table in Hr3
      as [Hr3|(name & inc & exc & d & Hs & _ & ->)].
    + left. destruct (DB r3 Hr3) as (rs & Hrs & H1).
      apply list_elem_of_fmap in Hrs as (r & -> & Hr).
      exists r. split; [done|]. by apply (Hcompose r r3 r').
    + right. destruct H2 as (-> & _). simpl.
      apply list_elem_of_fmap. by exists (name, (inc, exc)).
Qed.

Lemma standardize_data_rows_witness :
  ∃ df' (h' : heap) (t' : table),
    standardize_data sample_collaborators 1%positive {[ 1%positive := negative_sample ]}
      = Ok (df', h') ∧
    h' !! df' = Some t' ∧
    (∀ r, r ∈ negative_sample → ∃ r', r' ∈ t' ∧ standardized r r') ∧
    (∀ r', r' ∈ t' →
       (∃ r, r ∈ negative_sample ∧ standardized r r') ∨
       location r' ∈ (fst <$> aggregates_spec sample_collaborators)).
Proof.
  assert (Ht : is_Ok (standardize_table sample_collaborators negative_sample) = true)
    by (vm_compute; reflexivity).
  apply (is_Ok_get []) in Ht.
  assert (Hh : ({[ 1%positive := negative_sample ]} : heap) !! 1%positive
               = Some negative_sample) by reflexivity.
  destruct (standardize_data_run_Ok sample_collaborators _ _ _ _ Hh Ht)
    as (df' & h' & Hrun & Hres & _).
  eexists df', h', _. split; [exact Hrun|]. split; [exact Hres|].
  exact (standardize_data_rows sample_collaborators _ _ _ _ _ _ Hh Hrun Hres).
Defined.

(* ================================================================== *)
(** ** The order of the result *)
(* ================================================================== *)

Lemma row_le_spec a b :
  row_le a b ↔
  String_as_OT.lt (location a) (location b) ∨
  (location a = location b ∧ date a ≤ date b).
Proof.
  unfold row_le. destruct (String.compare (location a) (location b)) eqn:Hc.
  - apply String_as_OT.cmp_eq in Hc. split; [by right|].
    intros [Hlt|[_ Hd]]; [|done].
    rewrite Hc in Hlt. by apply String_as_OT.lt_not_eq in Hlt.
  - apply String_as_OT.cmp_lt in Hc. split; [by left|done].
  - split; [done|]. intros [Hlt|[Heq _]].
    + apply String_as_OT.cmp_lt in Hlt. unfold String_as_OT.cmp in Hlt. congruence.
    + apply String_as_OT.cmp_eq in Heq. unfold String_as_OT.cmp in Heq. congruence.
Qed.

Global Instance row_le_total : Total row_le.
Proof.
  intros a b. rewrite !row_le_spec.
  destruct (String_as_OT.compare (location a) (location b)) as [Hlt|Heq|Hgt].
  - by left; left.
  - destruct (Z.le_ge_cases (date a) (date b)); [left|right]; right; by split.
  - by right; left.
Qed.

Global Instance row_le_trans : Transitive row_le.
Proof.
  intros a b c. rewrite !row_le_spec.
  intros [Hab|[Hab Hd1]] [Hbc|[Hbc Hd2]].
  - left. by eapply String_as_OT.lt_trans.
  - left. by rewrite <- Hbc.
  - left. by rewrite Hab.
  - right. split; [congruence|lia].
Qed.

Lemma StronglySorted_lookup_lt {A} (R : relation A) (l : list A) i j a b :
  StronglySorted R l → l !! i = Some a → l !! j = Some b → (i < j)%nat → R a b.
Proof.
  intros Hs. revert i j. induction Hs as [|x l Hs IH Hall]; intros i j Ha Hb Hij.
  - by rewrite lookup_nil in Ha.
  - destruct j as [|j]; [lia|]. destruct i as [|i]; simpl in *.
    + injection Ha as <-. rewrite Forall_forall in Hall. apply Hall.
      by eapply list_elem_of_lookup_2.
    + apply (IH i j); [done..|lia].
Qed.

(** X7.  Whenever [standardize_data] returns, the rows of the frame it
    returns are in the order of their location, and under one location in
    the order of their date: every row comes before every later one in
    the order of [sort_values(by=["location", "date"])]. *)
Theorem standardize_data_sorted E (h h' : heap) df df' (t' : table) :
  standardize_data E df h = Ok (df', h') → h' !! df' = Some t' →
  ∀ i j a b, t' !! i = Some a → t' !! j = Some b → (i < j)%nat →
    String.leb (location a) (location b) = true ∧
    (location a = location b → date a ≤ date b).
Proof.
  intros Hrun Hres i j a b Ha Hb Hij.
  destruct (standardize_data_Ok E h df df' h' Hrun) as (t & t1 & t2 & _ & _ & _ & Ht' & _).
  assert (t' = enrich_table E t2) as -> by congruence.
  rewrite enrich_table_unfold in Ha, Hb.
  assert (Hle : row_le a b).
  { eapply (StronglySorted_lookup_lt row_le); [|exact Ha|exact Hb|exact Hij].
    apply (StronglySorted_merge_sort row_le). }
  apply row_le_spec in Hle as [Hlt|[Heq Hd]].
  - split.
    + apply (proj2 (string_le_spec _ _)). by right.
    + intros Heq. rewrite Heq in Hlt. by apply String_as_OT.lt_not_eq in Hlt.
  - split; [|done]. apply (proj2 (string_le_spec _ _)). by left.
Qed.

Lemma standardize_data_sorted_witness :
  ∃ df' (h' : heap) (t' : table),
    standardize_data sample_collaborators 1%positive {[ 1%positive := negative_sample ]}
      = Ok (df', h') ∧
    h' !! df' = Some t' ∧
    ∀ i j a b, t' !! i = Some a → t' !! j = Some b → (i < j)%nat →
      String.leb (location a) (location b) = true ∧
      (location a = location b → date a ≤ date b).
Proof.
  assert (Ht : is_Ok (standardize_table sample_collaborators negative_sample) = true)
    by (vm_compute; reflexivity).
  apply (is_Ok_get []) in Ht.
  assert (Hh : ({[ 1%positive := negative_sample ]} : heap) !! 1%positive
               = Some negative_sample) by reflexivity.
  destruct (standardize_data_run_Ok sample_collaborators _ _ _ _ Hh Ht)
    as (df' & h' & Hrun & Hres & _).
  eexists df', h', _. split; [exact Hrun|]. split; [exact Hres|].
  exact (standardize_data_sorted sample_collaborators _ _ _ _ _ Hrun Hres).
Defined.

(* ================================================================== *)
(** ** The case fatality ratio in the result *)
(* ================================================================== *)





(* ================================================================== *)
(** ** Growth at the start of a series, and its range *)
(* ================================================================== *)

Lemma rolling_short agg w mp l k : (S k < mp)%nat → nth_cell (rolling agg w mp l) k = NaN.
Proof.
  intros Hk. unfold nth_cell, rolling. rewrite list_lookup_imap.
  destruct (l !! k); simpl; [|done].
  rewrite decide_False; [done|].
  intros Hle. pose proof (length_filter (λ c, notnull c = true) (window w k l)) as Hf.
  unfold window in *. rewrite length_drop, length_take in Hf. lia.
Qed.

Lemma foldr_cadd_not_NA obs :
  (∀ v, v ∈ obs → notnull v = true) → foldr cadd zero obs ≠ NA.
Proof.
  induction obs as [|a obs IH]; intros Hobs; simpl; [done|].
  assert (Ha : notnull a = true) by (apply Hobs; left).
  assert (Hrest : foldr cadd zero obs ≠ NA).
  { apply IH. intros v Hv. apply Hobs. by right. }
  destruct a, (foldr cadd zero obs); simpl in *; done.
Qed.

Lemma rolling_sum_not_NA w mp l k : nth_cell (rolling_sum w mp l) k ≠ NA.
Proof.
  unfold nth_cell, rolling_sum, rolling. rewrite list_lookup_imap.
  destruct (l !! k); simpl; [|done].
  destruct (decide _); [|done].
  apply foldr_cadd_not_NA. intros v Hv. by apply list_elem_of_filter in Hv as [Hv _].
Qed.

Lemma growth_of_pct_finite x : growth_of_pct x ≠ PInf ∧ growth_of_pct x ≠ NInf.
Proof.
  destruct x; cbv beta iota delta [growth_of_pct np_round num replace_inf cmul];
    split; discriminate.
Qed.

(** The growth of a rolling sum is missing while the series is shorter
    than two periods less two records. *)
Lemma growth_start_value periods c l (df : table) k :
  (k < 2 * periods - 2)%nat →
  growth_of_pct (nth_cell (pct_change periods (location_sums periods c l df)) k) = NaN.
Proof.
  intros Hk. set (sums := location_sums periods c l df).
  destruct (decide (k < length sums)%nat) as [Hlt|Hge].
  - rewrite pct_change_nth by done. destruct (decide (periods ≤ k)%nat); [|done].
    assert (Hprev : nth_cell sums (k - periods) = NaN).
    { unfold sums, location_sums, rolling_sum. apply rolling_short. lia. }
    rewrite Hprev.
    pose proof (rolling_sum_not_NA periods (periods - 1)
                  (column c (group_of l df)) k) as Hna.
    change (rolling_sum periods (periods - 1) (column c (group_of l df))) with sums in Hna.
    by destruct (nth_cell sums k).
  - unfold nth_cell. rewrite lookup_ge_None_2; [done|].
    rewrite length_pct_change. lia.
Qed.

Lemma length_inject_growth_table prefix periods (t : table) :
  length (inject_growth_table prefix periods t) = length t.
Proof.
  cbv beta zeta delta [inject_growth_table growth_null_deaths growth_null_cases
                       growth_pct growth_rolling_sums].
  rewrite !length_loc_assign.
  repeat first [ rewrite length_set_col | rewrite length_fmap
               | rewrite length_group_transform ]; reflexivity.
Qed.

(** X9.  In the frame that [_inject_growth] leaves, the rolling sums of
    a location are missing on its first [periods - 2] records (five for
    the weekly sums, twelve for the biweekly ones), its growth is missing
    on its first [2 * periods - 2] records (twelve and twenty-six), and
    the growth is never infinite: a division by a sum of zero gives
    [pd.NA]. *)
Theorem growth_missing_at_start prefix periods df (h : heap) (t : table) i r :
  (prefix, periods) ∈ growth_periods →
  h !! df = Some t →
  t !! i = Some r →
  ∃ h' t' r',
    _inject_growth df prefix periods h = Ok (df, h') ∧
    h' !! df = Some t' ∧ t' !! i = Some r' ∧
    ((rank_in_group t i (location r) < periods - 2)%nat →
       getc (cases_colname prefix) r' = NaN ∧ getc (deaths_colname prefix) r' = NaN) ∧
    ((rank_in_group t i (location r) < 2 * periods - 2)%nat →
       getc (cases_growth_colname prefix) r' = NaN ∧
       getc (deaths_growth_colname prefix) r' = NaN) ∧
    ∀ c, c ∈ growth_pct_columns prefix → getc c r' ≠ PInf ∧ getc c r' ≠ NInf.
Proof.
  intros Hp Hdf Hr.
  destruct (inject_growth_table_lookup prefix periods (growth_cols_distinct _ _ Hp) t i r Hr)
    as (r' & Hr' & _ & _ & _ & _ & Hgc & Hgd & Hc & Hdc).
  exists (<[df := inject_growth_table prefix periods t]> h),
         (inject_growth_table prefix periods t), r'.
  split; [by apply _inject_growth_run|].
  split; [apply lookup_insert_eq|]. split; [done|]. split; [|split].
  - intros Hrank. rewrite Hc, Hdc. unfold location_sums, rolling_sum.
    rewrite !rolling_short by lia.
    by destruct (isnull (getc "new_cases" r)), (isnull (getc "new_deaths" r)).
  - intros Hrank. rewrite Hgc, Hgd. by rewrite !growth_start_value.
  - intros c Hin. unfold growth_pct_columns in Hin.
    apply elem_of_cons in Hin as [->|Hin]; [|apply list_elem_of_singleton in Hin as ->].
    + rewrite Hgc. apply growth_of_pct_finite.
    + rewrite Hgd. apply growth_of_pct_finite.
Qed.

Lemma growth_missing_at_start_witness :
  ∃ h' t' r',
    _inject_growth 1%positive "weekly" 7 {[ 1%positive := growth_sample ]}
      = Ok (1%positive, h') ∧
    h' !! 1%positive = Some t' ∧ t' !! 11%nat = Some r' ∧
    getc "weekly_pct_growth_cases" r' = NaN ∧
    getc "weekly_pct_growth_cases" r' ≠ PInf.
Proof.
  assert (Hr : ∃ r, growth_sample !! 11%nat = Some r ∧
                    rank_in_group growth_sample 11 (location r) = 11%nat).
  { eexists. split; [reflexivity|]. vm_compute. reflexivity. }
  destruct Hr as (r & Hr & Hrank).
  destruct (growth_missing_at_start "weekly" 7 1%positive
              {[ 1%positive := growth_sample ]} growth_sample 11 r)
    as (h' & t' & r' & Hrun & Hres & Hr' & _ & Hstart & Hfin).
  - unfold growth_periods. left.
  - reflexivity.
  - exact Hr.
  - exists h', t', r'. split; [exact Hrun|]. split; [exact Hres|]. split; [exact Hr'|].
    split.
    + apply Hstart. rewrite Hrank. lia.
    + apply (Hfin "weekly_pct_growth_cases"). unfold growth_pct_columns. left.
Defined.

Lemma carries_after_biweekly cs E t :
  (∀ c, c ∈ cs → c ∉ AFTER_BIWEEKLY) →
  carries cs t
    (merge_sort row_le
       (exemplars_table E
          (days_since_table
             (cfr_table
                (rolling_avg_table
                   (per_million_table E BASE_MEASURES (doubling_days_table E t))))))).
Proof.
  intros Hcs.
  eapply carries_trans; [apply carries_doubling, (disjoint_app_l _ _ _ Hcs)|].
  apply carries_after_doubling, (disjoint_app_r _ _ _ Hcs).
Qed.

Lemma inject_growth_table_finite prefix periods (t : table) r' c :
  (prefix, periods) ∈ growth_periods →
  r' ∈ inject_growth_table prefix periods t → c ∈ growth_pct_columns prefix →
  getc c r' ≠ PInf ∧ getc c r' ≠ NInf.
Proof.
  intros Hp Hr' Hc. apply list_elem_of_lookup in Hr' as [i Hi].
  assert (Hlt : (i < length t)%nat).
  { rewrite <- (length_inject_growth_table prefix periods). by eapply lookup_lt_Some. }
  destruct (lookup_lt_is_Some_2 _ _ Hlt) as [r Hr].
  destruct (inject_growth_table_lookup prefix periods (growth_cols_distinct _ _ Hp) t i r Hr)
    as (r'' & Hr'' & _ & _ & _ & _ & Hgc & Hgd & _).
  assert (r'' = r') as -> by congruence.
  unfold growth_pct_columns in Hc.
  apply elem_of_cons in Hc as [->|Hc]; [|apply list_elem_of_singleton in Hc as ->].
  - rewrite Hgc. apply growth_of_pct_finite.
  - rewrite Hgd. apply growth_of_pct_finite.
Qed.

Lemma weekly_growth_not_AFTER_WEEKLY c : c ∈ growth_pct_columns "weekly" → c ∉ AFTER_WEEKLY.
Proof.
  revert c. apply Forall_forall. apply (bool_decide_unpack _). vm_compute. exact I.
Qed.

Lemma biweekly_growth_not_AFTER_BIWEEKLY c :
  c ∈ growth_pct_columns "biweekly" → c ∉ AFTER_BIWEEKLY.
Proof.
  revert c. apply Forall_forall. apply (bool_decide_unpack _). vm_compute. exact I.
Qed.

(** X10.  Whenever [standardize_data] returns, none of the four growth
    columns of the frame it returns holds an infinite value. *)
Theorem standardize_data_growth_finite E (h h' : heap) df df' (t' : table) :
  standardize_data E df h = Ok (df', h') → h' !! df' = Some t' →
  ∀ r' prefix periods c,
    r' ∈ t' → (prefix, periods) ∈ growth_periods → c ∈ growth_pct_columns prefix →
    getc c r' ≠ PInf ∧ getc c r' ≠ NInf.
Proof.
  intros Hrun Hres r' prefix periods c Hr' Hp Hc.
  destruct (standardize_data_Ok E h df df' h' Hrun) as (t & t1 & t2 & _ & _ & _ & Ht' & _).
  assert (t' = enrich_table E t2) as -> by congruence.
  rewrite enrich_table_unfold in Hr'.
  pose proof Hp as Hp'. unfold growth_periods in Hp'.
  apply elem_of_cons in Hp' as [[= -> ->]|Hp'];
    [|apply list_elem_of_singleton in Hp' as [= -> ->]].
  - destruct (proj1 (carries_after_weekly (growth_pct_columns "weekly") E _
                       weekly_growth_not_AFTER_WEEKLY) r' Hr')
      as (r & Hr & _ & _ & Hsame).
    rewrite (Hsame c Hc). by eapply inject_growth_table_finite.
  - destruct (proj1 (carries_after_biweekly (growth_pct_columns "biweekly") E _
                       biweekly_growth_not_AFTER_BIWEEKLY) r' Hr')
      as (r & Hr & _ & _ & Hsame).
    rewrite (Hsame c Hc). by eapply inject_growth_table_finite.
Qed.

Lemma standardize_data_growth_finite_witness :
  ∃ df' (h' : heap) (t' : table),
    standardize_data sample_collaborators 1%positive {[ 1%positive := growth_sample ]}
      = Ok (df', h') ∧
    h' !! df' = Some t' ∧
    ∀ r', r' ∈ t' → getc "weekly_pct_growth_cases" r' ≠ PInf.
Proof.
  assert (Ht : is_Ok (standardize_table sample_collaborators growth_sample) = true)
    by (vm_compute; reflexivity).
  apply (is_Ok_get []) in Ht.
  assert (Hh : ({[ 1%positive := growth_sample ]} : heap) !! 1%positive
               = Some growth_sample) by reflexivity.
  destruct (standardize_data_run_Ok sample_collaborators _ _ _ _ Hh Ht)
    as (df' & h' & Hrun & Hres & _).
  eexists df', h', _. split; [exact Hrun|]. split; [exact Hres|].
  intros r' Hr'.
  apply (standardize_data_growth_finite sample_collaborators _ _ _ _ _ Hrun Hres
           r' "weekly" 7%nat "weekly_pct_growth_cases" Hr').
  - unfold growth_periods. left.
  - unfold growth_pct_columns. left.
Defined.

(* ================================================================== *)
(** ** Values per million people in the result *)
(* ================================================================== *)


Lemma getc_dropped c ds r :
  c ∉ ds → getc c (Row (date r) (location r) (foldr delete (vals r) ds)) = getc c r.
Proof.
  intros Hc. unfold getc. cbn [vals]. f_equal.
  induction ds as [|x ds IH]; simpl; [done|].
  apply not_elem_of_cons in Hc as [Hne Hc].
  rewrite lookup_delete_ne by done. by apply IH.
Qed.

Lemma merge_population_rows E (t : table) r1 :
  r1 ∈ merge_population E t →
  ∃ r p y, r ∈ t ∧ r1 = with_population p y r ∧ population_of E (location r) p.
Proof.
  unfold merge_population. intros Hr1.
  apply list_elem_of_bind in Hr1 as (r & Hr1 & Hr).
  destruct (filter (λ p, pop_location p = location r) (load_population E))
    as [|e es] eqn:Hf.
  - apply list_elem_of_singleton in Hr1 as ->.
    exists r, NaN, NaN. split; [done|]. split; [done|]. left. split; [done|].
    intros Hin. apply list_elem_of_fmap in Hin as (e & He & Hin).
    assert (He' : e ∈ filter (λ p, pop_location p = location r) (load_population E))
      by (by apply list_elem_of_filter).
    rewrite Hf in He'. by apply elem_of_nil in He'.
  - apply list_elem_of_fmap in Hr1 as (e' & -> & He').
    exists r, (pop_value e'), (pop_year e'). split; [done|]. split; [done|].
    right. exists e'. rewrite <- Hf in He'.
    apply list_elem_of_filter in He' as [Hl He']. by repeat split.
Qed.



Lemma per_million_names :
  NoDup ((λ m, m +:+ "_per_million") <$> BASE_MEASURES) ∧
  Forall (λ c, (c ∉ BASE_MEASURES) ∧ c ≠ "population" ∧ (c ∉ population_columns))
         ((λ m, m +:+ "_per_million") <$> BASE_MEASURES) ∧
  Forall (λ m, (m ∉ ((λ m, m +:+ "_per_million") <$> BASE_MEASURES)) ∧
               (m ∉ population_columns)) BASE_MEASURES.
Proof. repeat split; apply (bool_decide_unpack _); vm_compute; exact I. Qed.





(* ================================================================== *)
(** ** The exemplar variables in the result *)
(* ================================================================== *)

Lemma exemplars_table_rows E (t : table) r' :
  r' ∈ exemplars_table E t →
  exemplars_row E r' ∧ Forall (λ c, vals r' !! c = None) population_columns.
Proof.
  unfold exemplars_table, exemplars_cols, drop_cols, map_col. intros Hr'.
  apply list_elem_of_fmap in Hr' as (r3 & -> & Hr3).
  apply list_elem_of_fmap in Hr3 as (r2 & -> & Hr2).
  apply list_elem_of_fmap in Hr2 as (r1 & -> & Hr1).
  apply merge_population_rows in Hr1 as (r & p & y & _ & -> & Hp).
  split.
  - exists p. split; [exact Hp|].
    rewrite !getc_dropped by (apply (bool_decide_unpack _); vm_compute; exact I).
    unfold mapper_bool, mapper_days_since, with_population.
    repeat first [rewrite getc_setc_eq | rewrite getc_setc_ne by done].
    done.
  - unfold population_columns. cbn [vals foldr].
    repeat constructor.
    + rewrite lookup_delete_eq. done.
    + rewrite lookup_delete_ne by done. rewrite lookup_delete_eq. done.
Qed.

(** X12.  Whenever [standardize_data] returns, every row of the frame it
    returns has the two exemplar variables of [inject_exemplars], from
    the population of a line of the population table with the location
    of the row and from [days_since_100_total_cases] of the row itself:
    the days since the hundredth case where the population is five
    million or more, and [pd.NA] elsewhere; and 1 where moreover these
    days are 21 or more and the location has testing data, 0 elsewhere.
    The two population columns of the join are not in the result. *)
Theorem standardize_data_exemplars E (h h' : heap) df df' (t' : table) :
  standardize_data E df h = Ok (df', h') → h' !! df' = Some t' →
  ∀ r', r' ∈ t' →
    exemplars_row E r' ∧
    vals r' !! "population" = None ∧ vals r' !! "population_year" = None.
Proof.
  intros Hrun Hres r' Hr'.
  destruct (standardize_data_Ok E h df df' h' Hrun) as (t & t1 & t2 & _ & _ & _ & Ht' & _).
  assert (t' = enrich_table E t2) as -> by congruence.
  rewrite enrich_table_unfold in Hr'.
  rewrite (merge_sort_Permutation row_le) in Hr'.
  apply exemplars_table_rows in Hr' as [Hrow Hnone].
  split; [exact Hrow|].
  unfold population_columns in Hnone.
  apply Forall_cons_1 in Hnone as [Hy Hnone]. apply Forall_cons_1 in Hnone as [Hp _].
  by split.
Qed.

Lemma standardize_data_exemplars_witness :
  ∃ df' (h' : heap) (t' : table),
    standardize_data sample_collaborators 1%positive {[ 1%positive := threshold_sample ]}
      = Ok (df', h') ∧
    h' !! df' = Some t' ∧
    ∀ r', r' ∈ t' →
      exemplars_row sample_collaborators r' ∧ vals r' !! "population" = None.
Proof.
  assert (Ht : is_Ok (standardize_table sample_collaborators threshold_sample) = true)
    by (vm_compute; reflexivity).
  apply (is_Ok_get []) in Ht.
  assert (Hh : ({[ 1%positive := threshold_sample ]} : heap) !! 1%positive
               = Some threshold_sample) by reflexivity.
  destruct (standardize_data_run_Ok sample_collaborators _ _ _ _ Hh Ht)
    as (df' & h' & Hrun & Hres & _).
  eexists df', h', _. split; [exact Hrun|]. split; [exact Hres|].
  intros r' Hr'.
  destruct (standardize_data_exemplars sample_collaborators _ _ _ _ _ Hrun Hres r' Hr')
    as (Hrow & Hpop & _).
  by split.
Defined.

(* ================================================================== *)
(** ** The rows that the aggregates add *)
(* ================================================================== *)

Lemma elem_of_dict_set_eq {V} k (v : V) d : (k, v) ∈ dict_set k v d.
Proof.
  induction d as [|[k' v'] d IH]; simpl; [left|].
  destruct (decide (k' = k)); [left|by right].
Qed.

Lemma elem_of_dict_set_ne {V} k (v : V) k' v' d :
  k' ≠ k → (k', v') ∈ d → (k', v') ∈ dict_set k v d.
Proof.
  intros Hne. induction d as [|[k'' v''] d IH]; simpl; intros Hin.
  - by apply elem_of_nil in Hin.
  - apply elem_of_cons in Hin as [[= <- <-]|Hin].
    + rewrite decide_False by done. left.
    + destruct (decide (k'' = k)); right; [done|by apply IH].
Qed.

Lemma elem_of_dict_fold {V} k (v : V) d items :
  (k, v) ∈ d → (∀ kv, kv ∈ items → kv.1 ≠ k) →
  (k, v) ∈ foldl (λ d kv, dict_set kv.1 kv.2 d) d items.
Proof.
  revert d. induction items as [|kv items IH]; intros d Hin Hne; simpl; [done|].
  apply IH.
  - apply elem_of_dict_set_ne; [|done]. intros Heq. by apply (Hne kv); [left|].
  - intros kv' Hkv'. apply Hne. by right.
Qed.

Lemma elem_of_dict_of_items_head {V} k (v : V) items :
  (∀ kv, kv ∈ items → kv.1 ≠ k) → (k, v) ∈ dict_of_items ((k, v) :: items).
Proof.
  intros Hne. unfold dict_of_items.
  change (foldl (λ d kv, dict_set kv.1 kv.2 d) [] ((k, v) :: items))
    with (foldl (λ d kv, dict_set kv.1 kv.2 d) (dict_set k v []) items).
  apply elem_of_dict_fold; [apply elem_of_dict_set_eq|done].
Qed.

(** The entry of the World is the one written in [aggregates_spec]
    unless a continent or an income group of the reference data has this
    name and takes its place. *)
Lemma World_in_aggregates_spec E :
  "World" ∉ (fst <$> LOCATIONS_BY_CONTINENT E) →
  "World" ∉ (fst <$> LOCATIONS_BY_WB_INCOME_GROUP E) →
  ("World", (None, None)) ∈ aggregates_spec E.
Proof.
  intros Hc Hi. unfold aggregates_spec. cbn [app].
  apply elem_of_dict_of_items_head.
  intros kv Hkv.
  repeat (apply elem_of_cons in Hkv as [->|Hkv]; [cbn [fst]; done|]).
  apply elem_of_app in Hkv as [Hkv|Hkv].
  { apply list_elem_of_fmap in Hkv as (x & -> & Hx). cbn [fst].
    intros Heq. apply Hc. apply list_elem_of_fmap. by exists x. }
  apply elem_of_cons in Hkv as [->|Hkv]; [cbn [fst]; done|].
  apply list_elem_of_fmap in Hkv as (x & -> & Hx). cbn [fst].
  intros Heq. apply Hi. apply list_elem_of_fmap. by exists x.
Qed.

Lemma sum_aggregate_row (df : table) name include exclude d :
  let qualifying := filter (λ r, date r = d) (aggregate_filter include exclude df) in
  qualifying ≠ [] →
  ∃ r', r' ∈ _sum_aggregate df name include exclude ∧
    location r' = name ∧ date r' = d ∧
    ∀ c, (∀ r, r ∈ qualifying → is_Some (vals r !! c)) →
         getc c r' = nansum (column c qualifying).
Proof.
  intros qualifying Hne.
  exists (Row d name (sum_columns qualifying)). split; [|split; [done|split; [done|]]].
  - unfold _sum_aggregate. apply list_elem_of_fmap. exists d. split; [done|].
    apply elem_of_dates. destruct qualifying as [|r0 q] eqn:Hq; [done|].
    assert (Hr0 : r0 ∈ qualifying) by (rewrite Hq; left).
    apply list_elem_of_filter in Hr0 as [Hd Hr0]. by exists r0.
  - intros c Hc. unfold getc. cbn [vals].
    destruct qualifying as [|r0 q]; [done|].
    rewrite sum_columns_lookup.
    destruct (Hc r0) as [v Hv]; [left|]. by rewrite Hv.
Qed.

Lemma copy_run (g : table → table) (h : heap) df t :
  h !! df = Some t →
  ∃ df' (h' : heap),
    (t ← load df; alloc (g t)) h = Ok (df', h') ∧
    h' !! df' = Some (g t) ∧ h' !! df = Some t ∧ df' ≠ df.
Proof.
  intros Hdf. rewrite bind_run, (load_run _ _ _ Hdf). unfold alloc.
  set (new := fresh (dom h)).
  assert (Hnew : h !! new = None) by apply alloc_fresh.
  assert (Hne : new ≠ df) by (intros ->; congruence).
  exists new, (<[new := g t]> h). split; [done|].
  split; [apply lookup_insert_eq|]. split; [|done].
  by rewrite lookup_insert_ne.
Qed.

(** X13.  [inject_owid_aggregates] returns a new frame and leaves the
    frame it is given as it was.  The new frame holds every row of the
    frame given; for every entry of [aggregates_spec] and every date on
    which a location of the entry has a row, it holds a row under the
    name of the entry whose value in a column is the sum, missing values
    skipped, of the column over these rows; and unless the reference
    data name a continent or income group World, it holds for every date
    of the frame a World row with the sums over all rows of the date. *)
Theorem inject_owid_aggregates_rows E (h : heap) df (t : table) :
  h !! df = Some t →
  ∃ df' (h' : heap) (t' : table),
    inject_owid_aggregates E df h = Ok (df', h') ∧
    h' !! df' = Some t' ∧ h' !! df = Some t ∧ df' ≠ df ∧
    (∀ r, r ∈ t → r ∈ t') ∧
    (∀ name include exclude d,
       (name, (include, exclude)) ∈ aggregates_spec E →
       let qualifying := filter (λ r, date r = d) (aggregate_filter include exclude t) in
       qualifying ≠ [] →
       ∃ r', r' ∈ t' ∧ location r' = name ∧ date r' = d ∧
         ∀ c, (∀ r, r ∈ qualifying → is_Some (vals r !! c)) →
              getc c r' = nansum (column c qualifying)) ∧
    ("World" ∉ (fst <$> LOCATIONS_BY_CONTINENT E) →
     "World" ∉ (fst <$> LOCATIONS_BY_WB_INCOME_GROUP E) →
     ∀ r, r ∈ t →
       ∃ r', r' ∈ t' ∧ location r' = "World" ∧ date r' = date r ∧
         ∀ c, (∀ r0, r0 ∈ t → is_Some (vals r0 !! c)) →
              getc c r' = nansum (column c (filter (λ r0, date r0 = date r) t))).
Proof.
  intros Hdf.
  destruct (copy_run (owid_aggregates_table E) h df t Hdf)
    as (df' & h' & Hrun & Hres & Hold & Hne).
  exists df', h', (owid_aggregates_table E t).
  split; [exact Hrun|]. split; [exact Hres|]. split; [exact Hold|]. split; [exact Hne|].
  assert (Hentry : ∀ name include exclude d,
            (name, (include, exclude)) ∈ aggregates_spec E →
            let qualifying :=
              filter (λ r, date r = d) (aggregate_filter include exclude t) in
            qualifying ≠ [] →
            ∃ r', r' ∈ owid_aggregates_table E t ∧ location r' = name ∧ date r' = d ∧
              ∀ c, (∀ r, r ∈ qualifying → is_Some (vals r !! c)) →
                   getc c r' = nansum (column c qualifying)).
  { intros name inc exc d Hs qualifying Hq.
    destruct (sum_aggregate_row t name inc exc d Hq) as (r' & Hr' & Hl & Hd & Hsum).
    exists r'. split; [|done].
    unfold owid_aggregates_table. apply elem_of_app. right.
    apply elem_of_concat. exists (_sum_aggregate t name inc exc). split; [|done].
    apply list_elem_of_fmap. by exists (name, (inc, exc)). }
  split; [|split].
  - intros r Hr. unfold owid_aggregates_table. apply elem_of_app. by left.
  - exact Hentry.
  - intros Hc Hi r Hr.
    destruct (Hentry "World" None None (date r) (World_in_aggregates_spec E Hc Hi))
      as (r' & Hr' & Hl & Hd & Hsum).
    { change (aggregate_filter None None t) with t.
      intros Hnil.
      assert (Hin : r ∈ filter (λ r0, date r0 = date r) t) by (by apply list_elem_of_filter).
      rewrite Hnil in Hin. by apply elem_of_nil in Hin. }
    exists r'. split; [done|]. split; [done|]. split; [done|].
    intros c Hall. apply Hsum. intros r0 Hr0.
    change (aggregate_filter None None t) with t in Hr0.
    apply list_elem_of_filter in Hr0 as [_ Hr0]. by apply Hall.
Qed.

Lemma inject_owid_aggregates_rows_witness :
  ∃ df' (h' : heap) (t' : table) r',
    inject_owid_aggregates sample_collaborators 1%positive
      {[ 1%positive := all_null_sample ]} = Ok (df', h') ∧
    h' !! df' = Some t' ∧ h' !! 1%positive = Some all_null_sample ∧
    r' ∈ t' ∧ location r' = "World" ∧ date r' = 18300 ∧
    getc "total_cases" r' = Num 15.
Proof.
  destruct (inject_owid_aggregates_rows sample_collaborators
              {[ 1%positive := all_null_sample ]} 1%positive all_null_sample)
    as (df' & h' & t' & Hrun & Hres & Hold & _ & _ & _ & Hworld); [reflexivity|].
  destruct (Hworld) with (r := raw_row 18300 "China" NaN (Num 1) (Num 10) (Num 1))
    as (r' & Hr' & Hl & Hd & Hsum).
  - apply (bool_decide_unpack _). vm_compute. exact I.
  - apply (bool_decide_unpack _). vm_compute. exact I.
  - apply (bool_decide_unpack _). vm_compute. exact I.
  - exists df', h', t', r'. split; [exact Hrun|]. split; [exact Hres|].
    split; [exact Hold|]. split; [exact Hr'|]. split; [exact Hl|]. split; [exact Hd|].
    rewrite (Hsum "total_cases"); [vm_compute; reflexivity|].
    apply Forall_forall. apply (bool_decide_unpack _). vm_compute. exact I.
Defined.

(* ================================================================== *)
(** ** Rolling averages *)
(* ================================================================== *)

Lemma column_group_map_col col f l (t : table) :
  column col (group_of l (map_col col f t)) = f <$> group_of l t.
Proof.
  unfold column, map_col. induction t as [|r t IH]; [done|].
  rewrite fmap_cons, !group_of_cons. cbn [location setc].
  destruct (decide (location r = l)); [|done].
  rewrite !fmap_cons, IH. by rewrite getc_setc_eq.
Qed.

Lemma rolling_mean_nth w mp series k :
  (k < length series)%nat →
  np_round 3 (nth_cell (rolling_mean w mp series) k) =
  let obs := filter (λ c, notnull c = true) (window w k series) in
  if decide (mp ≤ length obs)%nat
  then np_round 3 (cdiv (foldr cadd zero obs) (Num (inject_Z (Z.of_nat (length obs)))))
  else NaN.
Proof.
  intros Hk. unfold nth_cell, rolling_mean, rolling. rewrite list_lookup_imap.
  destruct (lookup_lt_is_Some_2 _ _ Hk) as [x ->]. cbn [fmap option_fmap option_map default].
  cbv zeta. by destruct (decide _).
Qed.

Lemma rolling_avg_col_lookup col src w mp (t : table) i r :
  t !! i = Some r →
  ∃ r', rolling_avg_col col src w mp t !! i = Some r' ∧
    location r' = location r ∧ date r' = date r ∧
    getc col r' = rolling_avg_value w mp src t i (location r) ∧
    ∀ c, c ≠ col → getc c r' = getc c r.
Proof.
  intros Hr. cbv beta zeta delta [rolling_avg_col].
  set (f := λ r : row, astype_float (getc src r)).
  set (t1 := map_col col f t).
  assert (Hr1 : t1 !! i = Some (setc col (f r) r)).
  { unfold t1. by rewrite map_col_lookup, Hr. }
  assert (Hk : same_keys t t1).
  { unfold t1. apply Forall2_map_col. by intros v r0. }
  eexists. split.
  - apply set_col_lookup_Some; [|exact Hr1].
    rewrite list_lookup_fmap, (group_transform_lookup _ _ _ _ Hr1). reflexivity.
  - cbn [location date setc]. split; [done|]. split; [done|]. split.
    + rewrite getc_setc_eq. unfold t1 at 1. rewrite column_group_map_col.
      rewrite <- (same_keys_rank t t1 i _ Hk).
      unfold f. rewrite (list_fmap_compose (getc src) astype_float).
      change (getc src <$> group_of (location r) t)
        with (column src (group_of (location r) t)).
      rewrite rolling_mean_nth; [reflexivity|].
      rewrite length_fmap, length_column. by apply rank_in_group_lt.
    + intros c Hc. by rewrite !getc_setc_ne.
Qed.

Lemma rolling_avg_col_rows col src w mp (t : table) :
  Forall2 (λ r r', location r = location r' ∧ date r = date r' ∧
                   ∀ c, c ≠ col → getc c r' = getc c r)
          t (rolling_avg_col col src w mp t).
Proof.
  apply Forall2_same_length_lookup_2.
  - cbv beta zeta delta [rolling_avg_col]. unfold map_col.
    rewrite length_set_col by (by rewrite length_fmap, length_group_transform).
    by rewrite length_fmap.
  - intros i r r' Hr Hr'.
    destruct (rolling_avg_col_lookup col src w mp t i r Hr) as (r'' & Hr'' & Hl & Hd & _ & Hc).
    assert (r'' = r') as -> by congruence. by repeat split.
Qed.







(* ================================================================== *)
(** ** The columns of the result *)
(* ================================================================== *)

Lemma is_Some_setc c v r c' :
  is_Some (vals (setc c v r) !! c') ↔ c' = c ∨ is_Some (vals r !! c').
Proof.
  unfold setc. cbn [vals]. destruct (decide (c' = c)) as [->|Hne].
  - rewrite lookup_insert_eq. split; [by left|by eexists].
  - rewrite lookup_insert_ne by done. split; [by right|by intros [?|?]].
Qed.

Lemma exact_cols_ext cs cs' (t : table) :
  (∀ c, c ∈ cs ↔ c ∈ cs') → exact_cols cs t → exact_cols cs' t.
Proof. intros Heq H r Hr c. rewrite <- Heq. by apply H. Qed.

Lemma exact_cols_map_col cs c f (t : table) :
  exact_cols cs t → exact_cols (c :: cs) (map_col c f t).
Proof.
  intros H r' Hr'. unfold map_col in Hr'.
  apply list_elem_of_fmap in Hr' as (r & -> & Hr). intros c'.
  rewrite is_Some_setc, elem_of_cons, (H r Hr c'). done.
Qed.

Lemma exact_cols_set_col cs c vs (t : table) :
  exact_cols cs t → exact_cols (c :: cs) (set_col c vs t).
Proof.
  intros H r' Hr'. unfold set_col in Hr'.
  apply elem_of_zip_with in Hr' as (v & r & -> & _ & Hr). intros c'.
  rewrite is_Some_setc, elem_of_cons, (H r Hr c'). done.
Qed.

Lemma exact_cols_loc_assign cs mask c v (t : table) :
  c ∈ cs → exact_cols cs t → exact_cols cs (loc_assign mask c v t).
Proof.
  intros Hc H r' Hr'. unfold loc_assign in Hr'.
  apply list_elem_of_fmap in Hr' as (r & -> & Hr). intros c'.
  destruct (mask r); [|by apply H].
  rewrite is_Some_setc, (H r Hr c'). split; [intros [->|?]; done|by right].
Qed.

Lemma is_Some_dropped ds (m : gmap string cell) c :
  is_Some (foldr delete m ds !! c) ↔ (c ∉ ds) ∧ is_Some (m !! c).
Proof.
  induction ds as [|d ds IH]; simpl.
  - split; [intros H; split; [apply not_elem_of_nil|done]|by intros [_ H]].
  - rewrite not_elem_of_cons. destruct (decide (d = c)) as [->|Hne].
    + rewrite lookup_delete_eq. split; [by intros [? ?]|by intros [[? _] _]].
    + rewrite lookup_delete_ne by done. rewrite IH.
      split; [intros [? ?]; repeat split; [congruence|done..]|by intros [[_ ?] ?]].
Qed.

Lemma exact_cols_drop_cols cs ds (t : table) :
  exact_cols cs t → exact_cols (filter (λ c, c ∉ ds) cs) (drop_cols ds t).
Proof.
  intros H r' Hr'. unfold drop_cols in Hr'.
  apply list_elem_of_fmap in Hr' as (r & -> & Hr). intros c. cbn [vals].
  rewrite is_Some_dropped, list_elem_of_filter, (H r Hr c). done.
Qed.

Lemma exact_cols_merge_population cs E (t : table) :
  exact_cols cs t → exact_cols ("population" :: "population_year" :: cs) (merge_population E t).
Proof.
  intros H r' Hr'. apply merge_population_rows in Hr' as (r & p & y & Hr & -> & _).
  intros c. unfold with_population.
  rewrite !is_Some_setc, !elem_of_cons, (H r Hr c). tauto.
Qed.

Lemma exact_cols_Permutation cs (t t' : table) :
  t ≡ₚ t' → exact_cols cs t → exact_cols cs t'.
Proof. intros Hp H r Hr. apply H. by rewrite Hp. Qed.

Lemma exact_cols_owid_aggregates cs E (t : table) :
  exact_cols cs t → exact_cols cs (owid_aggregates_table E t).
Proof.
  intros H r' Hr'. apply elem_of_owid_aggregates_table in Hr'
    as [Hr'|(name & inc & exc & d & _ & Hd & ->)]; [by apply H|].
  intros c. cbn [vals].
  apply elem_of_dates in Hd as (r & Hr & Hdr).
  destruct (filter (λ r0, date r0 = d) (aggregate_filter inc exc t)) as [|r0 g] eqn:Hq.
  { assert (Hin : r ∈ filter (λ r0, date r0 = d) (aggregate_filter inc exc t))
      by (by apply list_elem_of_filter).
    rewrite Hq in Hin. by apply elem_of_nil in Hin. }
  rewrite sum_columns_lookup, fmap_is_Some.
  apply H.
  assert (Hin : r0 ∈ filter (λ r0, date r0 = d) (aggregate_filter inc exc t))
    by (rewrite Hq; left).
  apply list_elem_of_filter in Hin as [_ Hin].
  by apply elem_of_aggregate_filter in Hin as [Hin _].
Qed.

Lemma exact_cols_growth cs prefix periods (t : table) :
  exact_cols cs t → exact_cols (growth_columns prefix ++ cs) (inject_growth_table prefix periods t).
Proof.
  intros H.
  cbv beta zeta delta [inject_growth_table growth_null_deaths growth_null_cases
                       growth_pct growth_rolling_sums].
  apply (exact_cols_ext (deaths_growth_colname prefix :: cases_growth_colname prefix ::
                         deaths_colname prefix :: cases_colname prefix :: cs)).
  { intros c. unfold growth_columns. rewrite elem_of_app, !elem_of_cons, elem_of_nil. tauto. }
  apply exact_cols_loc_assign; [do 2 right; left|].
  apply exact_cols_loc_assign; [do 3 right; left|].
  by do 4 apply exact_cols_set_col.
Qed.

Lemma exact_cols_doubling_fold cs E (specs : list (string * (string * nat))) (t : table) :
  (∀ s, s ∈ specs → s.2.1 ∈ cs) →
  exact_cols cs t →
  exact_cols ((fst <$> specs) ++ cs)
    (foldl (λ t '(col, (value_col, periods)),
              doubling_col E col value_col periods (null_zeros value_col t)) t specs).
Proof.
  revert cs t. induction specs as [|[col [vc p]] specs IH]; intros cs t Hvc H; [done|].
  cbn [foldl].
  apply (exact_cols_ext ((fst <$> specs) ++ (col :: cs))).
  { intros c. rewrite fmap_cons. cbn [fst].
    rewrite !elem_of_app, !elem_of_cons. tauto. }
  apply IH.
  - intros s Hs. right. apply Hvc. by right.
  - unfold doubling_col, null_zeros. apply exact_cols_set_col.
    apply exact_cols_loc_assign; [|done]. apply (Hvc (col, (vc, p))). left.
Qed.

Lemma exact_cols_map_col_fold {A} cs (g : A → string) (f : A → row → cell) ms (t : table) :
  exact_cols cs t →
  exact_cols ((g <$> ms) ++ cs) (foldl (λ t m, map_col (g m) (f m) t) t ms).
Proof.
  revert cs t. induction ms as [|m ms IH]; intros cs t H; [done|].
  cbn [foldl].
  apply (exact_cols_ext ((g <$> ms) ++ (g m :: cs))).
  { intros c. rewrite fmap_cons, !elem_of_app, !elem_of_cons. tauto. }
  apply IH. by apply exact_cols_map_col.
Qed.

Lemma exact_cols_per_million cs E (t : table) :
  (∀ c, c ∈ cs → c ∉ population_columns) →
  exact_cols cs t →
  exact_cols (PER_MILLION_MEASURES ++ cs) (per_million_table E BASE_MEASURES t).
Proof.
  intros Hpop H. unfold per_million_table, per_million_col.
  pose proof (exact_cols_merge_population cs E t H) as H1.
  pose proof (exact_cols_map_col_fold _ (λ m, m +:+ "_per_million")
                (λ m r, np_round 3 (cdiv (getc m r)
                                         (cdiv (getc "population" r) (Num 1000000))))
                BASE_MEASURES _ H1) as H2.
  pose proof (exact_cols_drop_cols _ ["population_year"; "population"] _ H2) as H3.
  eapply exact_cols_ext; [|exact H3].
  change ["population_year"; "population"] with population_columns.
  intros c. rewrite list_elem_of_filter, !elem_of_app, !elem_of_cons.
  fold PER_MILLION_MEASURES.
  destruct per_million_names as (_ & Hw & _). rewrite Forall_forall in Hw.
  split.
  - intros [Hc [Hin|[->|[->|Hin]]]]; auto.
    + destruct Hc. unfold population_columns. right. left.
    + destruct Hc. unfold population_columns. left.
  - intros [Hin|Hin].
    + split; [|by left]. by destruct (Hw c Hin) as (_ & _ & ?).
    + split; [by apply Hpop|]. by do 3 right.
Qed.

Lemma exact_cols_rolling_fold cs (specs : list (string * (string * nat * nat))) (t : table) :
  exact_cols cs t →
  exact_cols ((fst <$> specs) ++ cs)
    (foldl (λ t '(col, (src, w, mp)), rolling_avg_col col src w mp t) t specs).
Proof.
  revert cs t. induction specs as [|[col [[src w] mp]] specs IH]; intros cs t H; [done|].
  cbn [foldl].
  apply (exact_cols_ext ((fst <$> specs) ++ (col :: cs))).
  { intros c. rewrite fmap_cons. cbn [fst].
    rewrite !elem_of_app, !elem_of_cons. tauto. }
  apply IH. cbv beta zeta delta [rolling_avg_col].
  apply (exact_cols_ext (col :: col :: cs)).
  { intros c. rewrite !elem_of_cons. tauto. }
  by apply exact_cols_set_col, exact_cols_map_col.
Qed.

Lemma exact_cols_days_since_fold cs (specs : list (string * threshold_spec)) (t : table) :
  exact_cols cs t →
  exact_cols ((fst <$> specs) ++ cs)
    (foldl (λ t '(col, spec), days_since_col col spec t) t specs).
Proof.
  revert cs t. induction specs as [|[col spec] specs IH]; intros cs t H; [done|].
  cbn [foldl].
  apply (exact_cols_ext ((fst <$> specs) ++ (col :: cs))).
  { intros c. rewrite fmap_cons. cbn [fst].
    rewrite !elem_of_app, !elem_of_cons. tauto. }
  apply IH. unfold days_since_col. by apply exact_cols_set_col.
Qed.

Lemma exact_cols_exemplars cs E (t : table) :
  (∀ c, c ∈ cs → c ∉ population_columns) →
  exact_cols cs t →
  exact_cols ("5m_pop_and_21_days_since_100_cases_and_testing"
              :: "days_since_100_total_cases_and_5m_pop" :: cs) (exemplars_table E t).
Proof.
  intros Hpop H. unfold exemplars_table, exemplars_cols.
  pose proof (exact_cols_merge_population cs E t H) as H1.
  pose proof (exact_cols_map_col _ "days_since_100_total_cases_and_5m_pop"
                mapper_days_since _ H1) as H2.
  pose proof (exact_cols_map_col _ "5m_pop_and_21_days_since_100_cases_and_testing"
                (mapper_bool E) _ H2) as H3.
  pose proof (exact_cols_drop_cols _ ["population_year"; "population"] _ H3) as H4.
  eapply exact_cols_ext; [|exact H4].
  change ["population_year"; "population"] with population_columns.
  intros c. rewrite list_elem_of_filter, !elem_of_cons. split.
  - intros [Hc [->|[->|[->|[->|Hin]]]]]; auto.
    + destruct Hc. unfold population_columns. right. left.
    + destruct Hc. unfold population_columns. left.
  - intros [->|[->|Hin]].
    + split; [|by left]. apply (bool_decide_unpack _). vm_compute. exact I.
    + split; [|by right; left]. apply (bool_decide_unpack _). vm_compute. exact I.
    + split; [by apply Hpop|]. by do 4 right.
Qed.

Lemma select_columns_Ok_has cs (t t1 : table) :
  select_columns cs t = Ok t1 → ∀ r c, r ∈ t → c ∈ cs → is_Some (vals r !! c).
Proof.
  unfold select_columns.
  destruct (filter (λ c, table_has_col t c = false) cs) as [|c0 l] eqn:Hf; [|discriminate].
  intros _ r c Hr Hc.
  destruct (table_has_col t c) eqn:Hhas.
  - unfold table_has_col in Hhas. rewrite forallb_forall in Hhas.
    specialize (Hhas r). rewrite <- list_elem_of_In in Hhas.
    specialize (Hhas Hr). unfold has_col in Hhas. by apply bool_decide_eq_true in Hhas.
  - assert (Hin : c ∈ filter (λ c, table_has_col t c = false) cs)
      by (by apply list_elem_of_filter).
    rewrite Hf in Hin. by apply elem_of_nil in Hin.
Qed.

Lemma select_columns_exact cs (t t1 : table) :
  select_columns cs t = Ok t1 → exact_cols cs t1.
Proof.
  intros Hsel. pose proof (select_columns_Ok_has cs t t1 Hsel) as Hhas.
  apply select_columns_Ok_inv in Hsel as ->.
  intros r' Hr' c. apply list_elem_of_fmap in Hr' as (r & -> & Hr).
  rewrite selected_lookup. destruct (decide (c ∈ cs)) as [Hc|Hc].
  - split; [done|]. intros _. by apply Hhas.
  - split; [by intros [? ?]|done].
Qed.

Lemma keeps_columns_refl r : keeps_columns r r.
Proof. by repeat split. Qed.

Lemma keeps_columns_trans r1 r2 r3 :
  keeps_columns r1 r2 → keeps_columns r2 r3 → keeps_columns r1 r3.
Proof.
  intros (Hl1 & Hd1 & Hc1) (Hl2 & Hd2 & Hc2).
  split; [congruence|]. split; [congruence|]. intros Hdaily c.
  rewrite Hc2, Hc1; [done|done|]. intros c' Hc'. rewrite Hc1 by done. by apply Hdaily.
Qed.

Lemma keeps_columns_setc c v r : c ∈ DAILY → keeps_columns r (setc c v r).
Proof.
  intros Hc. split; [done|]. split; [done|]. intros Hdaily c'.
  rewrite is_Some_setc. split; [intros [->|?]; [by apply Hdaily|done]|by right].
Qed.

Lemma hide_after_keeps_columns col threshold lrd lpd (df df' : table) :
  col ∈ DAILY →
  hide_after col threshold lrd lpd df = Ok df' → Forall2 keeps_columns df df'.
Proof.
  intros Hcol. unfold hide_after.
  assert (Hsame : Forall2 keeps_columns df df)
    by (apply Forall2_refl_on, keeps_columns_refl).
  destruct (decide (lpd ≠ lrd)); [|by intros [= <-]].
  destruct (item _) as [x|e]; [|discriminate].
  change (Ok x ≫= ?k) with (k x). cbv beta.
  destruct (cge x threshold && bool_decide (lrd - lpd < 7)); [|by intros [= <-]].
  intros [= <-]. apply Forall2_fmap_diag. intros r _.
  destruct (bool_decide (lpd < date r)); [|apply keeps_columns_refl].
  by apply keeps_columns_setc.
Qed.

Lemma hide_recent_zeros_keeps_columns (df df' : table) :
  hide_recent_zeros df = Ok df' → Forall2 keeps_columns df df'.
Proof.
  unfold hide_recent_zeros.
  assert (Hsame : Forall2 keeps_columns df df)
    by (apply Forall2_refl_on, keeps_columns_refl).
  destruct (max_date (filter _ df)) as [lpc|]; [|by intros [= <-]].
  destruct (hide_after "new_cases" 100 (default lpc (max_date df)) lpc df)
    as [df1|e] eqn:H1; [|discriminate].
  change (Ok df1 ≫= ?k) with (k df1). cbv beta.
  apply hide_after_keeps_columns in H1; [|unfold DAILY; left].
  destruct (max_date (filter _ df1)) as [lpd|]; [|by intros [= <-]].
  intros H2. apply hide_after_keeps_columns in H2; [|unfold DAILY; right; left].
  eapply Forall2_trans; [|exact H1|exact H2]. intros x y z. apply keeps_columns_trans.
Qed.

Lemma exact_cols_discard_in_place cs (t : table) :
  (∀ c, c ∈ DAILY → c ∈ cs) → exact_cols cs t → exact_cols cs (discard_in_place t).
Proof.
  intros Hd H. unfold discard_in_place.
  assert (H0 : exact_cols cs
                 (loc_assign (λ r, clt (getc "new_deaths" r) 0) "new_deaths" NaN
                    (loc_assign (λ r, clt (getc "new_cases" r) 0) "new_cases" NaN t))).
  { apply exact_cols_loc_assign; [apply Hd; unfold DAILY; right; left|].
    apply exact_cols_loc_assign; [apply Hd; unfold DAILY; left|done]. }
  revert H0. generalize (loc_assign (λ r, clt (getc "new_deaths" r) 0) "new_deaths" NaN
                    (loc_assign (λ r, clt (getc "new_cases" r) 0) "new_cases" NaN t)).
  generalize LARGE_DATA_CORRECTIONS. intros l.
  induction l as [|[[loc ymd] m] l IH]; intros t0 H0; [done|]. cbn [foldl].
  apply IH. apply exact_cols_loc_assign; [|done].
  apply Hd. unfold correction_col, DAILY. cbn [snd]. destruct m; [left|right; left].
Qed.

Lemma exact_cols_discard_rows cs (t t' : table) :
  (∀ c, c ∈ DAILY → c ∈ cs) →
  discard_rows_table t = Ok t' → exact_cols cs t → exact_cols cs t'.
Proof.
  intros Hd Hrun H. unfold discard_rows_table in Hrun.
  destruct (groupby_apply_Ok keeps_columns hide_recent_zeros _ _
              hide_recent_zeros_keeps_columns Hrun) as [Hback _].
  pose proof (exact_cols_discard_in_place cs t Hd H) as H0.
  intros r' Hr' c. destruct (Hback r' Hr') as (r1 & Hr1 & _ & _ & Hc).
  rewrite (merge_sort_Permutation row_le) in Hr1.
  rewrite Hc; [by apply H0|].
  intros c' Hc'. apply (H0 r1 Hr1). by apply Hd.
Qed.

Lemma list_equiv_Forall (l k : list string) :
  Forall (λ c, c ∈ k) l → Forall (λ c, c ∈ l) k → ∀ c, c ∈ l ↔ c ∈ k.
Proof. rewrite !Forall_forall. intros H1 H2 c. split; auto. Qed.

(** The enriched frame carries the four input columns and the columns
    that the stages assign, without the two columns of the join. *)
Lemma enrich_table_columns E (t : table) :
  exact_cols INPUT_MEASURES t → exact_cols OUTPUT_COLUMNS (enrich_table E t).
Proof.
  intros H. rewrite enrich_table_unfold.
  pose proof (exact_cols_owid_aggregates _ E t H) as H0.
  pose proof (exact_cols_growth _ "weekly" 7 _ H0) as H1.
  pose proof (exact_cols_growth _ "biweekly" 14 _ H1) as H2.
  assert (H3 : exact_cols
                 ((fst <$> doubling_days_spec) ++ growth_columns "biweekly" ++
                  growth_columns "weekly" ++ INPUT_MEASURES)
                 (doubling_days_table E
                    (inject_growth_table "biweekly" 14
                       (inject_growth_table "weekly" 7 (owid_aggregates_table E t))))).
  { apply exact_cols_doubling_fold; [|exact H2].
    apply Forall_forall. apply (bool_decide_unpack _). vm_compute. exact I. }
  eassert (H4 : exact_cols _ (per_million_table E BASE_MEASURES _)).
  { apply exact_cols_per_million; [|exact H3].
    apply Forall_forall. apply (bool_decide_unpack _). vm_compute. exact I. }
  eassert (H5 : exact_cols _ (rolling_avg_table _)).
  { unfold rolling_avg_table. apply exact_cols_rolling_fold.
    eapply exact_cols_Permutation; [|exact H4].
    symmetry. apply (merge_sort_Permutation date_le). }
  eassert (H6 : exact_cols _ (cfr_table _)).
  { unfold cfr_table. do 2 apply exact_cols_map_col. exact H5. }
  eassert (H7 : exact_cols _ (days_since_table _)).
  { unfold days_since_table. apply exact_cols_days_since_fold. exact H6. }
  eassert (H8 : exact_cols _ (exemplars_table E _)).
  { apply exact_cols_exemplars; [|exact H7].
    apply Forall_forall. apply (bool_decide_unpack _). vm_compute. exact I. }
  eapply exact_cols_ext;
    [|eapply exact_cols_Permutation; [|exact H8];
      symmetry; apply (merge_sort_Permutation row_le)].
  apply list_equiv_Forall; apply (bool_decide_unpack _); vm_compute; exact I.
Qed.

(** X15.  Whenever [standardize_data] returns, every row of the frame it
    returns carries the same value columns: the four input measures and
    the thirty-two columns that the stages assign, and no other; among
    them are all the columns that the grapher file of [standard_export]
    selects. *)
Theorem standardize_data_columns E (h h' : heap) df df' (t' : table) :
  standardize_data E df h = Ok (df', h') → h' !! df' = Some t' →
  ∀ r', r' ∈ t' →
    (∀ c, is_Some (vals r' !! c) ↔ c ∈ OUTPUT_COLUMNS) ∧
    ∀ c, c ∈ (fst <$> GRAPHER_COL_NAMES) → is_Some (vals r' !! c).
Proof.
  intros Hrun Hres r' Hr'.
  destruct (standardize_data_Ok E h df df' h' Hrun)
    as (t & t1 & t2 & _ & Hsel & Hdis & Ht' & _).
  assert (t' = enrich_table E t2) as -> by congruence.
  assert (Hcols : exact_cols OUTPUT_COLUMNS (enrich_table E t2)).
  { apply enrich_table_columns.
    apply (exact_cols_discard_rows _ t1 t2); [|exact Hdis|by eapply select_columns_exact].
    apply Forall_forall. apply (bool_decide_unpack _). vm_compute. exact I. }
  split; [by apply Hcols|].
  intros c Hc. apply (Hcols r' Hr'). revert c Hc. apply Forall_forall.
  apply (bool_decide_unpack _). vm_compute. exact I.
Qed.

Lemma standardize_data_columns_witness :
  ∃ df' (h' : heap) (t' : table),
    standardize_data sample_collaborators 1%positive {[ 1%positive := negative_sample ]}
      = Ok (df', h') ∧
    h' !! df' = Some t' ∧
    ∀ r', r' ∈ t' → ∀ c, is_Some (vals r' !! c) ↔ c ∈ OUTPUT_COLUMNS.
Proof.
  assert (Ht : is_Ok (standardize_table sample_collaborators negative_sample) = true)
    by (vm_compute; reflexivity).
  apply (is_Ok_get []) in Ht.
  assert (Hh : ({[ 1%positive := negative_sample ]} : heap) !! 1%positive
               = Some negative_sample) by reflexivity.
  destruct (standardize_data_run_Ok sample_collaborators _ _ _ _ Hh Ht)
    as (df' & h' & Hrun & Hres & _).
  eexists df', h', _. split; [exact Hrun|]. split; [exact Hres|].
  intros r' Hr'.
  exact (proj1 (standardize_data_columns sample_collaborators _ _ _ _ _ Hrun Hres r' Hr')).
Defined.

(* ================================================================== *)
(** ** The keys of the result *)
(* ================================================================== *)

Lemma pairs_same_keys (t t' : table) : same_keys t t' → pairs t' = pairs t.
Proof.
  unfold pairs. induction 1 as [|r r' t t' [Hl Hd] _ IH]; [done|].
  rewrite !fmap_cons, IH, Hl, Hd. done.
Qed.

Lemma same_keys_refl (t : table) : same_keys t t.
Proof. unfold same_keys. by apply Forall2_refl_on. Qed.

Lemma same_keys_fmap (f : row → row) (t : table) :
  (∀ r, location (f r) = location r ∧ date (f r) = date r) → same_keys t (f <$> t).
Proof.
  intros Hf. unfold same_keys. apply Forall2_fmap_diag. intros r _.
  destruct (Hf r) as [-> ->]. done.
Qed.

Lemma same_keys_map_col c f (t : table) : same_keys t (map_col c f t).
Proof. unfold map_col. by apply same_keys_fmap. Qed.

Lemma same_keys_loc_assign mask c v (t : table) : same_keys t (loc_assign mask c v t).
Proof. unfold loc_assign. apply same_keys_fmap. intros r. by destruct (mask r). Qed.

Lemma same_keys_drop_cols ds (t : table) : same_keys t (drop_cols ds t).
Proof. unfold drop_cols. by apply same_keys_fmap. Qed.

Lemma same_keys_foldl {A} (step : table → A → table) (l : list A) (t : table) :
  (∀ x t, same_keys t (step t x)) → same_keys t (foldl step t l).
Proof.
  intros Hstep. revert t. induction l as [|x l IH]; intros t; simpl; [apply same_keys_refl|].
  eapply same_keys_trans; [apply Hstep|apply IH].
Qed.

Local Ltac solve_len :=
  repeat first [ rewrite length_fmap | rewrite length_group_transform
               | rewrite length_set_col ]; try reflexivity.

Lemma same_keys_inject_growth_table prefix periods (t : table) :
  same_keys t (inject_growth_table prefix periods t).
Proof.
  cbv beta zeta delta [inject_growth_table growth_null_deaths growth_null_cases
                       growth_pct growth_rolling_sums].
  eapply same_keys_trans; [|apply same_keys_loc_assign].
  eapply same_keys_trans; [|apply same_keys_loc_assign].
  eapply same_keys_trans; [|apply same_keys_set_col; solve_len].
  eapply same_keys_trans; [|apply same_keys_set_col; solve_len].
  eapply same_keys_trans; [|apply same_keys_set_col; solve_len].
  apply same_keys_set_col; solve_len.
Qed.

(** A key that occurs once in a table selects at most one of its lines. *)
Lemma filter_key_unique {A B} `{EqDecision B} (f : A → B) (l : list A) k :
  NoDup (f <$> l) → (length (filter (λ x, f x = k) l) ≤ 1)%nat.
Proof.
  induction l as [|a l IH]; [simpl; lia|].
  rewrite fmap_cons, NoDup_cons. intros [Ha Hnd]. rewrite filter_cons.
  destruct (decide (f a = k)) as [Hk|Hk]; [|by apply IH].
  rewrite filter_none; [simpl; lia|].
  intros y Hy Hfy. apply Ha. apply list_elem_of_fmap. exists y. split; [congruence|done].
Qed.

(** With a population table that lists each location once, the join
    keeps the rows of the frame one by one. *)
Lemma same_keys_merge_population E (t : table) :
  NoDup (pop_location <$> load_population E) → same_keys t (merge_population E t).
Proof.
  intros Hnd. unfold merge_population, same_keys.
  induction t as [|r t IH]; [constructor|].
  rewrite bind_cons.
  pose proof (filter_key_unique pop_location (load_population E) (location r) Hnd) as Hlen.
  destruct (filter (λ p, pop_location p = location r) (load_population E))
    as [|p [|p' ps]]; simpl in Hlen; [| |lia].
  - simpl. constructor; [done|exact IH].
  - simpl. constructor; [done|exact IH].
Qed.

Lemma same_keys_per_million_table E measures (t : table) :
  NoDup (pop_location <$> load_population E) →
  same_keys t (per_million_table E measures t).
Proof.
  intros Hnd. unfold per_million_table.
  eapply same_keys_trans; [by apply same_keys_merge_population|].
  eapply same_keys_trans; [|apply same_keys_drop_cols].
  apply same_keys_foldl. intros m t'. apply same_keys_map_col.
Qed.

Lemma same_keys_cfr_table (t : table) : same_keys t (cfr_table t).
Proof.
  unfold cfr_table. eapply same_keys_trans; apply same_keys_map_col.
Qed.

Lemma same_keys_days_since_table (t : table) : same_keys t (days_since_table t).
Proof.
  unfold days_since_table.
  apply (same_keys_foldl (λ t '(col, spec), days_since_col col spec t)).
  intros [col spec] t'. unfold days_since_col.
  apply same_keys_set_col. by rewrite length_group_transform.
Qed.

Lemma same_keys_exemplars_table E (t : table) :
  NoDup (pop_location <$> load_population E) → same_keys t (exemplars_table E t).
Proof.
  intros Hnd. unfold exemplars_table, exemplars_cols.
  eapply same_keys_trans; [by apply same_keys_merge_population|].
  eapply same_keys_trans; [|apply same_keys_drop_cols].
  eapply same_keys_trans; apply same_keys_map_col.
Qed.

Lemma pairs_merge_sort (R : relation row) `{!∀ x y, Decision (R x y)} (t : table) :
  pairs (merge_sort R t) ≡ₚ pairs t.
Proof. unfold pairs. apply fmap_Permutation, merge_sort_Permutation. Qed.

Lemma pairs_same_keys_perm (t t' : table) : same_keys t t' → pairs t' ≡ₚ pairs t.
Proof. intros H. by rewrite (pairs_same_keys t t' H). Qed.

Lemma pairs_rolling_avg_table (t : table) : pairs (rolling_avg_table t) ≡ₚ pairs t.
Proof.
  unfold rolling_avg_table.
  etrans; [apply pairs_same_keys_perm|apply (pairs_merge_sort date_le)].
  apply (same_keys_foldl (λ t '(col, (src, w, mp)), rolling_avg_col col src w mp t)).
  intros [col [[src w] mp]] t'.
  eapply Forall2_impl; [apply rolling_avg_col_rows|]. by intros r r' (? & ? & _).
Qed.

(** With a population table that lists each location once, the stages
    after the aggregates keep the pairs of date and location, each as
    often as it was there. *)
Lemma enrich_table_pairs E (t : table) :
  NoDup (pop_location <$> load_population E) →
  pairs (enrich_table E t) ≡ₚ pairs (owid_aggregates_table E t).
Proof.
  intros Hnd. rewrite enrich_table_unfold.
  etrans; [apply (pairs_merge_sort row_le)|].
  etrans; [apply pairs_same_keys_perm, same_keys_exemplars_table, Hnd|].
  etrans; [apply pairs_same_keys_perm, same_keys_days_since_table|].
  etrans; [apply pairs_same_keys_perm, same_keys_cfr_table|].
  etrans; [apply pairs_rolling_avg_table|].
  etrans; [apply pairs_same_keys_perm, same_keys_per_million_table, Hnd|].
  etrans; [apply pairs_same_keys_perm, doubling_days_table_keys|].
  etrans; [apply pairs_same_keys_perm, same_keys_inject_growth_table|].
  apply pairs_same_keys_perm, same_keys_inject_growth_table.
Qed.

Lemma pairs_Forall2 (R : row → row → Prop) (t t' : table) :
  (∀ r r', R r r' → location r' = location r ∧ date r' = date r) →
  Forall2 R t t' → pairs t' = pairs t.
Proof.
  intros HR. unfold pairs. induction 1 as [|r r' t t' Hrr _ IH]; [done|].
  rewrite !fmap_cons, IH. destruct (HR _ _ Hrr) as [-> ->]. done.
Qed.

Lemma groupby_apply_Ok_Forall2 (R : row → row → Prop) f (t t' : table) :
  (∀ g g', f g = Ok g' → Forall2 R g g') →
  groupby_apply f t = Ok t' →
  Forall2 R (concat ((λ l, group_of l t) <$> locations t)) t'.
Proof.
  intros Hf Hrun. unfold groupby_apply in Hrun.
  destruct (traverse (λ l, f (group_of l t)) (locations t)) as [gs|e] eqn:Htr;
    [|discriminate].
  injection Hrun as <-. apply traverse_Ok_inv in Htr.
  induction Htr as [|l g' ls gs Hg _ IH]; [constructor|].
  rewrite fmap_cons. cbn [concat]. apply Forall2_app; [by apply Hf|exact IH].
Qed.

Lemma NoDup_pairs_groups (t : table) ls :
  NoDup ls → NoDup (pairs t) →
  NoDup (pairs (concat ((λ l, group_of l t) <$> ls))).
Proof.
  intros Hls Ht. induction Hls as [|l ls Hl Hls IH]; [constructor|].
  rewrite fmap_cons. cbn [concat]. unfold pairs. rewrite fmap_app.
  apply NoDup_app. split; [|split; [|exact IH]].
  - apply (sublist_NoDup _ (pairs t)); [done|].
    unfold pairs, group_of. apply fmap_sublist, sublist_filter.
  - intros x Hx Hx'.
    apply list_elem_of_fmap in Hx as (r & -> & Hr).
    apply list_elem_of_filter in Hr as [Hloc _].
    apply list_elem_of_fmap in Hx' as (r' & Heq & Hr').
    apply elem_of_concat in Hr' as (g & Hg & Hr').
    apply list_elem_of_fmap in Hg as (l' & -> & Hl').
    apply list_elem_of_filter in Hr' as [Hloc' _].
    injection Heq as _ Heq. apply Hl. congruence.
Qed.

(** [discard_rows] keeps the pairs of date and location distinct. *)
Lemma discard_rows_table_pairs (t t' : table) :
  discard_rows_table t = Ok t' → NoDup (pairs t) → NoDup (pairs t').
Proof.
  intros Hrun Hnd. unfold discard_rows_table in Hrun.
  pose proof (groupby_apply_Ok_Forall2 nulled hide_recent_zeros _ _
                hide_recent_zeros_Ok Hrun) as HF.
  rewrite (pairs_Forall2 nulled _ _ (λ r r' H, conj (proj1 H) (proj1 (proj2 H))) HF).
  apply NoDup_pairs_groups; [apply NoDup_locations|].
  rewrite (pairs_merge_sort row_le).
  rewrite (pairs_Forall2 _ _ _ (λ r r' H, conj (proj1 H) (proj1 (proj2 H)))
             (discard_in_place_rows t)).
  exact Hnd.
Qed.

Lemma dict_set_keys {V} k (v : V) d :
  fst <$> dict_set k v d =
  if decide (k ∈ (fst <$> d)) then fst <$> d else (fst <$> d) ++ [k].
Proof.
  induction d as [|[k' v'] d IH].
  - simpl. done.
  - cbn [dict_set]. rewrite (fmap_cons fst (k', v') d). cbn [fst].
    destruct (decide (k' = k)) as [->|Hne].
    + rewrite fmap_cons. cbn [fst]. rewrite decide_True; [done|]. left.
    + rewrite fmap_cons, IH. cbn [fst].
      destruct (decide (k ∈ (fst <$> d))) as [Hin|Hnin].
      * rewrite decide_True; [done|]. by right.
      * rewrite decide_False; [done|]. apply not_elem_of_cons. split; [congruence|done].
Qed.

Lemma NoDup_dict_fold {V} (d items : list (string * V)) :
  NoDup (fst <$> d) →
  NoDup (fst <$> foldl (λ d kv, dict_set kv.1 kv.2 d) d items).
Proof.
  revert d. induction items as [|kv items IH]; intros d Hd; simpl; [done|].
  apply IH. rewrite dict_set_keys. destruct (decide _) as [Hin|Hnin]; [done|].
  apply NoDup_app. split; [done|]. split; [|apply NoDup_singleton].
  intros x Hx Hx'. apply list_elem_of_singleton in Hx' as ->. done.
Qed.

(** A dict has each key once. *)
Lemma NoDup_aggregates_spec E : NoDup (fst <$> aggregates_spec E).
Proof. unfold aggregates_spec, dict_of_items. apply NoDup_dict_fold. constructor. Qed.

Lemma NoDup_pairs_aggregates (t : table) (specs : list (string * aggregate_params)) :
  NoDup (fst <$> specs) →
  NoDup (pairs (concat ((λ kv, _sum_aggregate t kv.1 kv.2.1 kv.2.2) <$> specs))).
Proof.
  induction specs as [|[name [inc exc]] specs IH]; [constructor|].
  rewrite !fmap_cons. cbn [fst snd concat]. intros [Hname Hnd]%NoDup_cons.
  unfold pairs. rewrite fmap_app. apply NoDup_app. split; [|split; [|by apply IH]].
  - unfold _sum_aggregate. rewrite <- list_fmap_compose.
    apply NoDup_fmap_2_strong; [|apply NoDup_dates].
    intros d d' _ _ Heq. by injection Heq.
  - intros x Hx Hx'.
    apply list_elem_of_fmap in Hx as (r & -> & Hr).
    unfold _sum_aggregate in Hr. apply list_elem_of_fmap in Hr as (d & -> & _).
    apply list_elem_of_fmap in Hx' as (r' & Heq & Hr').
    apply elem_of_concat in Hr' as (g & Hg & Hr').
    apply list_elem_of_fmap in Hg as ([name' [inc' exc']] & -> & Hs).
    unfold _sum_aggregate in Hr'. apply list_elem_of_fmap in Hr' as (d' & -> & _).
    cbn [date location fst snd] in Heq. injection Heq as _ Heq.
    apply Hname. apply list_elem_of_fmap. exists (name', (inc', exc')). by split.
Qed.

(** When no location of the frame bears the name of an aggregate, the
    frame with aggregates has distinct pairs of date and location. *)
Lemma NoDup_pairs_owid_aggregates E (t : table) :
  NoDup (pairs t) →
  (∀ r, r ∈ t → location r ∉ (fst <$> aggregates_spec E)) →
  NoDup (pairs (owid_aggregates_table E t)).
Proof.
  intros Hnd Hloc. unfold owid_aggregates_table, pairs. rewrite fmap_app.
  apply NoDup_app. split; [exact Hnd|]. split.
  - intros x Hx Hx'.
    apply list_elem_of_fmap in Hx as (r & -> & Hr).
    apply list_elem_of_fmap in Hx' as (r' & Heq & Hr').
    apply elem_of_concat in Hr' as (g & Hg & Hr').
    apply list_elem_of_fmap in Hg as ([name [inc exc]] & -> & Hs).
    unfold _sum_aggregate in Hr'. apply list_elem_of_fmap in Hr' as (d & -> & _).
    cbn [date location fst snd] in Heq. injection Heq as _ Heq.
    apply (Hloc r Hr). rewrite Heq. apply list_elem_of_fmap. by exists (name, (inc, exc)).
  - apply NoDup_pairs_aggregates, NoDup_aggregates_spec.
Qed.

(* ================================================================== *)
(** ** Exporting the result *)
(* ================================================================== *)

Lemma require_columns_Ok cs (t : table) :
  (∀ r c, r ∈ t → c ∈ cs → is_Some (vals r !! c)) → require_columns cs t = Ok ().
Proof.
  intros Hall. unfold require_columns. rewrite filter_none; [done|].
  intros c Hc. unfold table_has_col. rewrite forallb_true_forall; [done|].
  intros r Hr. unfold has_col. apply bool_decide_eq_true_2. by apply Hall.
Qed.

Lemma write_all_all_Ok steps :
  Forall (λ s, ∃ f, s = Ok f) steps →
  ∃ files, write_all steps = (files, Ok true) ∧ length files = length steps.
Proof.
  induction 1 as [|s steps [f ->] _ (files & Hw & Hlen)]; simpl.
  - by exists [].
  - rewrite Hw. exists (f :: files). split; [done|]. simpl. by rewrite Hlen.
Qed.

Lemma grapher_csv_Ok (t : table) output_path grapher_name :
  (∀ r c, r ∈ t → c ∈ (fst <$> GRAPHER_COL_NAMES) → is_Some (vals r !! c)) →
  ∃ f, grapher_csv t output_path grapher_name = Ok f.
Proof.
  intros Hall. unfold grapher_csv. rewrite (require_columns_Ok _ _ Hall). by eexists.
Qed.

Lemma full_data_csv_Ok (t : table) output_path :
  (∀ r c, r ∈ t → c ∈ BASE_MEASURES → is_Some (vals r !! c)) →
  ∃ f, full_data_csv t output_path = Ok f.
Proof.
  intros Hall. unfold full_data_csv. cbv zeta.
  rewrite (filter_none (λ c, c ∉ filter (λ c, frame_has_col t c = true) FULL_DATA_COLS)).
  - by eexists.
  - intros c Hc Hnin. apply Hnin. apply list_elem_of_filter. split.
    + unfold frame_has_col. apply orb_true_iff. right.
      unfold table_has_col. apply forallb_true_forall. intros r Hr.
      unfold has_col. apply bool_decide_eq_true_2. by apply Hall.
    + unfold FULL_DATA_COLS. apply elem_of_app. by right.
Qed.

Lemma pivot_csv_Ok (t : table) output_path col_name :
  (∀ r, r ∈ t → is_Some (vals r !! col_name)) →
  NoDup (pairs t) → "World" ∈ location <$> t →
  ∃ f, pivot_csv t output_path col_name = Ok f.
Proof.
  intros Hcol Hnd Hworld. unfold pivot_csv.
  rewrite require_columns_Ok.
  2: { intros r c Hr Hc. apply list_elem_of_singleton in Hc as ->. by apply Hcol. }
  change (Ok () ≫= ?k) with (k ()). cbv beta.
  fold (pairs t). rewrite (decide_True (P := NoDup (pairs t))) by done.
  change (Ok () ≫= ?k) with (k ()). cbv beta.
  rewrite move_world_first_Ok; [by eexists|apply NoDup_locations|].
  by apply elem_of_locations.
Qed.

Lemma NoDup_pairs_swap (t : table) :
  NoDup ((λ r, (location r, date r)) <$> t) → NoDup (pairs t).
Proof.
  intros Hnd. unfold pairs.
  replace ((λ r, (date r, location r)) <$> t)
    with ((λ p : string * Z, (p.2, p.1)) <$> ((λ r, (location r, date r)) <$> t))
    by (by rewrite <- list_fmap_compose).
  apply NoDup_fmap_2_strong; [|done].
  intros [l d] [l' d'] _ _ [= -> ->]. done.
Qed.

(** The frame that the pipeline computes from a frame with the four
    input columns and distinct pairs of location and date. *)
Lemma standardize_table_returns E (t : table) :
  (∀ r c, r ∈ t → c ∈ INPUT_MEASURES → is_Some (vals r !! c)) →
  NoDup ((λ r, (location r, date r)) <$> t) →
  ∃ t2, select_columns INPUT_MEASURES t = Ok (selected INPUT_MEASURES <$> t) ∧
        discard_rows_table (selected INPUT_MEASURES <$> t) = Ok t2 ∧
        standardize_table E t = Ok (enrich_table E t2).
Proof.
  intros Hcols Hnd.
  destruct (discard_rows_table_returns (selected INPUT_MEASURES <$> t)) as (t2 & Hdis & _).
  { rewrite <- list_fmap_compose. exact Hnd. }
  exists t2. split; [by apply select_columns_Ok|]. split; [exact Hdis|].
  rewrite standardize_table_unfold, (select_columns_Ok _ _ Hcols).
  change (Ok ?x ≫= ?k) with (k x). cbv beta. by rewrite Hdis.
Qed.

(** [standard_export] on a frame that carries the columns of the result,
    has distinct pairs of date and location, and has a World row. *)
Lemma standard_export_Ok E (t' : table) output_path grapher_name :
  exact_cols OUTPUT_COLUMNS t' →
  NoDup (pairs t') →
  (∃ r', r' ∈ t' ∧ location r' = "World") →
  ∃ files, standard_export E t' output_path grapher_name = (files, Ok true) ∧
           length files = 18%nat.
Proof.
  intros Hschema Hkeys Hworld.
  assert (Hsub : ∀ r, r ∈ df_table E t' → r ∈ t').
  { intros r Hr. unfold df_table in Hr. by apply list_elem_of_filter in Hr as [_ Hr]. }
  assert (HTkeys : NoDup (pairs (df_table E t'))).
  { apply (sublist_NoDup _ (pairs t')); [done|].
    unfold pairs, df_table. apply fmap_sublist, sublist_filter. }
  assert (HTworld : "World" ∈ location <$> df_table E t').
  { destruct Hworld as (r' & Hr' & Hl'). apply list_elem_of_fmap. exists r'. split; [done|].
    unfold df_table. apply list_elem_of_filter. split; [|done].
    rewrite Hl'. unfold excluded_aggregates. intros Hin.
    apply list_elem_of_filter in Hin as [Hkept _]. apply Hkept.
    apply (bool_decide_unpack _). vm_compute. exact I. }
  assert (Hhas : ∀ cs, Forall (λ c, c ∈ OUTPUT_COLUMNS) cs →
            ∀ r c, r ∈ t' → c ∈ cs → is_Some (vals r !! c)).
  { intros cs Hcs r c Hr Hc. apply (Hschema r Hr).
    rewrite Forall_forall in Hcs. by apply Hcs. }
  assert (Hgrapher : Forall (λ c, c ∈ OUTPUT_COLUMNS) (fst <$> GRAPHER_COL_NAMES))
    by (apply (bool_decide_unpack _); vm_compute; exact I).
  assert (Hbase : Forall (λ c, c ∈ OUTPUT_COLUMNS) BASE_MEASURES)
    by (apply (bool_decide_unpack _); vm_compute; exact I).
  assert (Hwide : Forall (λ c, c ∈ OUTPUT_COLUMNS) (BASE_MEASURES ++ PER_MILLION_MEASURES))
    by (apply (bool_decide_unpack _); vm_compute; exact I).
  rewrite standard_export_unfold.
  destruct (write_all_all_Ok
              (grapher_csv t' output_path grapher_name
               :: full_data_csv (df_table E t') output_path
               :: (pivot_csv (df_table E t') output_path
                     <$> (BASE_MEASURES ++ PER_MILLION_MEASURES))))
    as (files & Hw & Hlen).
  { constructor; [|constructor].
    - apply grapher_csv_Ok. by apply Hhas.
    - apply full_data_csv_Ok. intros r c Hr Hc.
      apply (Hhas BASE_MEASURES Hbase); [by apply Hsub|done].
    - apply Forall_forall. intros step Hstep.
      apply list_elem_of_fmap in Hstep as (col & -> & Hcol).
      apply pivot_csv_Ok; [|done|done].
      intros r Hr. apply (Hhas _ Hwide); [by apply Hsub|done]. }
  exists files. split; [exact Hw|].
  rewrite Hlen. cbn [length]. rewrite length_fmap. reflexivity.
Qed.

(** The enriched frame of a frame that is not empty has a World row,
    unless the reference data name a continent or income group World. *)
Lemma enrich_table_World E (t2 : table) r2 :
  r2 ∈ t2 →
  "World" ∉ (fst <$> LOCATIONS_BY_CONTINENT E) →
  "World" ∉ (fst <$> LOCATIONS_BY_WB_INCOME_GROUP E) →
  ∃ r', r' ∈ enrich_table E t2 ∧ location r' = "World".
Proof.
  intros Hr2 Hwc Hwi.
  destruct (sum_aggregate_row t2 "World" None None (date r2)) as (rw & Hrw & Hlw & _).
  { change (aggregate_filter None None t2) with t2. intros Hnil.
    assert (Hin : r2 ∈ filter (λ r0, date r0 = date r2) t2)
      by (by apply list_elem_of_filter).
    rewrite Hnil in Hin. by apply elem_of_nil in Hin. }
  destruct (proj2 (enrich_table_rows E t2) rw) as (r' & Hr' & Hl' & _).
  { unfold owid_aggregates_table. apply elem_of_app. right. apply elem_of_concat.
    exists (_sum_aggregate t2 "World" None None). split; [|done].
    apply list_elem_of_fmap. exists ("World", (None, None)). split; [done|].
    by apply World_in_aggregates_spec. }
  exists r'. split; [done|]. congruence.
Qed.

(** The pairs of date and location of the enriched frame are distinct
    when those of the frame given are, no location of the frame bears the
    name of an aggregate, and the population table lists each location
    once. *)
Lemma NoDup_pairs_enrich_table E (t1 t2 : table) :
  discard_rows_table t1 = Ok t2 →
  NoDup (pairs t1) →
  (∀ r, r ∈ t1 → location r ∉ (fst <$> aggregates_spec E)) →
  NoDup (pop_location <$> load_population E) →
  NoDup (pairs (enrich_table E t2)).
Proof.
  intros Hdis Hnd Hloc Hpop.
  rewrite (enrich_table_pairs E t2 Hpop).
  apply NoDup_pairs_owid_aggregates.
  - by apply (discard_rows_table_pairs _ _ Hdis).
  - intros r2 Hr2.
    destruct (proj1 (discard_rows_table_Ok _ _ Hdis) r2 Hr2) as (r1 & Hr1 & Hl & _).
    rewrite Hl. by apply Hloc.
Qed.

(** X16.  [standard_export] succeeds on the result of
    [standardize_data]: when the frame given is not empty, carries the
    four input columns and has distinct pairs of location and date, when
    none of its locations bears the name of an aggregate, and when the
    reference data list each location once in the population table and
    name no continent or income group World, the pipeline returns a
    frame on which [standard_export] writes its eighteen files and
    returns [True]. *)
Theorem standard_export_of_standardize_data E (h : heap) df (t : table)
    output_path grapher_name :
  h !! df = Some t →
  t ≠ [] →
  (∀ r c, r ∈ t → c ∈ INPUT_MEASURES → is_Some (vals r !! c)) →
  NoDup ((λ r, (location r, date r)) <$> t) →
  (∀ r, r ∈ t → location r ∉ (fst <$> aggregates_spec E)) →
  NoDup (pop_location <$> load_population E) →
  "World" ∉ (fst <$> LOCATIONS_BY_CONTINENT E) →
  "World" ∉ (fst <$> LOCATIONS_BY_WB_INCOME_GROUP E) →
  ∃ df' (h' : heap) (t' : table) files,
    standardize_data E df h = Ok (df', h') ∧ h' !! df' = Some t' ∧
    standard_export E t' output_path grapher_name = (files, Ok true) ∧
    length files = 18%nat.
Proof.
  intros Hdf Hne Hcols Hnd Hloc Hpop Hwc Hwi.
  destruct (standardize_table_returns E t Hcols Hnd) as (t2 & Hsel & Hdis & Htab).
  destruct (standardize_data_run_Ok E h df t _ Hdf Htab) as (df' & h' & Hrun & Hres & _).
  assert (Hschema : exact_cols OUTPUT_COLUMNS (enrich_table E t2)).
  { apply enrich_table_columns.
    apply (exact_cols_discard_rows _ (selected INPUT_MEASURES <$> t) t2);
      [|exact Hdis|by eapply select_columns_exact].
    apply Forall_forall. apply (bool_decide_unpack _). vm_compute. exact I. }
  assert (Hkeys : NoDup (pairs (enrich_table E t2))).
  { apply (NoDup_pairs_enrich_table E (selected INPUT_MEASURES <$> t) t2 Hdis); [| |done].
    - apply NoDup_pairs_swap. rewrite <- list_fmap_compose. exact Hnd.
    - intros r1 Hr1. apply list_elem_of_fmap in Hr1 as (r & -> & Hr). exact (Hloc r Hr). }
  assert (Hworld : ∃ r', r' ∈ enrich_table E t2 ∧ location r' = "World").
  { destruct t as [|r t0]; [done|].
    destruct (proj2 (discard_rows_table_Ok _ _ Hdis) (selected INPUT_MEASURES r))
      as (r2 & Hr2 & _).
    { apply list_elem_of_fmap. exists r. split; [done|left]. }
    by apply (enrich_table_World E t2 r2). }
  destruct (standard_export_Ok E (enrich_table E t2) output_path grapher_name
              Hschema Hkeys Hworld) as (files & Hexp & Hlen).
  by exists df', h', (enrich_table E t2), files.
Qed.

Lemma standard_export_of_standardize_data_witness :
  ∃ df' (h' : heap) (t' : table) files,
    standardize_data sample_collaborators 1%positive {[ 1%positive := threshold_sample ]}
      = Ok (df', h') ∧
    h' !! df' = Some t' ∧
    standard_export sample_collaborators t' "out" "grapher" = (files, Ok true) ∧
    length files = 18%nat.
Proof.
  apply (standard_export_of_standardize_data sample_collaborators
           {[ 1%positive := threshold_sample ]} 1%positive threshold_sample).
  - reflexivity.
  - discriminate.
  - intros r c Hr Hc. revert c Hc. apply Forall_forall. revert r Hr. apply Forall_forall.
    apply (bool_decide_unpack _). vm_compute. exact I.
  - apply (bool_decide_unpack _). vm_compute. exact I.
  - apply Forall_forall. apply (bool_decide_unpack _). vm_compute. exact I.
  - apply (bool_decide_unpack _). vm_compute. exact I.
  - apply (bool_decide_unpack _). vm_compute. exact I.
  - apply (bool_decide_unpack _). vm_compute. exact I.
Defined.
